(** * PolyFit: least-squares polynomial fitting through a pivoted LU solver

    A shallow embedding of [PolyFit.cpp] (LUPDecompose, LUPSolve, polyFit)
    and the properties proved of it.

    - [double] is IEEE 754 binary64: Rocq's primitive [float], whose
      operations are specified by [SpecFloat] through [FloatAxioms].  Every
      arithmetic operation of the source is one correctly rounded binary64
      operation (no fused multiply-add, no extended precision).
    - [unsigned int] is a [Z] in [0, 2^32); every place where the source can
      wrap around is written with [wrap].
    - [std::vector] is a [list]; [operator[]] out of range is undefined
      behaviour in C++, which the model reports as [None].  A computation
      that returns [Some _] therefore ran without touching memory it does
      not own.
    - The vectors the functions create take their storage from the free
      store, and a request it refuses throws [std::bad_alloc], which no
      function of the file catches.  [LUPSolve] and [polyFit] are the runs
      in which every request is served; [LUPSolve_heap] and [polyFit_heap]
      add the requests, served or refused by an environment [serve], and end
      in [Returns], [Throws] or [Undefined].
    - The functions mutate their reference arguments; the model returns the
      final contents of every mutated argument next to the return value.

    The file has three parts: the program, the vocabulary of the statements
    (shapes, pure counterparts of the loops, IEEE classes), and the proofs. *)

From Stdlib Require Import ZArith List Lia Bool Floats Permutation.
Import ListNotations.

Local Open Scope Z_scope.

(** ** Machine integers *)

Definition uint_max : Z := 4294967295.

(** Unsigned 32-bit wrap-around. *)
Definition wrap (z : Z) : Z := z mod 4294967296.

(** Conversion [unsigned int -> int] (two's complement). *)
Definition to_int (u : Z) : Z := if u <? 2147483648 then u else u - 4294967296.

(** ** Undefined behaviour as [None] *)

Definition bind {A B : Type} (m : option A) (k : A -> option B) : option B :=
  match m with
  | Some a => k a
  | None => None
  end.

Notation "x <- m ;; k" := (bind m (fun x => k))
  (at level 61, m at next level, right associativity).
Notation "' p <- m ;; k" := (bind m (fun x => match x with p => k end))
  (at level 61, p pattern, m at next level, right associativity).

(** ** Vectors *)

Abbreviation vec := (list float).
Abbreviation mat := (list (list float)).
Abbreviation uvec := (list Z).

(** Functional update at a position; the list is returned unchanged when the
    position is outside it ([set] below never calls it there). *)
Fixpoint upd {T : Type} (l : list T) (n : nat) (x : T) : list T :=
  match l, n with
  | [], _ => []
  | _ :: t, O => x :: t
  | h :: t, S n' => h :: upd t n' x
  end.

(** [v[i]] as an rvalue. *)
Definition get {T : Type} (v : list T) (i : Z) : option T :=
  if i <? 0 then None else nth_error v (Z.to_nat i).

(** [v[i] = x]. *)
Definition set {T : Type} (v : list T) (i : Z) (x : T) : option (list T) :=
  if (0 <=? i) && (i <? Z.of_nat (length v))
  then Some (upd v (Z.to_nat i) x)
  else None.

(** [v.resize(n, d)]. *)
Definition resize {T : Type} (v : list T) (n : Z) (d : T) : list T :=
  firstn (Z.to_nat n) v ++ repeat d (Z.to_nat n - length v).

(** ** Counted loops

    [for_up n i body s] runs [body i], [body (i+1)], ... [n] times:
    [for (k = i; k < i + n; k++) body].  The counters of the source stay
    below an [unsigned int] bound, so [k++] never wraps. *)
Fixpoint for_up {S : Type} (n : nat) (i : Z) (body : Z -> S -> option S) (s : S)
  : option S :=
  match n with
  | O => Some s
  | S n' => s' <- body i s ;; for_up n' (i + 1) body s'
  end.

(** [for (k = i; k > i - n; k--) body], on a signed counter. *)
Fixpoint for_down {S : Type} (n : nat) (i : Z) (body : Z -> S -> option S) (s : S)
  : option S :=
  match n with
  | O => Some s
  | S n' => s' <- body i s ;; for_down n' (i - 1) body s'
  end.

(** ** LUPDecompose *)

(** The matrix, the permutation vector, and (ghost) the row exchanges
    performed so far, most recent first, as pairs (column, pivot row). *)
Record lu_state := mk_lu {
  lu_A : mat;
  lu_P : uvec;
  lu_swaps : list (Z * Z)
}.

(** Lines 17-18: [for (i = 0; i <= N; i++) P[i] = i;].  When [N] is the
    largest [unsigned int] the condition [i <= N] never fails and the loop
    does not terminate. *)
Definition init_P (N : Z) (P : uvec) : option uvec :=
  if N =? uint_max then None
  else for_up (Z.to_nat (N + 1)) 0 (fun i P => set P i i) P.

(** Lines 22-30: the scan of column [i] over rows [i..N-1]. *)
Definition scan_body (A : mat) (i : Z) (k : Z) (st : float * Z) : option (float * Z) :=
  let '(maxA, imax) := st in
  row <- get A k ;;
  a <- get row i ;;
  let absA := abs a in
  if (maxA <? absA)%float then Some (absA, k) else Some (maxA, imax).

Definition find_pivot (A : mat) (N i : Z) : option (float * Z) :=
  for_up (Z.to_nat (N - i)) i (scan_body A i) (0%float, i).

(** Lines 36-41: the exchange of rows [i] and [imax]. *)
Definition exchange (N i imax : Z) (s : lu_state) : option lu_state :=
  let P := lu_P s in
  let A := lu_A s in
  j <- get P i ;;
  pm <- get P imax ;;
  P <- set P i pm ;;
  P <- set P imax j ;;
  ri <- get A i ;;
  rm <- get A imax ;;
  A <- set A i rm ;;
  A <- set A imax ri ;;
  c <- get P N ;;
  P <- set P N (wrap (c + 1)) ;;
  Some (mk_lu A P ((i, imax) :: lu_swaps s)).

(** Line 49: [A[j][k] -= A[j][i] * A[i][k]]. *)
Definition elim_entry (i j k : Z) (A : mat) : option mat :=
  rj <- get A j ;;
  ajk <- get rj k ;;
  aji <- get rj i ;;
  ri <- get A i ;;
  aik <- get ri k ;;
  rj' <- set rj k (ajk - aji * aik)%float ;;
  set A j rj'.

(** Lines 46-49: the elimination of row [j] by the pivot row [i]. *)
Definition elim_row (N i j : Z) (A : mat) : option mat :=
  rj <- get A j ;;
  aji <- get rj i ;;
  ri <- get A i ;;
  aii <- get ri i ;;
  rj' <- set rj i (aji / aii)%float ;;
  A <- set A j rj' ;;
  for_up (Z.to_nat (N - (i + 1))) (i + 1) (elim_entry i j) A.

(** Lines 44-50. *)
Definition eliminate (N i : Z) (A : mat) : option mat :=
  for_up (Z.to_nat (N - (i + 1))) (i + 1) (elim_row N i) A.

Inductive step_result :=
| Degenerate
| Continue (s : lu_state).

(** One turn of the loop of line 20. *)
Definition pivot_step (N : Z) (Tol : float) (i : Z) (s : lu_state) : option step_result :=
  '(maxA, imax) <- find_pivot (lu_A s) N i ;;
  if (maxA <? Tol)%float then Some Degenerate
  else
    s1 <- (if imax =? i then Some s else exchange N i imax s) ;;
    A2 <- eliminate N i (lu_A s1) ;;
    Some (Continue (mk_lu A2 (lu_P s1) (lu_swaps s1))).

(** Lines 20-52; the result is the returned [int] with the final state. *)
Fixpoint pivot_loop (n : nat) (N : Z) (Tol : float) (i : Z) (s : lu_state)
  : option (Z * lu_state) :=
  match n with
  | O => Some (1, s)
  | S n' =>
      r <- pivot_step N Tol i s ;;
      match r with
      | Degenerate => Some (0, s)
      | Continue s' => pivot_loop n' N Tol (i + 1) s'
      end
  end.

Definition LUPDecompose_run (A : mat) (N : Z) (Tol : float) (P : uvec)
  : option (Z * lu_state) :=
  P0 <- init_P N P ;;
  pivot_loop (Z.to_nat N) N Tol 0 (mk_lu A P0 []).

Definition LUPDecompose (A : mat) (N : Z) (Tol : float) (P : uvec)
  : option (Z * mat * uvec) :=
  '(r, s) <- LUPDecompose_run A N Tol P ;;
  Some (r, lu_A s, lu_P s).

(** ** LUPSolve *)

(** Line 62: [1e-12], that is the [double] nearest to it. *)
Definition tol : float := 0x1.19799812dea11p-40%float.

(** Line 72 and line 78: [x[i] -= A[i][k] * x[k]]. *)
Definition subst_entry (A : mat) (i k : Z) (x : vec) : option vec :=
  xi <- get x i ;;
  ri <- get A i ;;
  aik <- get ri k ;;
  xk <- get x k ;;
  set x i (xi - aik * xk)%float.

(** Lines 69-72. *)
Definition forward_row (A : mat) (b : vec) (P : uvec) (i : Z) (x : vec) : option vec :=
  pi <- get P i ;;
  bi <- get b pi ;;
  x <- set x i bi ;;
  for_up (Z.to_nat i) 0 (subst_entry A i) x.

(** Lines 77-80. *)
Definition backward_row (A : mat) (N : Z) (i : Z) (x : vec) : option vec :=
  x <- for_up (Z.to_nat (N - (i + 1))) (i + 1) (subst_entry A i) x ;;
  xi <- get x i ;;
  ri <- get A i ;;
  aii <- get ri i ;;
  set x i (xi / aii)%float.

Definition LUPSolve (x : vec) (A : mat) (b : vec) (N : Z) : option (Z * vec * mat) :=
  let P := repeat 0 (Z.to_nat (wrap (N + 1))) in
  '(ok, A, P) <- LUPDecompose A N tol P ;;
  if ok =? 0 then Some (1, x, A)
  else
    x <- for_up (Z.to_nat N) 0 (forward_row A b P) x ;;
    let i0 := to_int (wrap (N - 1)) in
    x <- for_down (Z.to_nat (i0 + 1)) i0 (backward_row A N) x ;;
    Some (0, x, A).

(** ** polyFit *)

(** Lines 137-142, one turn of the loop on [j] for the sample [i]. *)
Definition power_body (inX inY : vec) (nCoef : Z) (i j : Z) (st : vec * vec * float)
  : option (vec * vec * float) :=
  let '(XY, xxSum, accumulatedPower) := st in
  XY <- (if j <? nCoef
         then yi <- get inY i ;;
              v <- get XY j ;;
              set XY j (v + yi * accumulatedPower)%float
         else Some XY) ;;
  s <- get xxSum j ;;
  xxSum <- set xxSum j (s + accumulatedPower)%float ;;
  xi <- get inX i ;;
  Some (XY, xxSum, (accumulatedPower * xi)%float).

(** Lines 134-143, one turn of the loop on [i]. *)
Definition sample_body (inX inY : vec) (nCoef nPower : Z) (i : Z) (st : vec * vec)
  : option (vec * vec) :=
  let '(XY, xxSum) := st in
  '(XY, xxSum, _) <- for_up (Z.to_nat nPower) 0 (power_body inX inY nCoef i)
                       (XY, xxSum, 1%float) ;;
  Some (XY, xxSum).

(** Lines 132-144: the sums [XY] and [xxSum]. *)
Definition accumulate (inX inY : vec) (nCoef nPower : Z) : option (vec * vec) :=
  let nX := wrap (Z.of_nat (length inX)) in
  let XY := repeat 0%float (Z.to_nat nCoef) in
  let xxSum := repeat 0%float (Z.to_nat nPower) in
  for_up (Z.to_nat nX) 0 (sample_body inX inY nCoef nPower) (XY, xxSum).

(** Lines 149-150. *)
Definition fill_entry (xxSum : vec) (i j : Z) (XX : mat) : option mat :=
  s <- get xxSum (wrap (i + j)) ;;
  ri <- get XX i ;;
  ri <- set ri j s ;;
  XX <- set XX i ri ;;
  ri <- get XX i ;;
  v <- get ri j ;;
  rj <- get XX j ;;
  rj <- set rj i v ;;
  set XX j rj.

(** Lines 145-152. *)
Definition assemble (xxSum : vec) (nCoef : Z) : option mat :=
  let XX := repeat (repeat 0%float (Z.to_nat nCoef)) (Z.to_nat nCoef) in
  for_up (Z.to_nat nCoef) 0
    (fun i => for_up (Z.to_nat nCoef) 0 (fill_entry xxSum i)) XX.

(** Lines 117-152: the normal equations [(XX, XY)]. *)
Definition normal_equations (inX inY : vec) (inPolOrder : Z) : option (mat * vec) :=
  let nCoef := wrap (inPolOrder + 1) in
  let nPower := wrap (nCoef + inPolOrder) in
  '(XY, xxSum) <- accumulate inX inY nCoef nPower ;;
  XX <- assemble xxSum nCoef ;;
  Some (XX, XY).

(** The result is the returned [int] with the final [outPolCoef].  The
    vectors of lines 121-128 are taken as given here; [polyFit_heap] below
    adds their requests to the free store. *)
Definition polyFit (outPolCoef inX inY : vec) (inPolOrder : Z) : option (Z * vec) :=
  let nCoef := wrap (inPolOrder + 1) in
  let outPolCoef := resize outPolCoef nCoef 0%float in
  '(XX, XY) <- normal_equations inX inY inPolOrder ;;
  '(errCode, outPolCoef, _) <- LUPSolve outPolCoef XX XY nCoef ;;
  Some (errCode, outPolCoef).

(** ** The free store

    Line 63 creates the vector [P], lines 125-128 create [XX], [XY] and
    [xxSum], and line 121 lets [outPolCoef] grow.  Each takes storage from
    the free store, and a request the free store refuses throws
    [std::bad_alloc]; no function of the file has a handler, so the exception
    leaves [polyFit].  Whether a request is served is decided by the
    environment, not by the program: it is the parameter [serve], asked with
    the number of requests the call has made so far, the bytes it holds and
    the bytes requested.  The sizes are those of the LP64 ABIs: 8 bytes for
    a [double], 4 for an [unsigned int], 24 for a [std::vector<double>]
    object.  A vector is taken to hold exactly its elements (its spare
    capacity is not visible to the code). *)

Inductive outcome (A : Type) : Type :=
| Returns (a : A)
| Throws
| Undefined.

Arguments Returns {A} a.
Arguments Throws {A}.
Arguments Undefined {A}.

(** The free store as a call sees it: the bytes the call holds and the
    number of requests it has made. *)
Record store := mk_store {
  held : Z;
  asked : nat
}.

(** A computation that uses the free store. *)
Definition comp (A : Type) : Type := store -> outcome (A * store).

Definition ret {A : Type} (a : A) : comp A := fun st => Returns (a, st).

Definition bindc {A B : Type} (m : comp A) (k : A -> comp B) : comp B :=
  fun st =>
    match m st with
    | Returns (a, st') => k a st'
    | Throws => Throws
    | Undefined => Undefined
    end.

Notation "x <~ m ;; k" := (bindc m (fun x => k))
  (at level 61, m at next level, right associativity).
Notation "' p <~ m ;; k" := (bindc m (fun x => match x with p => k end))
  (at level 61, p pattern, m at next level, right associativity).

(** The part of the code that requests nothing. *)
Definition lift {A : Type} (o : option A) : comp A :=
  fun st => match o with Some a => Returns (a, st) | None => Undefined end.

(** Storage for [bytes] bytes; an empty vector requests none. *)
Definition new (serve : nat -> Z -> Z -> bool) (bytes : Z) : comp unit :=
  fun st =>
    if bytes =? 0 then Returns (tt, st)
    else if serve (asked st) (held st) bytes
         then Returns (tt, mk_store (held st + bytes) (S (asked st)))
         else Throws.

Definition release (bytes : Z) : comp unit :=
  fun st => Returns (tt, mk_store (held st - bytes) (asked st)).

(** [k] vectors of [bytes] bytes each, one request after the other. *)
Fixpoint new_each (serve : nat -> Z -> Z -> bool) (k : nat) (bytes : Z) : comp unit :=
  match k with
  | O => ret tt
  | S k' => _ <~ new serve bytes ;; new_each serve k' bytes
  end.

(** Line 121, [outPolCoef.resize(nCoef, 0.0)] on a vector of [len]
    elements: when it has to grow, the new storage is requested and the old
    one released once the elements are moved. *)
Definition grow (serve : nat -> Z -> Z -> bool) (len n : Z) : comp unit :=
  if len <? n then _ <~ new serve (8 * n) ;; release (8 * len) else ret tt.

(** A call from the outside: nothing is held at entry, and what the call
    still holds at exit belongs to the caller's vectors. *)
Definition run {A : Type} (m : comp A) : outcome A :=
  match m (mk_store 0 0) with
  | Returns (a, _) => Returns a
  | Throws => Throws
  | Undefined => Undefined
  end.

(** LUPSolve with line 63, [vector<unsigned int> P(N + 1, 0)], and the
    destruction of [P] at the return. *)
Definition LUPSolve_heap (serve : nat -> Z -> Z -> bool) (x : vec) (A : mat) (b : vec) (N : Z)
  : comp (Z * vec * mat) :=
  _ <~ new serve (4 * wrap (N + 1)) ;;
  r <~ lift (LUPSolve x A b N) ;;
  _ <~ release (4 * wrap (N + 1)) ;;
  ret r.

(** polyFit with the requests of lines 121-128.  Line 125 builds the row
    [vector<double>(nCoef, 0)], then the [nCoef] vector objects of [XX],
    then one copy of the row for each of them, and destroys the row. *)
Definition polyFit_heap (serve : nat -> Z -> Z -> bool) (outPolCoef inX inY : vec)
           (inPolOrder : Z) : comp (Z * vec) :=
  let nCoef := wrap (inPolOrder + 1) in
  let nPower := wrap (nCoef + inPolOrder) in
  (* line 121 *)
  _ <~ grow serve (Z.of_nat (length outPolCoef)) nCoef ;;
  let outPolCoef := resize outPolCoef nCoef 0%float in
  (* line 125 *)
  _ <~ new serve (8 * nCoef) ;;
  _ <~ new serve (24 * nCoef) ;;
  _ <~ new_each serve (Z.to_nat nCoef) (8 * nCoef) ;;
  _ <~ release (8 * nCoef) ;;
  (* line 126 *)
  _ <~ new serve (8 * nCoef) ;;
  (* line 128 *)
  _ <~ new serve (8 * nPower) ;;
  (* lines 132-152 *)
  ' (XX, XY) <~ lift (normal_equations inX inY inPolOrder) ;;
  (* line 154 *)
  ' (errCode, outPolCoef, _) <~ LUPSolve_heap serve outPolCoef XX XY nCoef ;;
  (* line 156: [xxSum], [XY] and [XX] are destroyed *)
  _ <~ release (8 * nPower + 8 * nCoef + Z.of_nat (Z.to_nat nCoef) * (8 * nCoef)
                + 24 * nCoef) ;;
  ret (errCode, outPolCoef).


(** ** Specification-side vocabulary *)

(** An [n] x [n] matrix. *)
Definition square (n : nat) (A : mat) : Prop :=
  length A = n /\ Forall (fun r => length r = n) A.

(** [A[r][c]], read without a bounds check (used on square matrices). *)
Definition entry (A : mat) (r c : nat) : float := nth c (nth r A []) 0%float.

(** The identity permutation vector [0, 1, ..., n-1]. *)
Definition iota (n : nat) : uvec := map Z.of_nat (seq 0 n).

Definition tabulate {T : Type} (n : nat) (f : nat -> T) : list T := map f (seq 0 n).

(** Map with the position of each element, counted from [k]. *)
Fixpoint imap {T U : Type} (f : nat -> T -> U) (k : nat) (l : list T) : list U :=
  match l with
  | [] => []
  | x :: t => f k x :: imap f (S k) t
  end.

(** What lines 46-49 make of a row [r] below the pivot row [p]. *)
Definition elim_row_pure (i : nat) (p r : vec) : vec :=
  let m := (nth i r 0 / nth i p 0)%float in
  imap (fun c a => if (c <? i)%nat then a
                   else if (c =? i)%nat then m
                   else (a - m * nth c p 0)%float) 0 r.

(** What lines 44-50 make of the matrix. *)
Definition eliminate_pure (i : nat) (A : mat) : mat :=
  imap (fun j r => if (j <=? i)%nat then r else elim_row_pure i (nth i A []) r) 0 A.

(** The row [j] while the loop of line 48 stands at column [k]. *)
Definition elim_row_upto (i k : nat) (m : float) (p r : vec) : vec :=
  imap (fun c a => if (c <? i)%nat then a
                   else if (c =? i)%nat then m
                   else if (c <? k)%nat then (a - m * nth c p 0)%float
                   else a) 0 r.

(** The matrix while the loop of line 44 stands at row [j]. *)
Definition eliminate_upto (i j : nat) (A : mat) : mat :=
  imap (fun r row => if (r <=? i)%nat then row
                     else if (r <? j)%nat then elim_row_pure i (nth i A []) row
                     else row) 0 A.

(** The rows [i] and [m] exchanged. *)
Definition swap_rows {T : Type} (d : T) (i m : nat) (l : list T) : list T :=
  upd (upd l i (nth m l d)) m (nth i l d).

(** The larger of two values, as the comparison of line 26 decides it. *)
Definition fmax (m a : float) : float := if (m <? a)%float then a else m.

(** Column [i] of [A] on the rows [i..n-1]. *)
Definition column_below (A : mat) (n i : nat) : list float :=
  map (fun r => entry A r i) (seq i (n - i)).

(** The maximum absolute value of column [i] over the rows [i..n-1]. *)
Definition col_abs_max (A : mat) (n i : nat) : float :=
  fold_left fmax (map abs (column_below A n i)) 0%float.

(** The states the loop of line 20 goes through: [reaches n Tol A i s] when
    the loop, started on [A], arrives at column [i] in state [s]. *)
Inductive reaches (n : nat) (Tol : float) (A : mat) : nat -> lu_state -> Prop :=
| reaches_start : reaches n Tol A 0 (mk_lu A (iota (S n)) [])
| reaches_next (i : nat) (s s' : lu_state) :
    reaches n Tol A i s ->
    (i < n)%nat ->
    pivot_step (Z.of_nat n) Tol (Z.of_nat i) s = Some (Continue s') ->
    reaches n Tol A (S i) s'.

(** The decomposition meets a pivot column whose maximum absolute value over
    the remaining rows is below the tolerance. *)
Definition degenerate_pivot (n : nat) (Tol : float) (A : mat) : Prop :=
  exists (i : nat) (s : lu_state),
    reaches n Tol A i s /\ (i < n)%nat /\
    (col_abs_max (lu_A s) n i <? Tol)%float = true.

(** IEEE classes of a [double]. *)
Definition zero_or_nan (x : float) : bool :=
  match Prim2SF x with
  | S754_zero _ | S754_nan => true
  | _ => false
  end.

Definition is_zero (x : float) : bool :=
  match Prim2SF x with
  | S754_zero _ => true
  | _ => false
  end.

(** Row [r] holds only zeros (of either sign). *)
Definition zero_row (A : mat) (r : nat) : Prop :=
  Forall (fun a => is_zero a = true) (nth r A []).

(** The powers and sums of the normal equations, in the order in which the
    source accumulates them: [running_power x j] is [((1*x)*x)...*x] with [j]
    factors [x], and the sums run over the samples from the first to the
    last, starting from [0]. *)
Fixpoint running_power (x : float) (j : nat) : float :=
  match j with
  | O => 1%float
  | S j' => (running_power x j' * x)%float
  end.

Definition power_sum (xs : vec) (p : nat) : float :=
  fold_left (fun s x => (s + running_power x p)%float) xs 0%float.

Definition moment (xs ys : vec) (j : nat) : float :=
  fold_left (fun s xy => (s + snd xy * running_power (fst xy) j)%float)
            (combine xs ys) 0%float.

Definition xxSum_spec (xs : vec) (d : nat) : vec :=
  tabulate (2 * d + 1) (power_sum xs).

Definition XX_spec (xs : vec) (d : nat) : mat :=
  tabulate (S d) (fun i => tabulate (S d) (fun j => power_sum xs (i + j))).

Definition XY_spec (xs ys : vec) (d : nat) : vec :=
  tabulate (S d) (moment xs ys).

(** What the scan of lines 22-30 has established when it stands at row [k]
    of column [i], holding [maxA] and [imax]. *)
Record scan_ok (A : mat) (i k : nat) (maxA : float) (imax : nat) : Prop := mk_scan_ok {
  scan_lo : (i <= imax)%nat;
  scan_hi : imax = i \/ (imax < k)%nat;
  scan_fold : maxA = fold_left fmax (map abs (column_below A k i)) 0%float;
  scan_upper : forall r, (i <= r < k)%nat -> (maxA <? abs (entry A r i))%float = false;
  scan_which :
    (maxA = 0%float /\ imax = i) \/
    (maxA = abs (entry A imax i) /\ (0 <? maxA)%float = true /\
     forall r, (i <= r < imax)%nat -> (maxA <=? abs (entry A r i))%float = false)
}.

(** The shape the loop of line 20 keeps: a square matrix, a permutation
    vector of [n + 1] entries whose first [n] entries are row numbers, and
    a trailing entry that counts the exchanges from [n] on. *)
Record lu_ok (n : nat) (s : lu_state) : Prop := mk_lu_ok {
  ok_square : square n (lu_A s);
  ok_lenP : length (lu_P s) = S n;
  ok_range : forall c, (c < n)%nat ->
             exists v, nth_error (lu_P s) c = Some (Z.of_nat v) /\ (v < n)%nat;
  ok_count : nth_error (lu_P s) n
             = Some (wrap (Z.of_nat n + Z.of_nat (length (lu_swaps s))))
}.

(** What lines 36-41 make of the state. *)
Definition exchange_pure (n i imax : nat) (s : lu_state) : lu_state :=
  mk_lu (swap_rows [] i imax (lu_A s))
        (upd (swap_rows 0 i imax (lu_P s)) n (wrap (nth n (lu_P s) 0 + 1)))
        ((Z.of_nat i, Z.of_nat imax) :: lu_swaps s).

(** What lines 34-50 make of the state once [imax] is chosen. *)
Definition after_pivot (n i imax : nat) (s : lu_state) : lu_state :=
  let s1 := if (imax =? i)%nat then s else exchange_pure n i imax s in
  mk_lu (eliminate_pure i (lu_A s1)) (lu_P s1) (lu_swaps s1).

(** [g] applied, with its position, to the elements before position [j]. *)
Definition imap_upto {T : Type} (g : nat -> T -> T) (j : nat) (l : list T) : list T :=
  imap (fun c v => if (c <? j)%nat then g c v else v) 0 l.

(** What one sample [(x, y)] adds to [XY[c]] and to [xxSum[c]]. *)
Definition add_XY (xy : float * float) (c : nat) (v : float) : float :=
  (v + snd xy * running_power (fst xy) c)%float.

Definition add_xxSum (xy : float * float) (c : nat) (s : float) : float :=
  (s + running_power (fst xy) c)%float.

(** What lines 134-143 add to the sums for one sample [(x, y)]. *)
Definition add_sample (st : list float * list float) (xy : float * float)
  : list float * list float :=
  (imap (add_XY xy) 0 (fst st), imap (add_xxSum xy) 0 (snd st)).

Definition is_NaN (x : float) : bool :=
  match Prim2SF x with
  | S754_nan => true
  | _ => false
  end.

(** Where the exchange of rows [i] and [m] puts row [r]. *)
Definition moved (i m r : nat) : nat :=
  if (r =? i)%nat then m else if (r =? m)%nat then i else r.

(** Row [q] holds a zero or a NaN in every column from [i] on. *)
Definition dead_row (n : nat) (A : list (list float)) (i q : nat) : Prop :=
  forall c, (i <= c < n)%nat -> zero_or_nan (entry A q c) = true.

(** Two different rows with the same contents. *)
Definition equal_rows (n : nat) (A : list (list float)) (q1 q2 : nat) : Prop :=
  q1 <> q2 /\ (q1 < n)%nat /\ (q2 < n)%nat /\ nth q1 A [] = nth q2 A [].

(** Two runs side by side: both undefined, or both defined with related
    results. *)
Definition orel {S : Type} (R : S -> S -> Prop) (o1 o2 : option S) : Prop :=
  match o1, o2 with
  | Some a, Some b => R a b
  | None, None => True
  | _, _ => False
  end.

(** Two vectors of one length that agree on the positions below [k]. *)
Definition agree (k : nat) (x1 x2 : list float) : Prop :=
  length x1 = length x2 /\ forall c, (c < k)%nat -> nth_error x1 c = nth_error x2 c.

(** The first [n] entries of [P] are distinct row numbers. *)
Definition perm_ok (n : nat) (P : list Z) : Prop :=
  (forall c, (c < n)%nat -> exists v, nth c P 0 = Z.of_nat v /\ (v < n)%nat) /\
  (forall c1 c2, (c1 < n)%nat -> (c2 < n)%nat -> nth c1 P 0 = nth c2 P 0 -> c1 = c2).

(** [y] has the length of [x] and holds what [x] holds from position [k] on. *)
Definition same_from (k : nat) (x y : list float) : Prop :=
  length y = length x /\ forall c, (k <= c)%nat -> nth_error y c = nth_error x c.

(** Column [c] holds a zero or a NaN in every row. *)
Definition dead_col (n : nat) (A : list (list float)) (c : nat) : Prop :=
  forall r, (r < n)%nat -> zero_or_nan (entry A r c) = true.

(** Column [c] holds only zeros (of either sign). *)
Definition zero_col (n : nat) (A : list (list float)) (c : nat) : Prop :=
  forall r, (r < n)%nat -> is_zero (entry A r c) = true.

(** The exchanges of a run: [row_exchanges n Tol A i s k] when the loop of
    line 20, started on [A], arrives at column [i] in state [s] after [k]
    turns in which the scan of lines 22-30 chose a row other than row [i]
    (the test [imax != i] of line 34). *)
Inductive row_exchanges (n : nat) (Tol : float) (A : mat) : nat -> lu_state -> nat -> Prop :=
| exchanges_start : row_exchanges n Tol A 0 (mk_lu A (iota (S n)) []) 0
| exchanges_next (i : nat) (s s' : lu_state) (k : nat) (maxA : float) (imax : Z) :
    row_exchanges n Tol A i s k ->
    (i < n)%nat ->
    find_pivot (lu_A s) (Z.of_nat n) (Z.of_nat i) = Some (maxA, imax) ->
    pivot_step (Z.of_nat n) Tol (Z.of_nat i) s = Some (Continue s') ->
    row_exchanges n Tol A (S i) s' (if imax =? Z.of_nat i then k else S k).

(** What a call that requests nothing makes of an [option]. *)
Definition of_option {A : Type} (o : option A) : outcome A :=
  match o with
  | Some a => Returns a
  | None => Undefined
  end.

(** [m] does what [o] does, unless a request is refused. *)
Definition refines {A : Type} (m : comp A) (o : option A) : Prop :=
  forall st,
    m st = Throws \/
    match o with
    | Some a => exists st', m st = Returns (a, st')
    | None => m st = Undefined
    end.

(** [m] throws only when a request is refused. *)
Definition throws_only_refused {A : Type} (serve : nat -> Z -> Z -> bool) (m : comp A)
  : Prop :=
  (forall k held bytes, serve k held bytes = true) -> forall st, m st <> Throws.

(** A free store that never lets a call hold more than [limit] bytes. *)
Definition store_limit (serve : nat -> Z -> Z -> bool) (limit : Z) : Prop :=
  forall k held bytes, serve k held bytes = true -> held + bytes <= limit.

(** The free store of a machine with [limit] bytes to give and no cost of
    its own: a request is served exactly when it fits. *)
Definition machine (limit : Z) : nat -> Z -> Z -> bool :=
  fun _ held bytes => held + bytes <=? limit.

(** ** Basic facts on vectors *)

Lemma get_nat {T : Type} (v : list T) (k : nat) :
  get v (Z.of_nat k) = nth_error v k.
Proof.
  unfold get. destruct (Z.ltb_spec (Z.of_nat k) 0); [lia|].
  now rewrite Nat2Z.id.
Qed.

Lemma set_nat {T : Type} (v : list T) (k : nat) (x : T) :
  (k < length v)%nat -> set v (Z.of_nat k) x = Some (upd v k x).
Proof.
  intros H. unfold set.
  destruct (Z.leb_spec 0 (Z.of_nat k)); [|lia].
  destruct (Z.ltb_spec (Z.of_nat k) (Z.of_nat (length v))); [|lia].
  simpl. now rewrite Nat2Z.id.
Qed.

Lemma set_nat_None {T : Type} (v : list T) (k : nat) (x : T) :
  (length v <= k)%nat -> set v (Z.of_nat k) x = None.
Proof.
  intros H. unfold set.
  destruct (Z.ltb_spec (Z.of_nat k) (Z.of_nat (length v))); [lia|].
  now rewrite andb_false_r.
Qed.

Lemma set_Some_inv {T : Type} (v v' : list T) (i : Z) (x : T) :
  set v i x = Some v' ->
  0 <= i < Z.of_nat (length v) /\ v' = upd v (Z.to_nat i) x.
Proof.
  unfold set.
  destruct (Z.leb_spec 0 i), (Z.ltb_spec i (Z.of_nat (length v)));
    simpl; intros E; try discriminate.
  injection E as <-. split; [lia | reflexivity].
Qed.

Lemma length_upd {T : Type} (l : list T) (n : nat) (x : T) :
  length (upd l n x) = length l.
Proof.
  revert n. induction l as [|h t IH]; intros [|n]; simpl; auto.
Qed.

Lemma nth_error_upd {T : Type} (l : list T) (n k : nat) (x : T) :
  nth_error (upd l n x) k =
  if (k =? n)%nat && (n <? length l)%nat then Some x else nth_error l k.
Proof.
  revert n k. induction l as [|h t IH]; intros n k.
  - simpl. destruct (k =? n)%nat; simpl; destruct n, k; reflexivity.
  - destruct n as [|n], k as [|k]; simpl; try reflexivity.
    rewrite IH. reflexivity.
Qed.

Lemma nth_error_upd_same {T : Type} (l : list T) (n : nat) (x : T) :
  (n < length l)%nat -> nth_error (upd l n x) n = Some x.
Proof.
  intros H. rewrite nth_error_upd, Nat.eqb_refl.
  destruct (Nat.ltb_spec n (length l)); [reflexivity | lia].
Qed.

Lemma nth_error_upd_other {T : Type} (l : list T) (n k : nat) (x : T) :
  k <> n -> nth_error (upd l n x) k = nth_error l k.
Proof.
  intros H. rewrite nth_error_upd.
  destruct (Nat.eqb_spec k n); [contradiction | reflexivity].
Qed.

Lemma nth_upd {T : Type} (l : list T) (n k : nat) (x d : T) :
  nth k (upd l n x) d =
  if (k =? n)%nat && (n <? length l)%nat then x else nth k l d.
Proof.
  revert n k. induction l as [|h t IH]; intros n k.
  - simpl. destruct (k =? n)%nat; simpl; destruct n, k; reflexivity.
  - destruct n as [|n], k as [|k]; simpl; try reflexivity.
    rewrite IH. reflexivity.
Qed.

Lemma upd_upd {T : Type} (l : list T) (n : nat) (x y : T) :
  upd (upd l n x) n y = upd l n y.
Proof.
  revert n. induction l as [|h t IH]; intros [|n]; simpl; auto.
  now rewrite IH.
Qed.

Lemma upd_nth_same {T : Type} (l : list T) (n : nat) (d : T) :
  upd l n (nth n l d) = l.
Proof.
  revert n. induction l as [|h t IH]; intros [|n]; simpl; auto.
  now rewrite IH.
Qed.

Lemma Forall_upd {T : Type} (Q : T -> Prop) (l : list T) (n : nat) (x : T) :
  Forall Q l -> Q x -> Forall Q (upd l n x).
Proof.
  intros H Hx. revert n.
  induction H as [|h t Hh Ht IH]; intros [|n]; simpl; auto.
Qed.

Lemma nth_error_nth_lt {T : Type} (l : list T) (k : nat) (d : T) :
  (k < length l)%nat -> nth_error l k = Some (nth k l d).
Proof.
  intros H. now apply nth_error_nth'.
Qed.

Lemma length_imap {T U : Type} (f : nat -> T -> U) (k : nat) (l : list T) :
  length (imap f k l) = length l.
Proof.
  revert k. induction l as [|h t IH]; intros k; simpl; auto.
Qed.

Lemma nth_error_imap {T U : Type} (f : nat -> T -> U) (k c : nat) (l : list T) :
  nth_error (imap f k l) c = option_map (f (k + c)%nat) (nth_error l c).
Proof.
  revert k c. induction l as [|h t IH]; intros k [|c]; simpl; try reflexivity.
  - now rewrite Nat.add_0_r.
  - rewrite IH. now rewrite Nat.add_succ_r.
Qed.

Lemma nth_imap {T U : Type} (f : nat -> T -> U) (c : nat) (l : list T) (d : T) (e : U) :
  (c < length l)%nat -> nth c (imap f 0 l) e = f c (nth c l d).
Proof.
  intros H.
  assert (E : nth_error (imap f 0 l) c = Some (f c (nth c l d))).
  { rewrite nth_error_imap. rewrite (nth_error_nth_lt l c d H). reflexivity. }
  now apply nth_error_nth.
Qed.

Lemma length_tabulate {T : Type} (n : nat) (f : nat -> T) :
  length (tabulate n f) = n.
Proof.
  unfold tabulate. now rewrite length_map, length_seq.
Qed.

Lemma nth_error_tabulate {T : Type} (n k : nat) (f : nat -> T) :
  (k < n)%nat -> nth_error (tabulate n f) k = Some (f k).
Proof.
  intros H. unfold tabulate.
  rewrite nth_error_map, nth_error_seq.
  destruct (Nat.ltb_spec k n); [reflexivity | lia].
Qed.

Lemma length_resize {T : Type} (v : list T) (n : Z) (d : T) :
  length (resize v n d) = Z.to_nat n.
Proof.
  unfold resize. rewrite length_app, length_firstn, repeat_length. lia.
Qed.

(** ** The loop rule *)

Lemma for_up_inv {S : Type} (I : nat -> S -> Prop) (body : Z -> S -> option S) :
  forall (n lo : nat) (s : S),
    I lo s ->
    (forall k s0, (lo <= k < lo + n)%nat -> I k s0 ->
                  exists s1, body (Z.of_nat k) s0 = Some s1 /\ I (Datatypes.S k) s1) ->
    exists s', for_up n (Z.of_nat lo) body s = Some s' /\ I (lo + n)%nat s'.
Proof.
  induction n as [|n IH]; intros lo s H0 Hstep.
  - exists s. rewrite Nat.add_0_r. auto.
  - destruct (Hstep lo s ltac:(lia) H0) as [s1 [E1 H1]].
    simpl. rewrite E1. simpl.
    replace (Z.of_nat lo + 1) with (Z.of_nat (Datatypes.S lo)) by lia.
    destruct (IH (Datatypes.S lo) s1 H1) as [s' [E' H']].
    + intros k s0 Hk. apply Hstep. lia.
    + exists s'. rewrite E'. split; [reflexivity|].
      now replace (lo + Datatypes.S n)%nat with (Datatypes.S lo + n)%nat by lia.
Qed.

Lemma for_down_inv {S : Type} (I : Z -> S -> Prop) (body : Z -> S -> option S) :
  forall (n : nat) (hi : Z) (s : S),
    I hi s ->
    (forall k s0, hi - Z.of_nat n < k <= hi -> I k s0 ->
                  exists s1, body k s0 = Some s1 /\ I (k - 1) s1) ->
    exists s', for_down n hi body s = Some s' /\ I (hi - Z.of_nat n) s'.
Proof.
  induction n as [|n IH]; intros hi s H0 Hstep.
  - exists s. simpl. rewrite Z.sub_0_r. auto.
  - destruct (Hstep hi s ltac:(lia) H0) as [s1 [E1 H1]].
    simpl for_down. rewrite E1. simpl bind.
    destruct (IH (hi - 1) s1 H1) as [s' [E' H']].
    + intros k s0 Hk. apply Hstep. lia.
    + exists s'. rewrite E'. split; [reflexivity|].
      now replace (hi - Z.of_nat (Datatypes.S n)) with (hi - 1 - Z.of_nat n) by lia.
Qed.

Lemma get_lt {T : Type} (v : list T) (k : nat) (d : T) :
  (k < length v)%nat -> get v (Z.of_nat k) = Some (nth k v d).
Proof.
  intros H. rewrite get_nat. now apply nth_error_nth_lt.
Qed.

Lemma get_None {T : Type} (v : list T) (k : nat) :
  (length v <= k)%nat -> get v (Z.of_nat k) = None.
Proof.
  intros H. rewrite get_nat. now apply nth_error_None.
Qed.

Lemma square_row (n : nat) (A : mat) (r : nat) :
  square n A -> (r < n)%nat -> length (nth r A []) = n.
Proof.
  intros [HL HF] Hr. rewrite Forall_forall in HF.
  apply HF. apply nth_In. lia.
Qed.

Lemma square_upd (n : nat) (A : mat) (r : nat) (row : vec) :
  square n A -> length row = n -> square n (upd A r row).
Proof.
  intros [HL HF] Hrow. split.
  - now rewrite length_upd.
  - now apply Forall_upd.
Qed.

Lemma square_ext (n : nat) (A : mat) :
  length A = n -> (forall r, (r < n)%nat -> length (nth r A []) = n) -> square n A.
Proof.
  intros HL H. split; [assumption|].
  rewrite Forall_forall. intros row Hin.
  destruct (In_nth _ _ [] Hin) as [r [Hr <-]]. apply H. lia.
Qed.

(** ** Elimination (lines 44-50) computes [eliminate_pure] *)

Lemma elim_row_upto_init (i : nat) (m : float) (p r : vec) :
  upd r i m = elim_row_upto i (S i) m p r.
Proof.
  apply nth_error_ext. intros c. unfold elim_row_upto.
  rewrite nth_error_upd, nth_error_imap. simpl.
  destruct (Nat.eqb_spec c i) as [->|Hc].
  - destruct (Nat.ltb_spec i (length r)) as [Hi|Hi]; simpl.
    + rewrite (nth_error_nth_lt r i 0%float Hi). simpl.
      destruct (Nat.ltb_spec i i); [lia|]. reflexivity.
    + apply nth_error_None in Hi. now rewrite Hi.
  - simpl. destruct (nth_error r c) as [a|]; [simpl|reflexivity].
    destruct (Nat.ltb_spec c i); [reflexivity|].
    destruct (Nat.ltb_spec c (S i)); [lia | reflexivity].
Qed.

Lemma elim_row_upto_step (i k : nat) (m : float) (p r : vec) :
  (i < k < length r)%nat ->
  upd (elim_row_upto i k m p r) k (nth k r 0 - m * nth k p 0)%float
  = elim_row_upto i (S k) m p r.
Proof.
  intros Hk. apply nth_error_ext. intros c. unfold elim_row_upto.
  rewrite nth_error_upd, !nth_error_imap, length_imap. simpl.
  destruct (Nat.eqb_spec c k) as [->|Hc].
  - destruct (Nat.ltb_spec k (length r)); [simpl|lia].
    rewrite (nth_error_nth_lt r k 0%float) by lia. simpl.
    destruct (Nat.ltb_spec k i); [lia|].
    destruct (Nat.eqb_spec k i); [lia|].
    destruct (Nat.ltb_spec k (S k)); [reflexivity|lia].
  - simpl. destruct (nth_error r c) as [a|]; [simpl|reflexivity].
    destruct (Nat.ltb_spec c i); [reflexivity|].
    destruct (Nat.eqb_spec c i); [reflexivity|].
    destruct (Nat.ltb_spec c k), (Nat.ltb_spec c (S k)); try reflexivity; lia.
Qed.

Lemma elim_row_upto_final (i : nat) (p r : vec) :
  elim_row_upto i (length r) (nth i r 0 / nth i p 0)%float p r = elim_row_pure i p r.
Proof.
  apply nth_error_ext. intros c. unfold elim_row_upto, elim_row_pure.
  rewrite !nth_error_imap. simpl.
  destruct (nth_error r c) as [a|] eqn:E; [simpl|reflexivity].
  assert (c < length r)%nat by (apply nth_error_Some; congruence).
  destruct (Nat.ltb_spec c (length r)); [reflexivity|lia].
Qed.

Lemma length_elim_row_pure (i : nat) (p r : vec) :
  length (elim_row_pure i p r) = length r.
Proof.
  unfold elim_row_pure. apply length_imap.
Qed.

Lemma elim_row_refines (n i j : nat) (A : mat) :
  square n A -> (i < j < n)%nat ->
  elim_row (Z.of_nat n) (Z.of_nat i) (Z.of_nat j) A
  = Some (upd A j (elim_row_pure i (nth i A []) (nth j A []))).
Proof.
  intros HA Hij. pose proof HA as [HL _].
  assert (Hrj := square_row n A j HA ltac:(lia)).
  assert (Hri := square_row n A i HA ltac:(lia)).
  set (rj := nth j A []) in *. set (p := nth i A []) in *.
  unfold elim_row.
  rewrite (get_lt A j []) by lia. cbn [bind]. fold rj.
  rewrite (get_lt rj i 0%float) by lia. cbn [bind].
  rewrite (get_lt A i []) by lia. cbn [bind]. fold p.
  rewrite (get_lt p i 0%float) by lia. cbn [bind].
  set (m := (nth i rj 0 / nth i p 0)%float).
  rewrite set_nat by lia. cbn [bind].
  rewrite set_nat by lia. cbn [bind].
  replace (Z.to_nat (Z.of_nat n - (Z.of_nat i + 1))) with (n - S i)%nat by lia.
  replace (Z.of_nat i + 1) with (Z.of_nat (S i)) by lia.
  destruct (for_up_inv
              (fun k A' => A' = upd A j (elim_row_upto i k m p rj))
              (elim_entry (Z.of_nat i) (Z.of_nat j))
              (n - S i)%nat (S i) (upd A j (upd rj i m)))
    as [A' [E HA']].
  - now rewrite elim_row_upto_init with (p := p).
  - intros k A0 Hk ->. eexists. split; [|reflexivity].
    unfold elim_entry.
    rewrite (get_lt _ j []) by (rewrite length_upd; lia). cbn [bind].
    rewrite nth_upd, Nat.eqb_refl.
    destruct (Nat.ltb_spec j (length A)); [|lia]. cbn [andb].
    assert (Hlen : length (elim_row_upto i k m p rj) = n)
      by (unfold elim_row_upto; now rewrite length_imap).
    rewrite (get_lt _ k 0%float) by lia. cbn [bind].
    rewrite (get_lt _ i 0%float) by lia. cbn [bind].
    rewrite (get_lt _ i []) by (rewrite length_upd; lia). cbn [bind].
    rewrite nth_upd.
    destruct (Nat.eqb_spec i j); [lia|]. cbn [andb].
    fold p. rewrite (get_lt p k 0%float) by lia. cbn [bind].
    rewrite set_nat by lia. cbn [bind].
    rewrite set_nat by (rewrite length_upd; lia).
    rewrite upd_upd. do 2 f_equal.
    rewrite <- (elim_row_upto_step i k m p rj) by lia.
    f_equal. unfold elim_row_upto.
    rewrite !(nth_imap _ _ _ 0%float) by lia.
    destruct (Nat.ltb_spec k i); [lia|].
    destruct (Nat.eqb_spec k i); [lia|].
    destruct (Nat.ltb_spec k k); [lia|].
    destruct (Nat.ltb_spec i i); [lia|].
    rewrite Nat.eqb_refl. reflexivity.
  - rewrite E, HA'. do 2 f_equal.
    replace (S i + (n - S i))%nat with (length rj) by lia.
    apply elim_row_upto_final.
Qed.

Lemma eliminate_upto_init (i : nat) (A : mat) : eliminate_upto i (S i) A = A.
Proof.
  apply nth_error_ext. intros r. unfold eliminate_upto.
  rewrite nth_error_imap. simpl.
  destruct (nth_error A r) as [row|]; [simpl|reflexivity].
  destruct (Nat.leb_spec r i); [reflexivity|].
  destruct (Nat.ltb_spec r (S i)); [lia|reflexivity].
Qed.

Lemma eliminate_upto_final (i : nat) (A : mat) :
  eliminate_upto i (length A) A = eliminate_pure i A.
Proof.
  apply nth_error_ext. intros r. unfold eliminate_upto, eliminate_pure.
  rewrite !nth_error_imap. simpl.
  destruct (nth_error A r) as [row|] eqn:E; [simpl|reflexivity].
  assert (r < length A)%nat by (apply nth_error_Some; congruence).
  destruct (Nat.ltb_spec r (length A)); [reflexivity|lia].
Qed.

Lemma square_eliminate_upto (n i j : nat) (A : mat) :
  square n A -> square n (eliminate_upto i j A).
Proof.
  intros HA. pose proof HA as [HL _].
  apply square_ext.
  - unfold eliminate_upto. now rewrite length_imap.
  - intros r Hr. unfold eliminate_upto.
    rewrite (nth_imap _ _ _ []) by lia.
    destruct (r <=? i)%nat; [now apply square_row|].
    destruct (r <? j)%nat; [|now apply square_row].
    rewrite length_elim_row_pure. now apply square_row.
Qed.

Lemma eliminate_refines (n i : nat) (A : mat) :
  square n A -> (i < n)%nat ->
  eliminate (Z.of_nat n) (Z.of_nat i) A = Some (eliminate_pure i A).
Proof.
  intros HA Hi. pose proof HA as [HL _].
  unfold eliminate.
  replace (Z.to_nat (Z.of_nat n - (Z.of_nat i + 1))) with (n - S i)%nat by lia.
  replace (Z.of_nat i + 1) with (Z.of_nat (S i)) by lia.
  destruct (for_up_inv
              (fun j A' => A' = eliminate_upto i j A)
              (elim_row (Z.of_nat n) (Z.of_nat i))
              (n - S i)%nat (S i) A)
    as [A' [E HA']].
  - now rewrite eliminate_upto_init.
  - intros j A0 Hj ->. eexists. split; [|reflexivity].
    rewrite (elim_row_refines n i j) by (auto using square_eliminate_upto; lia).
    f_equal. apply nth_error_ext. intros r.
    unfold eliminate_upto at 1 4.
    rewrite nth_error_upd, !nth_error_imap, length_imap. simpl.
    unfold eliminate_upto.
    rewrite !(nth_imap _ _ _ []) by lia.
    destruct (Nat.leb_spec i i); [|lia].
    destruct (Nat.leb_spec j i); [lia|].
    destruct (Nat.ltb_spec j j); [lia|].
    destruct (Nat.eqb_spec r j) as [->|Hr].
    + destruct (Nat.ltb_spec j (length A)); [simpl|lia].
      rewrite (nth_error_nth_lt A j []) by lia. simpl.
      destruct (Nat.leb_spec j i); [lia|].
      destruct (Nat.ltb_spec j (S j)); [reflexivity|lia].
    + simpl. destruct (nth_error A r) as [row|]; [simpl|reflexivity].
      destruct (Nat.leb_spec r i); [reflexivity|].
      destruct (Nat.ltb_spec r j), (Nat.ltb_spec r (S j)); try reflexivity; lia.
  - rewrite E, HA'. f_equal.
    replace (S i + (n - S i))%nat with (length A) by lia.
    apply eliminate_upto_final.
Qed.

Lemma square_eliminate_pure (n i : nat) (A : mat) :
  square n A -> square n (eliminate_pure i A).
Proof.
  intros HA. rewrite <- eliminate_upto_final.
  now apply square_eliminate_upto.
Qed.

(** ** IEEE 754 facts used by the proofs

    They are read off [SpecFloat], the specification the primitive
    operations satisfy. *)

Lemma SFcompare_refl (x : spec_float) :
  SFcompare x x = Some Eq \/ SFcompare x x = None.
Proof.
  destruct x as [[|]|[|]| |[|] m e]; simpl; auto;
    rewrite Z.compare_refl; fold (Pos.compare m m); rewrite Pos.compare_refl; auto.
Qed.

Ltac cmp_cases :=
  repeat match goal with
  | |- context [Z.compare ?a ?b] => destruct (Z.compare_spec a b)
  | H : context [Z.compare ?a ?b] |- _ => destruct (Z.compare_spec a b)
  | |- context [Pos.compare_cont Eq ?a ?b] =>
      fold (Pos.compare a b); destruct (Pos.compare_spec a b)
  | H : context [Pos.compare_cont Eq ?a ?b] |- _ =>
      fold (Pos.compare a b) in H; destruct (Pos.compare_spec a b)
  end.

Lemma SFcompare_lt_nlt (m a x : spec_float) :
  SFcompare m a = Some Lt ->
  SFcompare m x <> Some Lt ->
  SFcompare a x <> Some Lt /\ SFcompare a x <> Some Eq.
Proof.
  destruct m as [[|]|[|]| |[|] mm me], a as [[|]|[|]| |[|] am ae],
           x as [[|]|[|]| |[|] xm xe];
    simpl; intros H1 H2; try discriminate; try (exfalso; apply H2; reflexivity);
    try (split; discriminate);
    injection H1 as H1;
    cmp_cases; simpl in *; try discriminate; try (exfalso; apply H2; reflexivity);
    try (split; discriminate); try lia.
Qed.

Lemma SFcompare_lt_trans (a b c : spec_float) :
  SFcompare a b = Some Lt -> SFcompare b c = Some Lt -> SFcompare a c = Some Lt.
Proof.
  destruct a as [[|]|[|]| |[|] am ae], b as [[|]|[|]| |[|] bm be],
           c as [[|]|[|]| |[|] cm ce];
    simpl; intros H1 H2; try discriminate; try reflexivity;
    injection H1 as H1; injection H2 as H2;
    cmp_cases; simpl in *; try discriminate; try reflexivity; try lia.
Qed.

Lemma ltb_Lt (x y : float) :
  (x <? y)%float = true <-> SFcompare (Prim2SF x) (Prim2SF y) = Some Lt.
Proof.
  rewrite ltb_spec. unfold SFltb.
  destruct (SFcompare (Prim2SF x) (Prim2SF y)) as [[| |]|]; split; congruence.
Qed.

Lemma ltb_irrefl (x : float) : (x <? x)%float = false.
Proof.
  rewrite ltb_spec. unfold SFltb.
  destruct (SFcompare_refl (Prim2SF x)) as [-> | ->]; reflexivity.
Qed.

Lemma ltb_trans (a b c : float) :
  (a <? b)%float = true -> (b <? c)%float = true -> (a <? c)%float = true.
Proof.
  rewrite !ltb_Lt. apply SFcompare_lt_trans.
Qed.

Lemma ltb_nlt_leb (m a x : float) :
  (m <? a)%float = true -> (m <? x)%float = false -> (a <=? x)%float = false.
Proof.
  intros H1 H2. apply ltb_Lt in H1.
  assert (H2' : SFcompare (Prim2SF m) (Prim2SF x) <> Some Lt).
  { intros E. apply ltb_Lt in E. congruence. }
  destruct (SFcompare_lt_nlt _ _ _ H1 H2') as [N1 N2].
  rewrite leb_spec. unfold SFleb.
  destruct (SFcompare (Prim2SF a) (Prim2SF x)) as [[| |]|]; congruence.
Qed.

Lemma leb_false_ltb (x y : float) :
  (x <=? y)%float = false -> (x <? y)%float = false.
Proof.
  rewrite leb_spec, ltb_spec. unfold SFleb, SFltb.
  destruct (SFcompare (Prim2SF x) (Prim2SF y)) as [[| |]|]; congruence.
Qed.

Lemma Prim2SF_zero : Prim2SF 0 = S754_zero false.
Proof. reflexivity. Qed.


Lemma zero_or_nan_abs (e : float) :
  zero_or_nan e = true -> (0 <? abs e)%float = false.
Proof.
  unfold zero_or_nan. rewrite ltb_spec, abs_spec, Prim2SF_zero. unfold SFltb.
  destruct (Prim2SF e) as [[|]|[|]| |[|] m x]; simpl; congruence.
Qed.

(** A usable pivot is an infinity or a non-zero finite number. *)
Lemma pos_abs_cases (p : float) :
  (0 <? abs p)%float = true ->
  (exists s, Prim2SF p = S754_infinity s) \/ (exists s m e, Prim2SF p = S754_finite s m e).
Proof.
  rewrite ltb_spec, abs_spec, Prim2SF_zero. unfold SFltb.
  destruct (Prim2SF p) as [[|]|[|]| |[|] m e]; simpl; try discriminate; eauto.
Qed.

Lemma is_zero_zero_or_nan (x : float) : is_zero x = true -> zero_or_nan x = true.
Proof.
  unfold is_zero, zero_or_nan. destruct (Prim2SF x); congruence.
Qed.

Lemma zero_or_nan_div (e p : float) :
  zero_or_nan e = true -> (0 <? abs p)%float = true -> zero_or_nan (e / p) = true.
Proof.
  intros He Hp. unfold zero_or_nan in *. rewrite div_spec.
  destruct (pos_abs_cases p Hp) as [[s ->] | [s [m [x ->]]]];
    destruct (Prim2SF e) as [[|]|[|]| |[|] me ee]; try discriminate; reflexivity.
Qed.

Lemma zero_or_nan_mul (m a : float) :
  zero_or_nan m = true -> zero_or_nan (m * a) = true.
Proof.
  unfold zero_or_nan. rewrite mul_spec.
  destruct (Prim2SF m) as [[|]|[|]| |[|] mm me]; try discriminate;
    destruct (Prim2SF a) as [[|]|[|]| |[|] am ae]; reflexivity.
Qed.

Lemma zero_or_nan_sub (e t : float) :
  zero_or_nan e = true -> zero_or_nan t = true -> zero_or_nan (e - t) = true.
Proof.
  unfold zero_or_nan. rewrite sub_spec.
  destruct (Prim2SF e) as [[|]|[|]| |[|] em ee]; try discriminate;
    destruct (Prim2SF t) as [[|]|[|]| |[|] tm te]; try discriminate; reflexivity.
Qed.

Lemma SFdiv_self (s : bool) (m : positive) (e : Z) :
  SFdiv prec emax (S754_finite s m e) (S754_finite s m e)
  = S754_finite false 4503599627370496 (-52).
Proof.
  unfold SFdiv, SFdiv_core_binary.
  replace (Zdigits2 (Z.pos m) + e - (Zdigits2 (Z.pos m) + e)) with 0 by lia.
  replace (e - e) with 0 by lia.
  change (Z.min (fexp prec emax 0) 0) with (-53).
  change (0 - -53) with 53.
  cbv iota beta.
  assert (H : Z.div_eucl (Z.shiftl (Z.pos m) 53) (Z.pos m) = (9007199254740992, 0)).
  { rewrite Z.shiftl_mul_pow2 by lia.
    generalize (Z_div_mod (Z.pos m * 2 ^ 53) (Z.pos m) ltac:(lia)).
    destruct (Z.div_eucl (Z.pos m * 2 ^ 53) (Z.pos m)) as [q r].
    intros [H1 H2]. change (2 ^ 53) with 9007199254740992 in H1.
    assert (q = 9007199254740992) by nia. subst q. f_equal. lia. }
  rewrite H.
  assert (L : new_location (Z.pos m) 0 = loc_Exact).
  { unfold new_location. destruct (Z.even (Z.pos m)); reflexivity. }
  rewrite L. destruct s; reflexivity.
Qed.

Lemma SFmul_one_l (s : bool) (m : positive) (e : Z) :
  bounded prec emax m e = true ->
  SFmul prec emax (S754_finite false 4503599627370496 (-52)) (S754_finite s m e)
  = S754_finite s m e.
Proof.
  intros Hb. unfold bounded, canonical_mantissa in Hb.
  apply andb_prop in Hb. destruct Hb as [Hc He].
  apply Z.eqb_eq in Hc.
  unfold SFmul. simpl xorb. cbn [Pos.mul].
  unfold binary_round_aux.
  unfold shr_fexp at 1.
  unfold Zdigits2. cbn [digits2_pos].
  set (d := digits2_pos m) in *.
  match goal with
  | |- context [fexp prec emax ?a] => replace a with (Z.pos d + e) by lia
  end.
  rewrite Hc.
  replace (e - (-52 + e)) with 52 by lia.
  unfold shr_record_of_loc. unfold shr. cbn [iter_pos shr_1 orb].
  cbv iota beta. cbn [shr_m]. unfold loc_of_shr_record, round_nearest_even.
  replace (-52 + e + 52) with e by lia.
  unfold shr_fexp, Zdigits2. fold d. rewrite Hc.
  replace (e - e) with 0 by lia. cbn [shr shr_record_of_loc shr_m].
  rewrite He. reflexivity.
Qed.

Lemma SFsub_self_finite (s : bool) (m : positive) (e : Z) :
  SFsub prec emax (S754_finite s m e) (S754_finite s m e) = S754_zero false.
Proof.
  unfold SFsub. rewrite Z.min_id. unfold shl_align. rewrite Z.sub_diag.
  cbn [fst]. reflexivity.
Qed.

(** A row equal to the pivot row is cancelled exactly:
    [a - (p / p) * a] is a zero, or a NaN when [a] or [p] is not finite. *)
Lemma zero_or_nan_cancel (a p : float) :
  (0 <? abs p)%float = true -> zero_or_nan (a - (p / p) * a) = true.
Proof.
  intros Hp. unfold zero_or_nan.
  rewrite sub_spec, mul_spec, div_spec.
  pose proof (Prim2SF_valid a) as Va.
  destruct (pos_abs_cases p Hp) as [[s ->] | [s [m [x ->]]]].
  - destruct s; simpl; destruct (Prim2SF a) as [[|]|[|]| |[|] am ae]; reflexivity.
  - unfold SF64div. rewrite SFdiv_self.
    destruct (Prim2SF a) as [[|]|[|]| |sa am ae] eqn:Ea.
    + reflexivity.
    + reflexivity.
    + reflexivity.
    + reflexivity.
    + reflexivity.
    + unfold SF64mul. rewrite SFmul_one_l by exact Va.
      unfold SF64sub. now rewrite SFsub_self_finite.
Qed.

Lemma tol_pos : (0 <? tol)%float = true.
Proof. reflexivity. Qed.

(** ** The pivot scan (lines 22-30) *)

Lemma column_below_S (A : mat) (i k : nat) :
  (i <= k)%nat -> column_below A (S k) i = column_below A k i ++ [entry A k i].
Proof.
  intros H. unfold column_below.
  replace (S k - i)%nat with (S (k - i)) by lia.
  rewrite seq_S, map_app. simpl.
  now replace (i + (k - i))%nat with k by lia.
Qed.

Lemma get_entry (n : nat) (A : mat) (r c : nat) :
  square n A -> (r < n)%nat -> (c < n)%nat ->
  get (nth r A []) (Z.of_nat c) = Some (entry A r c).
Proof.
  intros HA Hr Hc. unfold entry.
  apply get_lt. rewrite (square_row n A r HA Hr). exact Hc.
Qed.

Lemma get_row (n : nat) (A : mat) (r : nat) :
  square n A -> (r < n)%nat -> get A (Z.of_nat r) = Some (nth r A []).
Proof.
  intros [HL _] Hr. apply get_lt. lia.
Qed.

Lemma scan_body_step (n : nat) (A : mat) (i k : nat) (maxA : float) (imax : nat) :
  square n A -> (i <= k < n)%nat ->
  scan_ok A i k maxA imax ->
  exists maxA' imax',
    scan_body A (Z.of_nat i) (Z.of_nat k) (maxA, Z.of_nat imax)
    = Some (maxA', Z.of_nat imax') /\
    scan_ok A i (S k) maxA' imax'.
Proof.
  intros HA Hk [Hlo Hhi Hfold Hup Hwhich].
  unfold scan_body.
  rewrite (get_row n) by (auto; lia). cbn [bind].
  rewrite (get_entry n) by (auto; lia). cbn [bind].
  set (absA := abs (entry A k i)).
  assert (Hf : fold_left fmax (map abs (column_below A (S k) i)) 0%float
               = fmax maxA absA).
  { rewrite column_below_S by lia. rewrite map_app, fold_left_app.
    simpl. now rewrite <- Hfold. }
  destruct (maxA <? absA)%float eqn:Hlt.
  - exists absA, k. split; [reflexivity|].
    constructor.
    + lia.
    + right. lia.
    + rewrite Hf. unfold fmax. now rewrite Hlt.
    + intros r Hr. destruct (Nat.eq_dec r k) as [->|Hne].
      * apply ltb_irrefl.
      * apply leb_false_ltb. apply (ltb_nlt_leb maxA); [assumption|].
        apply Hup. lia.
    + right. split; [reflexivity|]. split.
      * destruct Hwhich as [[-> _] | [_ [Hpos _]]]; [assumption|].
        now apply (ltb_trans _ maxA).
      * intros r Hr. apply (ltb_nlt_leb maxA); [assumption|].
        apply Hup. lia.
  - exists maxA, imax. split; [reflexivity|].
    constructor.
    + assumption.
    + destruct Hhi; [now left | right; lia].
    + rewrite Hf. unfold fmax. now rewrite Hlt.
    + intros r Hr. destruct (Nat.eq_dec r k) as [->|Hne]; [assumption|].
      apply Hup. lia.
    + assumption.
Qed.

Lemma find_pivot_spec (n : nat) (A : mat) (i : nat) :
  square n A -> (i < n)%nat ->
  exists maxA imax,
    find_pivot A (Z.of_nat n) (Z.of_nat i) = Some (maxA, Z.of_nat imax) /\
    scan_ok A i n maxA imax /\ (imax < n)%nat.
Proof.
  intros HA Hi. unfold find_pivot.
  replace (Z.to_nat (Z.of_nat n - Z.of_nat i)) with (n - i)%nat by lia.
  destruct (for_up_inv
              (fun k st => exists imax, st = (fst st, Z.of_nat imax) /\
                                        scan_ok A i k (fst st) imax)
              (scan_body A (Z.of_nat i)) (n - i)%nat i (0%float, Z.of_nat i))
    as [[maxA z] [E [imax [Ez Hok]]]].
  - exists i. split; [reflexivity|]. constructor.
    + lia.
    + now left.
    + unfold column_below. now rewrite Nat.sub_diag.
    + intros r Hr. lia.
    + now left.
  - intros k [m z] Hk [imax [Ez Hok]]. simpl in Ez, Hok.
    injection Ez as Ez. subst z.
    destruct (scan_body_step n A i k m imax HA ltac:(lia) Hok)
      as [m' [imax' [E' Hok']]].
    exists (m', Z.of_nat imax'). split; [assumption|].
    exists imax'. split; [reflexivity | assumption].
  - simpl in Ez, Hok. injection Ez as Ez. subst z.
    replace (i + (n - i))%nat with n in Hok by lia.
    exists maxA, imax. split; [assumption|]. split; [assumption|].
    destruct (scan_hi _ _ _ _ _ Hok); lia.
Qed.

Lemma scan_ok_col_abs_max (A : mat) (n i : nat) (maxA : float) (imax : nat) :
  scan_ok A i n maxA imax -> maxA = col_abs_max A n i.
Proof.
  intros H. unfold col_abs_max. apply (scan_fold _ _ _ _ _ H).
Qed.

(** ** The permutation vector and the exchange (lines 17-18, 34-42) *)

Lemma wrap_small (z : Z) : 0 <= z <= uint_max -> wrap z = z.
Proof.
  intros H. unfold wrap, uint_max in *. apply Z.mod_small. lia.
Qed.

Lemma wrap_succ (z : Z) : wrap (wrap z + 1) = wrap (z + 1).
Proof.
  unfold wrap. now rewrite Z.add_mod_idemp_l.
Qed.

Lemma wrap_range (z : Z) : 0 <= wrap z <= uint_max.
Proof.
  unfold wrap, uint_max.
  pose proof (Z.mod_pos_bound z 4294967296 ltac:(lia)). lia.
Qed.

Lemma nth_error_iota (n c : nat) :
  (c < n)%nat -> nth_error (iota n) c = Some (Z.of_nat c).
Proof.
  intros H. unfold iota. rewrite nth_error_map, nth_error_seq.
  destruct (Nat.ltb_spec c n); [reflexivity | lia].
Qed.

Lemma length_iota (n : nat) : length (iota n) = n.
Proof.
  unfold iota. now rewrite length_map, length_seq.
Qed.

Lemma iota_ext (m : nat) (P : list Z) :
  length P = m ->
  (forall c, (c < m)%nat -> nth_error P c = Some (Z.of_nat c)) ->
  P = iota m.
Proof.
  intros HL H. apply nth_error_ext. intros c.
  destruct (Nat.lt_ge_cases c m) as [Hc|Hc].
  - now rewrite H, nth_error_iota.
  - transitivity (@None Z).
    + apply nth_error_None. lia.
    + symmetry. apply nth_error_None. rewrite length_iota. lia.
Qed.

Lemma init_P_spec (n : nat) (P : list Z) :
  Z.of_nat n < uint_max -> length P = S n ->
  init_P (Z.of_nat n) P = Some (iota (S n)).
Proof.
  intros Hn HL. unfold init_P.
  destruct (Z.eqb_spec (Z.of_nat n) uint_max); [lia|].
  replace (Z.to_nat (Z.of_nat n + 1)) with (S n) by lia.
  destruct (for_up_inv
              (fun k P' => length P' = S n /\
                           forall c, (c < k)%nat -> nth_error P' c = Some (Z.of_nat c))
              (fun i P' => set P' i i) (S n) 0%nat P)
    as [P' [E [HL' H']]].
  - split; [assumption|]. intros c Hc. lia.
  - intros k P0 Hk [HL0 H0]. exists (upd P0 k (Z.of_nat k)).
    split; [apply set_nat; lia|]. split.
    + now rewrite length_upd.
    + intros c Hc. destruct (Nat.eq_dec c k) as [->|Hne].
      * apply nth_error_upd_same. lia.
      * rewrite nth_error_upd_other by assumption. apply H0. lia.
  - change (Z.of_nat 0) with 0 in E. rewrite E. f_equal.
    apply iota_ext; assumption.
Qed.

Lemma lu_ok_start (n : nat) (A : list (list float)) :
  Z.of_nat n < uint_max -> square n A -> lu_ok n (mk_lu A (iota (S n)) []).
Proof.
  intros Hn HA. constructor; cbn [lu_A lu_P lu_swaps length].
  - assumption.
  - apply length_iota.
  - intros c Hc. exists c. split; [|assumption]. apply nth_error_iota. lia.
  - rewrite nth_error_iota by lia. f_equal.
    rewrite Z.add_0_r. symmetry. apply wrap_small. lia.
Qed.

Lemma length_swap_rows {T : Type} (d : T) (i m : nat) (l : list T) :
  length (swap_rows d i m l) = length l.
Proof.
  unfold swap_rows. now rewrite !length_upd.
Qed.

Lemma nth_swap_rows {T : Type} (d : T) (i m c : nat) (l : list T) :
  (i < length l)%nat -> (m < length l)%nat ->
  nth c (swap_rows d i m l) d =
  if (c =? m)%nat then nth i l d else if (c =? i)%nat then nth m l d else nth c l d.
Proof.
  intros Hi Hm. unfold swap_rows. rewrite !nth_upd, length_upd.
  destruct (Nat.ltb_spec m (length l)); [|lia].
  destruct (Nat.ltb_spec i (length l)); [|lia].
  now rewrite !andb_true_r.
Qed.

Lemma square_swap_rows (n i m : nat) (A : list (list float)) :
  square n A -> (i < n)%nat -> (m < n)%nat -> square n (swap_rows [] i m A).
Proof.
  intros HA Hi Hm. unfold swap_rows.
  apply square_upd; [apply square_upd|]; auto using square_row.
Qed.

Lemma exchange_spec (n i imax : nat) (s : lu_state) :
  lu_ok n s -> (i < n)%nat -> (imax < n)%nat ->
  exchange (Z.of_nat n) (Z.of_nat i) (Z.of_nat imax) s
  = Some (exchange_pure n i imax s).
Proof.
  intros [[HL HF] HP _ _] Hi Hm. unfold exchange, exchange_pure.
  rewrite (get_lt (lu_P s) i 0) by lia. cbn [bind].
  rewrite (get_lt (lu_P s) imax 0) by lia. cbn [bind].
  rewrite set_nat by lia. cbn [bind].
  rewrite set_nat by (rewrite length_upd; lia). cbn [bind].
  rewrite (get_lt (lu_A s) i []) by lia. cbn [bind].
  rewrite (get_lt (lu_A s) imax []) by lia. cbn [bind].
  rewrite set_nat by lia. cbn [bind].
  rewrite set_nat by (rewrite length_upd; lia). cbn [bind].
  rewrite (get_lt _ n 0) by (rewrite !length_upd; lia). cbn [bind].
  rewrite set_nat by (rewrite !length_upd; lia). cbn [bind].
  unfold swap_rows. rewrite !nth_upd.
  destruct (Nat.eqb_spec n imax); [lia|].
  destruct (Nat.eqb_spec n i); [lia|]. reflexivity.
Qed.

Lemma lu_ok_exchange (n i imax : nat) (s : lu_state) :
  lu_ok n s -> (i < n)%nat -> (imax < n)%nat -> lu_ok n (exchange_pure n i imax s).
Proof.
  intros [HA HP HR HC] Hi Hm. unfold exchange_pure. constructor; cbn [lu_A lu_P lu_swaps length].
  - now apply square_swap_rows.
  - now rewrite length_upd, length_swap_rows.
  - intros c Hc. rewrite nth_error_upd_other by lia.
    rewrite (nth_error_nth_lt _ c 0) by (rewrite length_swap_rows; lia).
    rewrite nth_swap_rows by lia.
    assert (Hnth : forall k, (k < n)%nat ->
                             exists v, nth k (lu_P s) 0 = Z.of_nat v /\ (v < n)%nat).
    { intros k Hk. destruct (HR k Hk) as [v [E Hv]]. exists v. split; [|assumption].
      now apply nth_error_nth. }
    destruct (c =? imax)%nat; [|destruct (c =? i)%nat].
    + destruct (Hnth i Hi) as [v [-> Hv]]. eauto.
    + destruct (Hnth imax Hm) as [v [-> Hv]]. eauto.
    + destruct (Hnth c Hc) as [v [-> Hv]]. eauto.
  - rewrite nth_error_upd_same by (rewrite length_swap_rows; lia).
    f_equal. rewrite (nth_error_nth _ _ 0 HC). rewrite wrap_succ. f_equal. lia.
Qed.

Lemma lu_ok_after_pivot (n i imax : nat) (s : lu_state) :
  lu_ok n s -> (i < n)%nat -> (imax < n)%nat -> lu_ok n (after_pivot n i imax s).
Proof.
  intros Hs Hi Hm. unfold after_pivot.
  assert (H1 : lu_ok n (if (imax =? i)%nat then s else exchange_pure n i imax s)).
  { destruct (imax =? i)%nat; [assumption | now apply lu_ok_exchange]. }
  destruct H1 as [HA HP HR HC]. constructor; cbn [lu_A lu_P lu_swaps]; auto.
  now apply square_eliminate_pure.
Qed.

(** One turn of the loop of line 20 on a well-formed state. *)
Lemma pivot_step_spec (n : nat) (Tol : float) (i : nat) (s : lu_state) :
  lu_ok n s -> (i < n)%nat ->
  exists maxA imax,
    find_pivot (lu_A s) (Z.of_nat n) (Z.of_nat i) = Some (maxA, Z.of_nat imax) /\
    scan_ok (lu_A s) i n maxA imax /\ (imax < n)%nat /\
    pivot_step (Z.of_nat n) Tol (Z.of_nat i) s
    = Some (if (maxA <? Tol)%float then Degenerate
            else Continue (after_pivot n i imax s)).
Proof.
  intros Hs Hi.
  destruct (find_pivot_spec n (lu_A s) i (ok_square _ _ Hs) Hi)
    as [maxA [imax [E [Hok Hm]]]].
  exists maxA, imax.
  split; [assumption|]. split; [assumption|]. split; [assumption|].
  unfold pivot_step. rewrite E. cbn [bind].
  destruct (maxA <? Tol)%float; [reflexivity|].
  unfold after_pivot.
  destruct (Nat.eqb_spec imax i) as [->|Hne].
  - rewrite Z.eqb_refl. cbn [bind].
    rewrite (eliminate_refines n) by (auto using ok_square). reflexivity.
  - destruct (Z.eqb_spec (Z.of_nat imax) (Z.of_nat i)); [lia|].
    rewrite exchange_spec by assumption. cbn [bind].
    rewrite (eliminate_refines n); [reflexivity | | assumption].
    apply (ok_square _ _ (lu_ok_exchange n i imax s Hs Hi Hm)).
Qed.

(** ** The loop of line 20 *)

Lemma reaches_fun (n : nat) (Tol : float) (A : list (list float)) (i : nat) (s1 s2 : lu_state) :
  reaches n Tol A i s1 -> reaches n Tol A i s2 -> s1 = s2.
Proof.
  intros H1. revert s2.
  induction H1 as [|i s s' Hr IH Hi Hstep]; intros s2 H2.
  - inversion H2. reflexivity.
  - inversion H2 as [|i0 t t' Hr2 Hi2 Hstep2]; subst.
    rewrite (IH t Hr2) in Hstep. congruence.
Qed.

Lemma reaches_ok (n : nat) (Tol : float) (A : list (list float)) (i : nat) (s : lu_state) :
  Z.of_nat n < uint_max -> square n A ->
  reaches n Tol A i s -> lu_ok n s /\ (i <= n)%nat.
Proof.
  intros Hn HA H.
  induction H as [|i s s' Hr [IH Hle] Hi Hstep].
  - split; [now apply lu_ok_start | lia].
  - split; [|lia].
    destruct (pivot_step_spec n Tol i s IH Hi) as [maxA [imax [_ [_ [Hm E]]]]].
    rewrite E in Hstep. destruct (maxA <? Tol)%float; [discriminate|].
    injection Hstep as <-. now apply lu_ok_after_pivot.
Qed.

Lemma pivot_loop_spec (n : nat) (Tol : float) (A0 : list (list float)) :
  Z.of_nat n < uint_max -> square n A0 ->
  forall (m i : nat) (s : lu_state),
    (i + m = n)%nat ->
    reaches n Tol A0 i s ->
    (forall j sj, (j < i)%nat -> reaches n Tol A0 j sj ->
                  (col_abs_max (lu_A sj) n j <? Tol)%float = false) ->
    exists r s',
      pivot_loop m (Z.of_nat n) Tol (Z.of_nat i) s = Some (r, s') /\
      ((r = 1 /\ reaches n Tol A0 n s' /\ ~ degenerate_pivot n Tol A0) \/
       (r = 0 /\ degenerate_pivot n Tol A0 /\
        exists j, (j < n)%nat /\ reaches n Tol A0 j s')).
Proof.
  intros Hn HA0. induction m as [|m IH]; intros i s Him Hr Hpast.
  - exists 1, s. split; [reflexivity|]. left.
    assert (Ei : i = n) by lia. subst i.
    split; [reflexivity|]. split; [assumption|].
    intros [j [sj [Hj [Hlt Ht]]]].
    rewrite (Hpast j sj) in Ht; [discriminate | lia | assumption].
  - destruct (reaches_ok n Tol A0 i s Hn HA0 Hr) as [Hok _].
    destruct (pivot_step_spec n Tol i s Hok ltac:(lia))
      as [maxA [imax [_ [Hscan [Hm E]]]]].
    pose proof (scan_ok_col_abs_max _ _ _ _ _ Hscan) as Em.
    rewrite Em in E. clear Hscan Em.
    cbn [pivot_loop]. rewrite E. cbn [bind].
    destruct (col_abs_max (lu_A s) n i <? Tol)%float eqn:Ht.
    + exists 0, s. split; [reflexivity|]. right.
      split; [reflexivity|]. split.
      * exists i, s. repeat split; [assumption | lia | assumption].
      * exists i. split; [lia | assumption].
    + replace (Z.of_nat i + 1) with (Z.of_nat (S i)) by lia.
      apply IH.
      * lia.
      * apply (reaches_next n Tol A0 i s); [assumption | lia | ].
        rewrite E. reflexivity.
      * intros j sj Hj Hrj. destruct (Nat.eq_dec j i) as [->|Hne].
        -- now rewrite (reaches_fun n Tol A0 i sj s Hrj Hr).
        -- apply Hpast; [lia | assumption].
Qed.

Lemma LUPDecompose_run_spec (n : nat) (Tol : float) (A : list (list float)) (P : list Z) :
  Z.of_nat n < uint_max -> square n A -> length P = S n ->
  exists r s,
    LUPDecompose_run A (Z.of_nat n) Tol P = Some (r, s) /\
    ((r = 1 /\ reaches n Tol A n s /\ ~ degenerate_pivot n Tol A) \/
     (r = 0 /\ degenerate_pivot n Tol A /\
      exists j, (j < n)%nat /\ reaches n Tol A j s)).
Proof.
  intros Hn HA HP. unfold LUPDecompose_run.
  rewrite init_P_spec by assumption. cbn [bind].
  rewrite Nat2Z.id. change 0 with (Z.of_nat 0).
  apply pivot_loop_spec; try assumption.
  - reflexivity.
  - constructor.
  - intros j sj Hj. lia.
Qed.

(** ** Substitution (lines 67-81) *)

Lemma subst_entry_spec (n : nat) (A : list (list float)) (i k : nat) (x : list float) :
  square n A -> (i < n)%nat -> (k < n)%nat -> (n <= length x)%nat ->
  subst_entry A (Z.of_nat i) (Z.of_nat k) x
  = Some (upd x i (nth i x 0 - entry A i k * nth k x 0)%float).
Proof.
  intros HA Hi Hk Hx. unfold subst_entry.
  rewrite (get_lt x i 0%float) by lia. cbn [bind].
  rewrite (get_row n) by assumption. cbn [bind].
  rewrite (get_entry n) by assumption. cbn [bind].
  rewrite (get_lt x k 0%float) by lia. cbn [bind].
  apply set_nat. lia.
Qed.

Lemma subst_loop_total (n : nat) (A : list (list float)) (i lo cnt : nat) (x : list float) :
  square n A -> (i < n)%nat -> (lo + cnt <= n)%nat -> (n <= length x)%nat ->
  exists x', for_up cnt (Z.of_nat lo) (subst_entry A (Z.of_nat i)) x = Some x' /\
             length x' = length x.
Proof.
  intros HA Hi Hc Hx.
  destruct (for_up_inv (fun _ x' => length x' = length x)
                       (subst_entry A (Z.of_nat i)) cnt lo x eq_refl)
    as [x' [E HL]].
  - intros k x0 Hk HL0.
    rewrite (subst_entry_spec n) by (auto; lia).
    eexists. split; [reflexivity|]. now rewrite length_upd.
  - eauto.
Qed.

Lemma forward_row_total (n : nat) (s : lu_state) (b : list float) (i : nat) (x : list float) :
  lu_ok n s -> (i < n)%nat -> (n <= length b)%nat -> (n <= length x)%nat ->
  exists x', forward_row (lu_A s) b (lu_P s) (Z.of_nat i) x = Some x' /\
             length x' = length x.
Proof.
  intros Hs Hi Hb Hx. unfold forward_row.
  destruct (ok_range _ _ Hs i Hi) as [v [Ev Hv]].
  rewrite get_nat, Ev. cbn [bind].
  rewrite (get_lt b v 0%float) by lia. cbn [bind].
  rewrite set_nat by lia. cbn [bind].
  rewrite Nat2Z.id. change 0 with (Z.of_nat 0).
  destruct (subst_loop_total n (lu_A s) i 0 i (upd x i (nth v b 0%float)))
    as [x' [E HL]]; try assumption.
  - apply (ok_square _ _ Hs).
  - lia.
  - rewrite length_upd. lia.
  - exists x'. split; [assumption|]. now rewrite HL, length_upd.
Qed.

Lemma backward_row_total (n : nat) (A : list (list float)) (i : nat) (x : list float) :
  square n A -> (i < n)%nat -> (n <= length x)%nat ->
  exists x', backward_row A (Z.of_nat n) (Z.of_nat i) x = Some x' /\
             length x' = length x.
Proof.
  intros HA Hi Hx. unfold backward_row.
  replace (Z.to_nat (Z.of_nat n - (Z.of_nat i + 1))) with (n - S i)%nat by lia.
  replace (Z.of_nat i + 1) with (Z.of_nat (S i)) by lia.
  destruct (subst_loop_total n A i (S i) (n - S i) x) as [x1 [E HL]];
    try assumption; [lia|].
  rewrite E. cbn [bind].
  rewrite (get_lt x1 i 0%float) by lia. cbn [bind].
  rewrite (get_row n) by assumption. cbn [bind].
  rewrite (get_entry n) by assumption. cbn [bind].
  rewrite set_nat by lia.
  eexists. split; [reflexivity|]. now rewrite length_upd.
Qed.

(** The start and the length of the loop of line 75. *)
Lemma backward_bounds (n : nat) :
  Z.of_nat n < uint_max ->
  let i0 := to_int (wrap (Z.of_nat n - 1)) in
  i0 < Z.of_nat n.
Proof.
  intros Hn. unfold to_int, wrap, uint_max in *.
  destruct n as [|n].
  - simpl. lia.
  - rewrite Z.mod_small by lia.
    destruct (Z.ltb_spec (Z.of_nat (S n) - 1) 2147483648); lia.
Qed.

Lemma substitution_total (n : nat) (s : lu_state) (b x : list float) :
  Z.of_nat n < uint_max -> lu_ok n s ->
  (n <= length b)%nat -> (n <= length x)%nat ->
  exists x1 x2,
    for_up (Z.to_nat (Z.of_nat n)) 0 (forward_row (lu_A s) b (lu_P s)) x = Some x1 /\
    for_down (Z.to_nat (to_int (wrap (Z.of_nat n - 1)) + 1))
             (to_int (wrap (Z.of_nat n - 1)))
             (backward_row (lu_A s) (Z.of_nat n)) x1 = Some x2 /\
    length x2 = length x.
Proof.
  intros Hn Hs Hb Hx. rewrite Nat2Z.id. change 0 with (Z.of_nat 0).
  destruct (for_up_inv (fun _ x' => length x' = length x)
                       (forward_row (lu_A s) b (lu_P s)) n 0 x eq_refl)
    as [x1 [E1 HL1]].
  { intros k x0 Hk HL0.
    destruct (forward_row_total n s b k x0 Hs ltac:(lia) Hb ltac:(lia))
      as [x' [E HL]].
    exists x'. split; [assumption | congruence]. }
  exists x1. rewrite E1.
  pose proof (backward_bounds n Hn) as Hb0. cbv zeta in Hb0.
  set (i0 := to_int (wrap (Z.of_nat n - 1))) in *.
  destruct (for_down_inv (fun _ x' => length x' = length x)
                         (backward_row (lu_A s) (Z.of_nat n))
                         (Z.to_nat (i0 + 1)) i0 x1 HL1)
    as [x2 [E2 HL2]].
  { intros k x0 Hk HL0.
    destruct (backward_row_total n (lu_A s) (Z.to_nat k) x0
                                 (ok_square _ _ Hs) ltac:(lia) ltac:(lia))
      as [x' [E HL]].
    rewrite Z2Nat.id in E by lia.
    exists x'. split; [assumption | congruence]. }
  exists x2. auto.
Qed.

(** ** The sums of the normal equations (lines 132-144) *)

Lemma nth_error_Some_lt {T : Type} (l : list T) (c : nat) (a : T) :
  nth_error l c = Some a -> (c < length l)%nat.
Proof.
  intros E. apply nth_error_Some. congruence.
Qed.

Lemma imap_id_ext {T : Type} (f : nat -> T -> T) (l : list T) :
  (forall c a, nth_error l c = Some a -> f c a = a) -> imap f 0 l = l.
Proof.
  intros H. apply nth_error_ext. intros c. rewrite nth_error_imap. simpl.
  destruct (nth_error l c) as [a|] eqn:E; [simpl|reflexivity].
  now rewrite (H c a E).
Qed.

Lemma imap_ext {T U : Type} (f g : nat -> T -> U) (l : list T) :
  (forall c a, nth_error l c = Some a -> f c a = g c a) -> imap f 0 l = imap g 0 l.
Proof.
  intros H. apply nth_error_ext. intros c. rewrite !nth_error_imap. simpl.
  destruct (nth_error l c) as [a|] eqn:E; [simpl|reflexivity].
  now rewrite (H c a E).
Qed.

Lemma length_imap_upto {T : Type} (g : nat -> T -> T) (j : nat) (l : list T) :
  length (imap_upto g j l) = length l.
Proof.
  apply length_imap.
Qed.

Lemma imap_upto_0 {T : Type} (g : nat -> T -> T) (l : list T) :
  imap_upto g 0 l = l.
Proof.
  apply imap_id_ext. reflexivity.
Qed.

Lemma imap_upto_all {T : Type} (g : nat -> T -> T) (j : nat) (l : list T) :
  (length l <= j)%nat -> imap_upto g j l = imap g 0 l.
Proof.
  intros H. apply imap_ext. intros c a E.
  apply nth_error_Some_lt in E.
  destruct (Nat.ltb_spec c j); [reflexivity | lia].
Qed.

Lemma nth_imap_upto {T : Type} (g : nat -> T -> T) (j : nat) (l : list T) (d : T) :
  (j < length l)%nat -> nth j (imap_upto g j l) d = nth j l d.
Proof.
  intros H. unfold imap_upto. rewrite (nth_imap _ _ _ d) by assumption.
  destruct (Nat.ltb_spec j j); [lia | reflexivity].
Qed.

Lemma imap_upto_step {T : Type} (g : nat -> T -> T) (j : nat) (l : list T) (d : T) :
  (j < length l)%nat ->
  upd (imap_upto g j l) j (g j (nth j l d)) = imap_upto g (S j) l.
Proof.
  intros H. apply nth_error_ext. intros c. unfold imap_upto.
  rewrite nth_error_upd, !nth_error_imap, length_imap. cbn [Nat.add].
  destruct (Nat.eqb_spec c j) as [->|Hne].
  - destruct (Nat.ltb_spec j (length l)); [|lia]. cbn [andb].
    rewrite (nth_error_nth_lt l j d) by lia. cbn [option_map].
    destruct (Nat.ltb_spec j (S j)); [reflexivity | lia].
  - cbn [andb]. destruct (nth_error l c) as [v|]; [|reflexivity].
    cbn [option_map].
    destruct (Nat.ltb_spec c j), (Nat.ltb_spec c (S j)); try reflexivity; lia.
Qed.

Lemma imap_upto_beyond {T : Type} (g : nat -> T -> T) (j : nat) (l : list T) :
  (length l <= j)%nat -> imap_upto g j l = imap_upto g (S j) l.
Proof.
  intros H. rewrite !imap_upto_all by lia. reflexivity.
Qed.

Lemma power_body_step (inX inY : list float) (nc i j : nat)
      (XY xxSum : list float) :
  (i < length inX)%nat -> (i < length inY)%nat ->
  length XY = nc -> (j < length xxSum)%nat ->
  let xy := (nth i inX 0%float, nth i inY 0%float) in
  power_body inX inY (Z.of_nat nc) (Z.of_nat i) (Z.of_nat j)
             (imap_upto (add_XY xy) j XY, imap_upto (add_xxSum xy) j xxSum,
              running_power (fst xy) j)
  = Some (imap_upto (add_XY xy) (S j) XY, imap_upto (add_xxSum xy) (S j) xxSum,
          running_power (fst xy) (S j)).
Proof.
  intros HiX HiY HXY Hj xy. unfold power_body.
  assert (EXY : (if Z.of_nat j <? Z.of_nat nc
                 then yi <- get inY (Z.of_nat i) ;;
                      v <- get (imap_upto (add_XY xy) j XY) (Z.of_nat j) ;;
                      set (imap_upto (add_XY xy) j XY) (Z.of_nat j)
                          (v + yi * running_power (fst xy) j)%float
                 else Some (imap_upto (add_XY xy) j XY))
                = Some (imap_upto (add_XY xy) (S j) XY)).
  { destruct (Z.ltb_spec (Z.of_nat j) (Z.of_nat nc)) as [Hlt|Hge].
    - rewrite (get_lt inY i 0%float) by assumption. cbn [bind].
      rewrite (get_lt _ j 0%float) by (rewrite length_imap_upto; lia). cbn [bind].
      rewrite set_nat by (rewrite length_imap_upto; lia). f_equal.
      rewrite nth_imap_upto by lia.
      now rewrite <- (imap_upto_step (add_XY xy) j XY 0%float) by lia.
    - f_equal. apply imap_upto_beyond. lia. }
  rewrite EXY. cbn [bind].
  rewrite (get_lt _ j 0%float) by (rewrite length_imap_upto; lia). cbn [bind].
  rewrite set_nat by (rewrite length_imap_upto; lia). cbn [bind].
  rewrite (get_lt inX i 0%float) by assumption. cbn [bind].
  rewrite nth_imap_upto by lia.
  now rewrite <- (imap_upto_step (add_xxSum xy) j xxSum 0%float) by lia.
Qed.

Lemma sample_body_spec (inX inY : list float) (nc np i : nat) (XY xxSum : list float) :
  (i < length inX)%nat -> (i < length inY)%nat ->
  length XY = nc -> length xxSum = np -> (nc <= np)%nat ->
  sample_body inX inY (Z.of_nat nc) (Z.of_nat np) (Z.of_nat i) (XY, xxSum)
  = Some (add_sample (XY, xxSum) (nth i inX 0%float, nth i inY 0%float)).
Proof.
  intros HiX HiY HXY HS Hle. unfold sample_body.
  set (xy := (nth i inX 0%float, nth i inY 0%float)).
  rewrite Nat2Z.id. change 0 with (Z.of_nat 0).
  destruct (for_up_inv
              (fun j st => st = (imap_upto (add_XY xy) j XY,
                                 imap_upto (add_xxSum xy) j xxSum,
                                 running_power (fst xy) j))
              (power_body inX inY (Z.of_nat nc) (Z.of_nat i)) np 0
              (XY, xxSum, 1%float))
    as [st [E Hst]].
  - now rewrite !imap_upto_0.
  - intros j st Hj ->. eexists. split; [|reflexivity].
    apply power_body_step; try assumption. lia.
  - rewrite E, Hst. cbn [bind Nat.add]. unfold add_sample. cbn [fst snd].
    rewrite !imap_upto_all by lia. reflexivity.
Qed.

Lemma length_add_sample (st : list float * list float) (xy : float * float) :
  length (fst (add_sample st xy)) = length (fst st) /\
  length (snd (add_sample st xy)) = length (snd st).
Proof.
  unfold add_sample. cbn [fst snd]. now rewrite !length_imap.
Qed.

Lemma length_fold_add_sample (l : list (float * float)) (st : list float * list float) :
  length (fst (fold_left add_sample l st)) = length (fst st) /\
  length (snd (fold_left add_sample l st)) = length (snd st).
Proof.
  revert st. induction l as [|xy l IH]; intros st; [split; reflexivity|].
  cbn [fold_left]. destruct (IH (add_sample st xy)) as [-> ->].
  apply length_add_sample.
Qed.

Lemma firstn_S_nth {T : Type} (l : list T) (i : nat) (d : T) :
  (i < length l)%nat -> firstn (S i) l = firstn i l ++ [nth i l d].
Proof.
  revert i. induction l as [|h t IH]; intros i H; [simpl in H; lia|].
  destruct i as [|i]; [reflexivity|].
  simpl in H. rewrite !firstn_cons. cbn [nth]. rewrite (IH i) by lia. reflexivity.
Qed.

Lemma accumulate_spec (inX inY : list float) (nc np : nat) :
  length inX = length inY -> Z.of_nat (length inX) <= uint_max -> (nc <= np)%nat ->
  accumulate inX inY (Z.of_nat nc) (Z.of_nat np)
  = Some (fold_left add_sample (combine inX inY)
                    (repeat 0%float nc, repeat 0%float np)).
Proof.
  intros HL Hfit Hle. unfold accumulate.
  rewrite wrap_small by lia. rewrite !Nat2Z.id.
  set (st0 := (repeat 0%float nc, repeat 0%float np)).
  change 0 with (Z.of_nat 0).
  destruct (for_up_inv
              (fun i st => st = fold_left add_sample (firstn i (combine inX inY)) st0)
              (sample_body inX inY (Z.of_nat nc) (Z.of_nat np)) (length inX) 0 st0)
    as [st [E Hst]].
  - reflexivity.
  - intros i st Hi ->. eexists. split; [|reflexivity].
    destruct (length_fold_add_sample (firstn i (combine inX inY)) st0) as [L1 L2].
    destruct (fold_left add_sample (firstn i (combine inX inY)) st0) as [XY xxSum] eqn:Est.
    cbn [fst snd] in L1, L2. unfold st0 in L1, L2. cbn [fst snd] in L1, L2.
    rewrite repeat_length in L1, L2.
    rewrite (sample_body_spec inX inY nc np i XY xxSum) by lia.
    f_equal.
    rewrite (firstn_S_nth _ i (0%float, 0%float))
      by (rewrite length_combine; lia).
    rewrite fold_left_app, Est. cbn [fold_left].
    now rewrite combine_nth by assumption.
  - rewrite E, Hst. f_equal. cbn [Nat.add].
    rewrite firstn_all2; [reflexivity|]. rewrite length_combine. lia.
Qed.

Lemma nth_error_fold_add_sample_fst (l : list (float * float))
      (st : list float * list float) (c : nat) :
  nth_error (fst (fold_left add_sample l st)) c
  = option_map (fun v => fold_left (fun s xy => add_XY xy c s) l v)
               (nth_error (fst st) c).
Proof.
  revert st. induction l as [|xy l IH]; intros st.
  - cbn [fold_left]. now destruct (nth_error (fst st) c).
  - cbn [fold_left]. rewrite IH. unfold add_sample. cbn [fst].
    rewrite nth_error_imap. cbn [Nat.add].
    now destruct (nth_error (fst st) c).
Qed.

Lemma nth_error_fold_add_sample_snd (l : list (float * float))
      (st : list float * list float) (c : nat) :
  nth_error (snd (fold_left add_sample l st)) c
  = option_map (fun v => fold_left (fun s xy => add_xxSum xy c s) l v)
               (nth_error (snd st) c).
Proof.
  revert st. induction l as [|xy l IH]; intros st.
  - cbn [fold_left]. now destruct (nth_error (snd st) c).
  - cbn [fold_left]. rewrite IH. unfold add_sample. cbn [snd].
    rewrite nth_error_imap. cbn [Nat.add].
    now destruct (nth_error (snd st) c).
Qed.

Lemma fold_left_combine_fst {S T U : Type} (f : S -> T -> S)
      (xs : list T) (ys : list U) (a : S) :
  length xs = length ys ->
  fold_left (fun s xy => f s (fst xy)) (combine xs ys) a = fold_left f xs a.
Proof.
  revert ys a. induction xs as [|x xs IH]; intros [|y ys] a H;
    try discriminate; [reflexivity|].
  cbn [combine fold_left fst]. apply IH. simpl in H. lia.
Qed.

Lemma nth_error_repeat_lt {T : Type} (a : T) (m c : nat) :
  (c < m)%nat -> nth_error (repeat a m) c = Some a.
Proof.
  intros H. rewrite (nth_error_nth_lt _ c a) by (rewrite repeat_length; lia).
  now rewrite nth_repeat.
Qed.

Lemma tabulate_ext {T : Type} (m : nat) (f : nat -> T) (l : list T) :
  length l = m -> (forall c, (c < m)%nat -> nth_error l c = Some (f c)) ->
  l = tabulate m f.
Proof.
  intros HL H. apply nth_error_ext. intros c.
  destruct (Nat.lt_ge_cases c m) as [Hc|Hc].
  - now rewrite H, nth_error_tabulate.
  - transitivity (@None T).
    + apply nth_error_None. lia.
    + symmetry. apply nth_error_None. rewrite length_tabulate. lia.
Qed.

(** The sums are the moments and the power sums of the samples. *)
Lemma accumulate_sums (inX inY : list float) (d : nat) :
  length inX = length inY -> Z.of_nat (length inX) <= uint_max ->
  accumulate inX inY (Z.of_nat (S d)) (Z.of_nat (2 * d + 1))
  = Some (XY_spec inX inY d, xxSum_spec inX d).
Proof.
  intros HL Hfit. rewrite accumulate_spec by (auto; lia). f_equal.
  set (st0 := (repeat 0%float (S d), repeat 0%float (2 * d + 1))).
  destruct (length_fold_add_sample (combine inX inY) st0) as [L1 L2].
  unfold st0 in L1, L2. cbn [fst snd] in L1, L2. rewrite repeat_length in L1, L2.
  rewrite (surjective_pairing (fold_left add_sample (combine inX inY) st0)).
  f_equal.
  - unfold XY_spec. apply tabulate_ext; [assumption|]. intros c Hc.
    rewrite nth_error_fold_add_sample_fst. unfold st0. cbn [fst].
    rewrite nth_error_repeat_lt by assumption. reflexivity.
  - unfold xxSum_spec. apply tabulate_ext; [assumption|]. intros c Hc.
    rewrite nth_error_fold_add_sample_snd. unfold st0. cbn [snd].
    rewrite nth_error_repeat_lt by assumption. cbn [option_map]. f_equal.
    unfold power_sum.
    now rewrite <- (fold_left_combine_fst (fun s x => (s + running_power x c)%float)
                                          inX inY) by assumption.
Qed.

(** When [nCoef] is 0 the samples only feed [xxSum]. *)
Lemma power_body_no_coef (inX inY : list float) (np i j : nat)
      (xxSum : list float) (acc : float) :
  (i < length inX)%nat -> (j < np)%nat -> length xxSum = np ->
  exists xxSum' acc',
    power_body inX inY 0 (Z.of_nat i) (Z.of_nat j) ([], xxSum, acc)
    = Some ([], xxSum', acc') /\ length xxSum' = np.
Proof.
  intros Hi Hj HL. unfold power_body.
  destruct (Z.ltb_spec (Z.of_nat j) 0); [lia|]. cbn [bind].
  rewrite (get_lt xxSum j 0%float) by lia. cbn [bind].
  rewrite set_nat by lia. cbn [bind].
  rewrite (get_lt inX i 0%float) by lia. cbn [bind].
  eexists. eexists. split; [reflexivity|]. now rewrite length_upd.
Qed.

Lemma accumulate_no_coef (inX inY : list float) (np : Z) :
  Z.of_nat (length inX) <= uint_max ->
  exists xxSum, accumulate inX inY 0 np = Some ([], xxSum).
Proof.
  intros Hfit. unfold accumulate. rewrite wrap_small by lia. rewrite Nat2Z.id.
  change (repeat 0%float (Z.to_nat 0)) with (@nil float).
  set (n := Z.to_nat np).
  destruct (for_up_inv
              (fun _ st => fst st = [] /\ length (snd st) = n)
              (sample_body inX inY 0 np) (length inX) 0
              ([], repeat 0%float n))
    as [[XY xxSum] [E [H1 H2]]].
  - cbn [fst snd]. now rewrite repeat_length.
  - intros i [XY xxSum] Hi [H1 H2]. cbn [fst snd] in H1, H2. subst XY.
    unfold sample_body. fold n.
    destruct (for_up_inv
                (fun _ st => fst (fst st) = [] /\ length (snd (fst st)) = n)
                (power_body inX inY 0 (Z.of_nat i)) n 0
                ([], xxSum, 1%float))
      as [[[XY1 xxSum1] acc1] [E1 [G1 G2]]].
    + cbn [fst snd]. auto.
    + intros j [[XY0 xxSum0] acc0] Hj [G1 G2]. cbn [fst snd] in G1, G2. subst XY0.
      destruct (power_body_no_coef inX inY n i j xxSum0 acc0)
        as [xxSum' [acc' [E' L']]]; try lia.
      rewrite E'. eexists. split; [reflexivity|]. cbn [fst snd]. auto.
    + cbn [fst snd] in G1, G2. change (Z.of_nat 0) with 0 in E1.
      rewrite E1. cbn [bind].
      eexists. split; [reflexivity|]. cbn [fst snd]. auto.
  - cbn [fst snd] in H1. subst XY. change (Z.of_nat 0) with 0 in E.
    rewrite E. eauto.
Qed.

(** ** The normal matrix (lines 145-152) *)

Lemma entry_upd (A : list (list float)) (r r' c : nat) (row : list float) :
  entry (upd A r row) r' c
  = if (r' =? r)%nat && (r <? length A)%nat then nth c row 0%float else entry A r' c.
Proof.
  unfold entry. rewrite nth_upd.
  now destruct ((r' =? r)%nat && (r <? length A)%nat).
Qed.

Lemma matrix_ext (n : nat) (A B : list (list float)) :
  square n A -> square n B ->
  (forall r c, (r < n)%nat -> (c < n)%nat -> entry A r c = entry B r c) ->
  A = B.
Proof.
  intros HA HB H. pose proof HA as [LA _]. pose proof HB as [LB _].
  apply nth_error_ext. intros r.
  destruct (Nat.lt_ge_cases r n) as [Hr|Hr].
  - rewrite (nth_error_nth_lt A r []) by lia.
    rewrite (nth_error_nth_lt B r []) by lia. f_equal.
    apply nth_error_ext. intros c.
    pose proof (square_row n A r HA Hr) as RA.
    pose proof (square_row n B r HB Hr) as RB.
    destruct (Nat.lt_ge_cases c n) as [Hc|Hc].
    + rewrite (nth_error_nth_lt _ c 0%float) by lia.
      rewrite (nth_error_nth_lt (nth r B []) c 0%float) by lia.
      f_equal. apply (H r c Hr Hc).
    + transitivity (@None float).
      * apply nth_error_None. lia.
      * symmetry. apply nth_error_None. lia.
  - transitivity (@None (list float)).
    + apply nth_error_None. lia.
    + symmetry. apply nth_error_None. lia.
Qed.

Lemma fill_entry_spec (n : nat) (xxSum : list float) (i j : nat) (XX : list (list float)) :
  square n XX -> (i < n)%nat -> (j < n)%nat ->
  (i + j < length xxSum)%nat -> Z.of_nat (length xxSum) <= uint_max ->
  exists XX',
    fill_entry xxSum (Z.of_nat i) (Z.of_nat j) XX = Some XX' /\
    square n XX' /\
    forall r c,
      entry XX' r c =
      if ((r =? j)%nat && (c =? i)%nat) || ((r =? i)%nat && (c =? j)%nat)
      then nth (i + j) xxSum 0%float else entry XX r c.
Proof.
  intros HX Hi Hj Hs Hfit. pose proof HX as [HL _].
  pose proof (square_row n XX i HX Hi) as Ri.
  unfold fill_entry.
  rewrite wrap_small by lia.
  replace (Z.of_nat i + Z.of_nat j) with (Z.of_nat (i + j)) by lia.
  rewrite (get_lt xxSum (i + j) 0%float) by assumption. cbn [bind].
  set (s := nth (i + j) xxSum 0%float).
  rewrite (get_lt XX i []) by lia. cbn [bind].
  rewrite set_nat by lia. cbn [bind].
  rewrite set_nat by lia. cbn [bind].
  set (XX1 := upd XX i (upd (nth i XX []) j s)).
  assert (HX1 : square n XX1).
  { apply square_upd; [assumption|]. now rewrite length_upd. }
  rewrite (get_row n) by assumption. cbn [bind].
  rewrite (get_entry n) by assumption. cbn [bind].
  rewrite (get_row n) by assumption. cbn [bind].
  rewrite set_nat by (rewrite (square_row n XX1 j HX1 Hj); lia). cbn [bind].
  rewrite set_nat by (destruct HX1; lia).
  eexists. split; [reflexivity|]. split.
  - apply square_upd; [assumption|].
    rewrite length_upd. now apply square_row.
  - assert (E1 : forall r c, entry XX1 r c
                             = if (r =? i)%nat && (c =? j)%nat then s else entry XX r c).
    { intros r c. unfold XX1. rewrite entry_upd.
      destruct (Nat.ltb_spec i (length XX)); [|lia]. rewrite andb_true_r.
      destruct (Nat.eqb_spec r i) as [->|Hr]; [|reflexivity].
      rewrite nth_upd. rewrite Ri.
      destruct (Nat.ltb_spec j n); [|lia]. rewrite andb_true_r.
      cbn [andb]. reflexivity. }
    intros r c. rewrite entry_upd.
    pose proof HX1 as [L1 _].
    destruct (Nat.ltb_spec j (length XX1)); [|lia]. rewrite andb_true_r.
    destruct (Nat.eqb_spec r j) as [->|Hr].
    + rewrite nth_upd.
      rewrite (square_row n XX1 j HX1 Hj).
      destruct (Nat.ltb_spec i n); [|lia]. rewrite andb_true_r.
      fold (entry XX1 j c). rewrite !E1.
      destruct (Nat.eqb_spec c i) as [->|Hc]; cbn [andb orb].
      * rewrite !Nat.eqb_refl. reflexivity.
      * reflexivity.
    + cbn [andb orb]. apply E1.
Qed.

Lemma square_repeat (n : nat) : square n (repeat (repeat 0%float n) n).
Proof.
  split; [apply repeat_length|].
  apply Forall_forall. intros r Hr. apply repeat_spec in Hr. subst r.
  apply repeat_length.
Qed.

Lemma square_tabulate (n : nat) (f : nat -> nat -> float) :
  square n (tabulate n (fun i => tabulate n (f i))).
Proof.
  apply square_ext; [apply length_tabulate|].
  intros r Hr.
  rewrite (nth_error_nth _ _ [] (nth_error_tabulate n r _ Hr)).
  apply length_tabulate.
Qed.

Lemma entry_tabulate (n r c : nat) (f : nat -> nat -> float) :
  (r < n)%nat -> (c < n)%nat ->
  entry (tabulate n (fun i => tabulate n (f i))) r c = f r c.
Proof.
  intros Hr Hc. unfold entry.
  rewrite (nth_error_nth _ _ [] (nth_error_tabulate n r _ Hr)).
  now rewrite (nth_error_nth _ _ 0%float (nth_error_tabulate n c _ Hc)).
Qed.

Lemma assemble_spec (n : nat) (xxSum : list float) :
  (2 * n <= S (length xxSum))%nat -> Z.of_nat (length xxSum) <= uint_max ->
  assemble xxSum (Z.of_nat n)
  = Some (tabulate n (fun i => tabulate n (fun j => nth (i + j) xxSum 0%float))).
Proof.
  intros Hlen Hfit. unfold assemble. rewrite Nat2Z.id.
  change 0 with (Z.of_nat 0).
  set (v := fun r c => nth (r + c) xxSum 0%float).
  destruct (for_up_inv
              (fun i XX => square n XX /\
                           forall r c, (r < n)%nat -> (c < n)%nat ->
                                       (r < i \/ c < i)%nat -> entry XX r c = v r c)
              (fun i => for_up n (Z.of_nat 0) (fill_entry xxSum i))
              n 0 (repeat (repeat 0%float n) n))
    as [XX [E [HX Hall]]].
  - split; [apply square_repeat|]. intros r c _ _ H. lia.
  - intros i XX0 Hi [HX0 H0].
    destruct (for_up_inv
                (fun j XX => square n XX /\
                             forall r c, (r < n)%nat -> (c < n)%nat ->
                                         (r < i \/ c < i \/ (r = i /\ c < j) \/
                                          (c = i /\ r < j))%nat ->
                                         entry XX r c = v r c)
                (fill_entry xxSum (Z.of_nat i)) n 0 XX0)
      as [XX1 [E1 [HX1 H1]]].
    + split; [assumption|]. intros r c Hr Hc H. apply H0; try assumption. lia.
    + intros j XX2 Hj [HX2 H2].
      destruct (fill_entry_spec n xxSum i j XX2 HX2 ltac:(lia) ltac:(lia)
                                ltac:(lia) Hfit)
        as [XX3 [E3 [HX3 H3]]].
      exists XX3. split; [assumption|]. split; [assumption|].
      intros r c Hr Hc H. rewrite H3.
      destruct (Nat.eqb_spec r j), (Nat.eqb_spec c i), (Nat.eqb_spec r i),
               (Nat.eqb_spec c j); cbn [andb orb]; subst;
        try (unfold v; f_equal; lia); apply H2; try assumption; lia.
    + exists XX1. split; [assumption|]. split; [assumption|].
      intros r c Hr Hc H. apply H1; try assumption. lia.
  - rewrite E. f_equal.
    apply (matrix_ext n); [assumption | apply square_tabulate |].
    intros r c Hr Hc. rewrite entry_tabulate by assumption.
    apply Hall; try assumption. lia.
Qed.

(** The normal equations hold the moments and the power sums. *)
Lemma normal_equations_spec (inX inY : list float) (d : nat) :
  length inX = length inY -> Z.of_nat (length inX) <= uint_max ->
  Z.of_nat (2 * d + 1) <= uint_max ->
  normal_equations inX inY (Z.of_nat d) = Some (XX_spec inX d, XY_spec inX inY d).
Proof.
  intros HL Hfit Hd. unfold normal_equations.
  rewrite (wrap_small (Z.of_nat d + 1)) by lia.
  rewrite wrap_small by lia.
  replace (Z.of_nat d + 1) with (Z.of_nat (S d)) by lia.
  replace (Z.of_nat (S d) + Z.of_nat d) with (Z.of_nat (2 * d + 1)) by lia.
  rewrite accumulate_sums by assumption. cbn [bind].
  rewrite assemble_spec.
  - cbn [bind]. do 2 f_equal. unfold XX_spec.
    apply (matrix_ext (S d)); try apply square_tabulate.
    intros r c Hr Hc. rewrite !entry_tabulate by assumption.
    unfold xxSum_spec.
    apply (nth_error_nth _ _ 0%float). apply nth_error_tabulate. lia.
  - unfold xxSum_spec. rewrite length_tabulate. lia.
  - unfold xxSum_spec. rewrite length_tabulate. lia.
Qed.

(** ** LUPSolve on a well-formed system *)

Lemma LUPSolve_unfold (x : list float) (A : list (list float)) (b : list float)
      (n : nat) (r : Z) (s : lu_state) :
  Z.of_nat n < uint_max ->
  LUPDecompose_run A (Z.of_nat n) tol (repeat 0 (S n)) = Some (r, s) ->
  LUPSolve x A b (Z.of_nat n)
  = if r =? 0 then Some (1, x, lu_A s)
    else
      x1 <- for_up (Z.to_nat (Z.of_nat n)) 0 (forward_row (lu_A s) b (lu_P s)) x ;;
      x2 <- for_down (Z.to_nat (to_int (wrap (Z.of_nat n - 1)) + 1))
                     (to_int (wrap (Z.of_nat n - 1)))
                     (backward_row (lu_A s) (Z.of_nat n)) x1 ;;
      Some (0, x2, lu_A s).
Proof.
  intros Hn E. unfold LUPSolve, LUPDecompose.
  rewrite wrap_small by lia.
  replace (Z.to_nat (Z.of_nat n + 1)) with (S n) by lia.
  rewrite E. cbn [bind]. reflexivity.
Qed.

Lemma LUPSolve_spec (n : nat) (x b : list float) (A : list (list float)) :
  Z.of_nat n < uint_max -> square n A ->
  (n <= length b)%nat -> (n <= length x)%nat ->
  exists r s,
    LUPDecompose_run A (Z.of_nat n) tol (repeat 0 (S n)) = Some (r, s) /\
    lu_ok n s /\
    ((r = 1 /\ reaches n tol A n s /\ ~ degenerate_pivot n tol A /\
      exists x', LUPSolve x A b (Z.of_nat n) = Some (0, x', lu_A s) /\
                 length x' = length x) \/
     (r = 0 /\ degenerate_pivot n tol A /\
      (exists j, (j < n)%nat /\ reaches n tol A j s) /\
      LUPSolve x A b (Z.of_nat n) = Some (1, x, lu_A s))).
Proof.
  intros Hn HA Hb Hx.
  destruct (LUPDecompose_run_spec n tol A (repeat 0 (S n)) Hn HA (repeat_length _ _))
    as [r [s [E H]]].
  exists r, s. split; [assumption|].
  assert (Hok : lu_ok n s).
  { destruct H as [[_ [Hr _]] | [_ [_ [j [_ Hr]]]]];
      apply (reaches_ok n tol A _ s Hn HA Hr). }
  split; [assumption|].
  rewrite (LUPSolve_unfold x A b n r s Hn E).
  destruct H as [[-> [Hr Hnd]] | [-> [Hd Hj]]].
  - left. split; [reflexivity|]. split; [assumption|]. split; [assumption|].
    destruct (substitution_total n s b x Hn Hok Hb Hx) as [x1 [x2 [E1 [E2 HL]]]].
    exists x2. change (1 =? 0) with false. cbv iota.
    rewrite E1. cbn [bind]. rewrite E2. cbn [bind]. auto.
  - right. auto.
Qed.

(** polyFit is the solver run on the normal equations. *)
Lemma polyFit_unfold (out inX inY : list float) (d : nat) :
  length inX = length inY -> Z.of_nat (length inX) <= uint_max ->
  Z.of_nat (2 * d + 1) <= uint_max ->
  polyFit out inX inY (Z.of_nat d)
  = '(errCode, c, _) <- LUPSolve (resize out (Z.of_nat (S d)) 0%float)
                                 (XX_spec inX d) (XY_spec inX inY d) (Z.of_nat (S d)) ;;
    Some (errCode, c).
Proof.
  intros HL Hfit Hd. unfold polyFit.
  rewrite normal_equations_spec by assumption. cbn [bind].
  rewrite wrap_small by lia.
  replace (Z.of_nat d + 1) with (Z.of_nat (S d)) by lia. reflexivity.
Qed.

Lemma square_XX_spec (xs : list float) (d : nat) : square (S d) (XX_spec xs d).
Proof.
  apply square_tabulate.
Qed.

Lemma length_XY_spec (xs ys : list float) (d : nat) : length (XY_spec xs ys d) = S d.
Proof.
  apply length_tabulate.
Qed.

Lemma wrap_counter (n k : nat) :
  Z.of_nat n < uint_max -> (k <= n)%nat ->
  wrap (wrap (Z.of_nat n + Z.of_nat k) - Z.of_nat n) = Z.of_nat k.
Proof.
  intros Hn Hk. unfold wrap, uint_max in *.
  rewrite Zminus_mod_idemp_l.
  replace (Z.of_nat n + Z.of_nat k - Z.of_nat n) with (Z.of_nat k) by lia.
  apply Z.mod_small. lia.
Qed.

(** ** Requests to the free store *)

Lemma refines_ret {A : Type} (a : A) : refines (ret a) (Some a).
Proof.
  intros st. right. now exists st.
Qed.

Lemma refines_lift {A : Type} (o : option A) : refines (lift o) o.
Proof.
  intros st. right. unfold lift. destruct o; [now exists st | reflexivity].
Qed.

Lemma refines_new (serve : nat -> Z -> Z -> bool) (bytes : Z) :
  refines (new serve bytes) (Some tt).
Proof.
  intros st. unfold new.
  destruct (bytes =? 0); [right; now exists st|].
  destruct (serve (asked st) (held st) bytes); [right; eauto | now left].
Qed.

Lemma refines_release (bytes : Z) : refines (release bytes) (Some tt).
Proof.
  intros st. right. unfold release. eauto.
Qed.

Lemma refines_bind {A B : Type} (m : comp A) (o : option A)
      (k : A -> comp B) (f : A -> option B) :
  refines m o -> (forall a, refines (k a) (f a)) -> refines (bindc m k) (bind o f).
Proof.
  intros Hm Hk st. unfold bindc.
  destruct (Hm st) as [E | E]; [rewrite E; now left|].
  destruct o as [a|].
  - destruct E as [st' E]. rewrite E. apply Hk.
  - rewrite E. now right.
Qed.

Lemma refines_seq {B : Type} (m : comp unit) (k : unit -> comp B) (o : option B) :
  refines m (Some tt) -> refines (k tt) o -> refines (bindc m k) o.
Proof.
  intros Hm Hk.
  apply (refines_bind m (Some tt) k (fun _ => o)); [assumption|].
  now intros [].
Qed.

Lemma refines_eq {A : Type} (m : comp A) (o o' : option A) :
  o = o' -> refines m o' -> refines m o.
Proof.
  now intros ->.
Qed.

Lemma refines_new_each (serve : nat -> Z -> Z -> bool) (k : nat) (bytes : Z) :
  refines (new_each serve k bytes) (Some tt).
Proof.
  induction k as [|k IH]; cbn [new_each].
  - apply refines_ret.
  - apply refines_seq; [apply refines_new | assumption].
Qed.

Lemma refines_grow (serve : nat -> Z -> Z -> bool) (len n : Z) :
  refines (grow serve len n) (Some tt).
Proof.
  unfold grow. destruct (len <? n); [|apply refines_ret].
  apply refines_seq; [apply refines_new | apply refines_release].
Qed.

(** Unless a request is refused, LUPSolve_heap is LUPSolve. *)
Lemma LUPSolve_heap_refines (serve : nat -> Z -> Z -> bool)
      (x : list float) (A : list (list float)) (b : list float) (N : Z) :
  refines (LUPSolve_heap serve x A b N) (LUPSolve x A b N).
Proof.
  unfold LUPSolve_heap.
  apply refines_seq; [apply refines_new|].
  apply (refines_eq _ _ (bind (LUPSolve x A b N) Some));
    [destruct (LUPSolve x A b N); reflexivity|].
  apply refines_bind; [apply refines_lift|].
  intros r. apply refines_seq; [apply refines_release | apply refines_ret].
Qed.

(** Unless a request is refused, polyFit_heap is polyFit. *)
Lemma polyFit_heap_refines (serve : nat -> Z -> Z -> bool)
      (out inX inY : list float) (d : Z) :
  refines (polyFit_heap serve out inX inY d) (polyFit out inX inY d).
Proof.
  unfold polyFit_heap, polyFit.
  apply refines_seq; [apply refines_grow|].
  apply refines_seq; [apply refines_new|].
  apply refines_seq; [apply refines_new|].
  apply refines_seq; [apply refines_new_each|].
  apply refines_seq; [apply refines_release|].
  apply refines_seq; [apply refines_new|].
  apply refines_seq; [apply refines_new|].
  apply refines_bind; [apply refines_lift|].
  intros [XX XY].
  apply refines_bind; [apply LUPSolve_heap_refines|].
  intros [[errCode c] A'].
  apply refines_seq; [apply refines_release | apply refines_ret].
Qed.

Lemma run_refines {A : Type} (m : comp A) (o : option A) :
  refines m o -> run m = Throws \/ run m = of_option o.
Proof.
  intros H. unfold run. destruct (H (mk_store 0 0)) as [E | E]; [rewrite E; now left|].
  right. destruct o as [a|].
  - destruct E as [st' E]. now rewrite E.
  - now rewrite E.
Qed.

Lemma served_ret {A : Type} (serve : nat -> Z -> Z -> bool) (a : A) :
  throws_only_refused serve (ret a).
Proof.
  intros _ st. discriminate.
Qed.

Lemma served_lift {A : Type} (serve : nat -> Z -> Z -> bool) (o : option A) :
  throws_only_refused serve (lift o).
Proof.
  intros _ st. unfold lift. destruct o; discriminate.
Qed.

Lemma served_new (serve : nat -> Z -> Z -> bool) (bytes : Z) :
  throws_only_refused serve (new serve bytes).
Proof.
  intros H st. unfold new. rewrite H. destruct (bytes =? 0); discriminate.
Qed.

Lemma served_release (serve : nat -> Z -> Z -> bool) (bytes : Z) :
  throws_only_refused serve (release bytes).
Proof.
  intros _ st. discriminate.
Qed.

Lemma served_bind {A B : Type} (serve : nat -> Z -> Z -> bool) (m : comp A) (k : A -> comp B) :
  throws_only_refused serve m -> (forall a, throws_only_refused serve (k a)) ->
  throws_only_refused serve (bindc m k).
Proof.
  intros Hm Hk H st. unfold bindc.
  specialize (Hm H st).
  destruct (m st) as [[a st']| |]; [now apply Hk | contradiction | discriminate].
Qed.

Lemma served_new_each (serve : nat -> Z -> Z -> bool) (k : nat) (bytes : Z) :
  throws_only_refused serve (new_each serve k bytes).
Proof.
  induction k as [|k IH]; cbn [new_each].
  - apply served_ret.
  - apply served_bind; [apply served_new | intros _; assumption].
Qed.

Lemma served_grow (serve : nat -> Z -> Z -> bool) (len n : Z) :
  throws_only_refused serve (grow serve len n).
Proof.
  unfold grow. destruct (len <? n); [|apply served_ret].
  apply served_bind; [apply served_new | intros _; apply served_release].
Qed.

Lemma LUPSolve_heap_served (serve : nat -> Z -> Z -> bool)
      (x : list float) (A : list (list float)) (b : list float) (N : Z) :
  throws_only_refused serve (LUPSolve_heap serve x A b N).
Proof.
  unfold LUPSolve_heap.
  apply served_bind; [apply served_new | intros _].
  apply served_bind; [apply served_lift | intros r].
  apply served_bind; [apply served_release | intros _; apply served_ret].
Qed.

Lemma polyFit_heap_served (serve : nat -> Z -> Z -> bool)
      (out inX inY : list float) (d : Z) :
  throws_only_refused serve (polyFit_heap serve out inX inY d).
Proof.
  unfold polyFit_heap.
  apply served_bind; [apply served_grow | intros _].
  apply served_bind; [apply served_new | intros _].
  apply served_bind; [apply served_new | intros _].
  apply served_bind; [apply served_new_each | intros _].
  apply served_bind; [apply served_release | intros _].
  apply served_bind; [apply served_new | intros _].
  apply served_bind; [apply served_new | intros _].
  apply served_bind; [apply served_lift | intros [XX XY]].
  apply served_bind; [apply LUPSolve_heap_served | intros [[errCode c] A']].
  apply served_bind; [apply served_release | intros _; apply served_ret].
Qed.

(** A call whose requests are all served does what the code without the
    free store does. *)
Lemma run_served {A : Type} (serve : nat -> Z -> Z -> bool) (m : comp A) (o : option A) :
  refines m o -> throws_only_refused serve m ->
  (forall k held bytes, serve k held bytes = true) ->
  run m = of_option o.
Proof.
  intros Hr Hs H.
  destruct (run_refines m o Hr) as [E | E]; [|assumption].
  exfalso. unfold run in E. specialize (Hs H (mk_store 0 0)).
  destruct (m (mk_store 0 0)) as [[a st']| |];
    [discriminate | contradiction | discriminate].
Qed.

Lemma Returns_store {A : Type} (a b : A) (s1 s2 : store) :
  @Returns (A * store) (a, s1) = Returns (b, s2) -> s2 = s1.
Proof.
  congruence.
Qed.

(** What a request that is served leaves held. *)
Lemma new_held (serve : nat -> Z -> Z -> bool) (bytes : Z) (st st' : store) :
  new serve bytes st = Returns (tt, st') ->
  held st' = held st + bytes /\
  (bytes <> 0 -> serve (asked st) (held st) bytes = true).
Proof.
  unfold new. destruct (Z.eqb_spec bytes 0) as [->|Hne].
  - intros E. apply Returns_store in E. subst st'. split; [lia | congruence].
  - destruct (serve (asked st) (held st) bytes); [|discriminate].
    intros E. apply Returns_store in E. subst st'. auto.
Qed.

Lemma new_each_held (serve : nat -> Z -> Z -> bool) (limit : Z) (k : nat) (bytes : Z) :
  store_limit serve limit -> 0 < bytes ->
  forall st st',
    new_each serve k bytes st = Returns (tt, st') ->
    held st' = held st + Z.of_nat k * bytes /\ ((0 < k)%nat -> held st' <= limit).
Proof.
  intros HL Hb. induction k as [|k IH]; intros st st' E.
  - apply Returns_store in E. subst st'. split; lia.
  - cbn [new_each] in E. unfold bindc in E.
    destruct (new serve bytes st) as [[[] s1]| |] eqn:E1; try discriminate.
    destruct (new_held serve bytes st s1 E1) as [H1 Hs].
    destruct (IH _ _ E) as [H2 Hk]. split; [lia|]. intros _.
    destruct k as [|k]; [|apply Hk; lia].
    specialize (HL _ _ _ (Hs ltac:(lia))). lia.
Qed.

Lemma grow_held (serve : nat -> Z -> Z -> bool) (len n : Z) (st st' : store) :
  grow serve len n st = Returns (tt, st') -> held st <= held st'.
Proof.
  unfold grow. destruct (Z.ltb_spec len n) as [Hlt|Hge].
  - unfold bindc. destruct (new serve (8 * n) st) as [[[] s1]| |] eqn:E1; try discriminate.
    destruct (new_held _ _ _ _ E1) as [H1 _].
    unfold release. intros E. apply Returns_store in E. subst st'.
    cbn [held]. lia.
  - intros E. apply Returns_store in E. subst st'. lia.
Qed.

Lemma run_throws {A : Type} (m : comp A) : m (mk_store 0 0) = Throws -> run m = Throws.
Proof.
  intros E. unfold run. now rewrite E.
Qed.

(** A normal matrix larger than what the free store can give is never
    built: the call throws. *)
Lemma polyFit_heap_throws (serve : nat -> Z -> Z -> bool) (limit : Z)
      (out inX inY : list float) (d : Z) :
  store_limit serve limit ->
  0 <= d -> d + 1 <= uint_max ->
  limit < 8 * (d + 1) * (d + 1) ->
  run (polyFit_heap serve out inX inY d) = Throws.
Proof.
  intros HL Hd0 Hd Hbig. apply run_throws. unfold polyFit_heap.
  rewrite (wrap_small (d + 1)) by lia.
  set (n := d + 1) in *.
  unfold bindc at 1.
  destruct (refines_grow serve (Z.of_nat (length out)) n (mk_store 0 0))
    as [E | [s0 E]]; rewrite E; [reflexivity|].
  apply grow_held in E. cbn [held] in E.
  unfold bindc at 1.
  destruct (refines_new serve (8 * n) s0) as [E1 | [s1 E1]]; rewrite E1; [reflexivity|].
  apply new_held in E1. destruct E1 as [E1 _].
  unfold bindc at 1.
  destruct (refines_new serve (24 * n) s1) as [E2 | [s2 E2]];
    rewrite E2; [reflexivity|].
  apply new_held in E2. destruct E2 as [E2 _].
  unfold bindc at 1.
  destruct (refines_new_each serve (Z.to_nat n) (8 * n) s2)
    as [E3 | [s3 E3]]; rewrite E3; [reflexivity|].
  exfalso.
  destruct (new_each_held serve limit (Z.to_nat n) (8 * n) HL ltac:(lia) _ _ E3)
    as [E4 Hle].
  specialize (Hle ltac:(lia)). rewrite Z2Nat.id in E4 by lia. nia.
Qed.



Lemma polyFit_heap_result (serve : nat -> Z -> Z -> bool)
      (out inX inY : list float) (d : Z) (r : Z * list float) :
  polyFit out inX inY d = Some r ->
  (run (polyFit_heap serve out inX inY d) = Throws \/
   run (polyFit_heap serve out inX inY d) = Returns r) /\
  ((forall k held bytes, serve k held bytes = true) ->
   run (polyFit_heap serve out inX inY d) = Returns r).
Proof.
  intros E. pose proof (polyFit_heap_refines serve out inX inY d) as H. split.
  - destruct (run_refines _ _ H) as [G | G]; [now left | right].
    rewrite G, E. reflexivity.
  - intros Hs.
    rewrite (run_served serve _ _ H (polyFit_heap_served serve out inX inY d) Hs).
    now rewrite E.
Qed.

(** LUPSolve returns on the normal equations of equal-length samples. *)
Lemma LUPSolve_normal_returns (out inX inY : list float) (d : nat) :
  Z.of_nat (2 * d + 1) <= uint_max ->
  exists r c A',
    LUPSolve (resize out (Z.of_nat d + 1) 0%float)
             (XX_spec inX d) (XY_spec inX inY d) (Z.of_nat d + 1)
    = Some (r, c, A').
Proof.
  intros Hd. replace (Z.of_nat d + 1) with (Z.of_nat (S d)) by lia.
  destruct (LUPSolve_spec (S d) (resize out (Z.of_nat (S d)) 0%float)
                          (XY_spec inX inY d) (XX_spec inX d))
    as [r [s [_ [_ H]]]].
  - unfold uint_max in *. lia.
  - apply square_XX_spec.
  - rewrite length_XY_spec. lia.
  - rewrite length_resize. lia.
  - destruct H as [[_ [_ [_ [x' [E _]]]]] | [_ [_ [_ E]]]]; eauto.
Qed.

(** * The properties of the specification *)




(** C2 (as amended).  For equal-length samples whose number fits an
    [unsigned int] and a degree [d] with [2*d+1 <= 4294967295], polyFit
    accumulates the running powers of each sample up to [2*d] into [xxSum]
    and the moments into [XY], fills the symmetric [(d+1) x (d+1)] matrix
    [XX[i][j] = xxSum[i+j]], the sum over the samples of [x^(i+j)], and calls
    LUPSolve on [(XX, XY)] with dimension [d+1]; for every free store the
    call returns what that call of LUPSolve leaves, unless a request for
    one of the vectors is refused and it throws. *)
Theorem C2_normal_equations_assembled
        (serve : nat -> Z -> Z -> bool) (out inX inY : list float) (d : nat) :
  length inX = length inY -> Z.of_nat (length inX) <= uint_max ->
  Z.of_nat (2 * d + 1) <= uint_max ->
  accumulate inX inY (Z.of_nat d + 1) (Z.of_nat d + 1 + Z.of_nat d)
  = Some (XY_spec inX inY d, xxSum_spec inX d) /\
  normal_equations inX inY (Z.of_nat d) = Some (XX_spec inX d, XY_spec inX inY d) /\
  square (S d) (XX_spec inX d) /\
  length (XY_spec inX inY d) = S d /\
  (forall i j, (i <= d)%nat -> (j <= d)%nat ->
               entry (XX_spec inX d) i j = power_sum inX (i + j) /\
               entry (XX_spec inX d) i j = entry (XX_spec inX d) j i) /\
  (forall p, (p <= 2 * d)%nat -> nth p (xxSum_spec inX d) 0%float = power_sum inX p) /\
  (forall j, (j <= d)%nat -> nth j (XY_spec inX inY d) 0%float = moment inX inY j) /\
  polyFit out inX inY (Z.of_nat d)
  = ('(errCode, c, _) <- LUPSolve (resize out (Z.of_nat d + 1) 0%float)
                                  (XX_spec inX d) (XY_spec inX inY d) (Z.of_nat d + 1) ;;
     Some (errCode, c)) /\
  exists r c A',
    LUPSolve (resize out (Z.of_nat d + 1) 0%float)
             (XX_spec inX d) (XY_spec inX inY d) (Z.of_nat d + 1)
    = Some (r, c, A') /\
    (run (polyFit_heap serve out inX inY (Z.of_nat d)) = Throws \/
     run (polyFit_heap serve out inX inY (Z.of_nat d)) = Returns (r, c)) /\
    ((forall k held bytes, serve k held bytes = true) ->
     run (polyFit_heap serve out inX inY (Z.of_nat d)) = Returns (r, c)).
Proof.
  intros HL Hfit Hd.
  assert (EP : polyFit out inX inY (Z.of_nat d)
               = ('(errCode, c, _) <- LUPSolve (resize out (Z.of_nat d + 1) 0%float)
                                     (XX_spec inX d) (XY_spec inX inY d) (Z.of_nat d + 1) ;;
                  Some (errCode, c))).
  { rewrite (polyFit_unfold out inX inY d HL Hfit Hd).
    now replace (Z.of_nat d + 1) with (Z.of_nat (S d)) by lia. }
  replace (Z.of_nat d + 1 + Z.of_nat d) with (Z.of_nat (2 * d + 1)) by lia.
  split; [replace (Z.of_nat d + 1) with (Z.of_nat (S d)) by lia;
          now apply accumulate_sums|].
  split; [now apply normal_equations_spec|].
  split; [apply square_XX_spec|].
  split; [apply length_XY_spec|].
  split; [|split; [|split; [|split]]].
  - intros i j Hi Hj. unfold XX_spec.
    rewrite !entry_tabulate by lia. split; [reflexivity|].
    f_equal. lia.
  - intros p Hp. unfold xxSum_spec.
    apply (nth_error_nth _ _ 0%float). apply nth_error_tabulate. lia.
  - intros j Hj. unfold XY_spec.
    apply (nth_error_nth _ _ 0%float). apply nth_error_tabulate. lia.
  - exact EP.
  - destruct (LUPSolve_normal_returns out inX inY d Hd) as [r [c [A' E]]].
    exists r, c, A'. split; [assumption|].
    apply polyFit_heap_result. rewrite EP, E. reflexivity.
Qed.

Lemma C2_witness :
  normal_equations [1; 1; 1]%float [1; 2; 3]%float 1
  = Some (XX_spec [1; 1; 1]%float 1, XY_spec [1; 1; 1]%float [1; 2; 3]%float 1).
Proof.
  apply (C2_normal_equations_assembled
           (machine 1024) [] [1; 1; 1]%float [1; 2; 3]%float 1).
  - reflexivity.
  - unfold uint_max; simpl; lia.
  - unfold uint_max; simpl; lia.
Defined.

(** The claim as it stands fails at the largest degree: [inPolOrder + 1]
    wraps to 0, and the sample [(2, 3)] leaves a normal matrix and a vector
    [XY] with no entry at all; with 64 GiB to give for [xxSum], the call
    returns 0 from a solver that had nothing to solve. *)
Lemma C2_counterexample :
  normal_equations [2]%float [3]%float 4294967295 = Some ([], []) /\
  run (polyFit_heap (machine 68719476736) [] [2]%float [3]%float 4294967295)
  = Returns (0, []).
Proof.
  assert (E : normal_equations [2]%float [3]%float 4294967295 = Some ([], [])).
  { unfold normal_equations. change (wrap (4294967295 + 1)) with 0.
    destruct (accumulate_no_coef [2]%float [3]%float (wrap (0 + 4294967295)))
      as [xxSum E].
    - unfold uint_max. simpl. lia.
    - rewrite E. reflexivity. }
  split; [exact E|].
  unfold polyFit_heap. rewrite E. lazy. reflexivity.
Qed.

(** C3.  On [A = [[2,1],[1,3]]], [b = [5,10]], [N = 2], whatever the output
    vector holds at entry, LUPSolve returns 0 and leaves [x = [1, 3]]. *)
Theorem C3_solve_example (x0 x1 : float) :
  LUPSolve [x0; x1] [[2; 1]; [1; 3]]%float [5; 10]%float 2
  = Some (0, [1; 3]%float, [[2; 1]; [0.5; 2.5]]%float).
Proof.
  vm_compute. reflexivity.
Qed.

(** When the decomposition fails, LUPSolve returns 1 and leaves [x] alone. *)
Lemma LUPSolve_degenerate (x : list float) (A : list (list float)) (b : list float)
      (N : Z) (A' : list (list float)) (P' : list Z) :
  LUPDecompose A N tol (repeat 0 (Z.to_nat (wrap (N + 1)))) = Some (0, A', P') ->
  LUPSolve x A b N = Some (1, x, A').
Proof.
  intros E. unfold LUPSolve. rewrite E. reflexivity.
Qed.

(** C6.  On [x = [1,1,1]], [y = [1,2,3]], degree 1, the normal matrix is
    [[3,3],[3,3]]; its second pivot column is zero after the elimination, and
    polyFit returns 1 (the coefficient vector is the caller's, resized). *)
Theorem C6_duplicate_x_is_degenerate (out : list float) :
  normal_equations [1; 1; 1]%float [1; 2; 3]%float 1
  = Some ([[3; 3]; [3; 3]]%float, [6; 6]%float) /\
  degenerate_pivot 2 tol [[3; 3]; [3; 3]]%float /\
  polyFit out [1; 1; 1]%float [1; 2; 3]%float 1 = Some (1, resize out 2 0%float).
Proof.
  assert (E : normal_equations [1; 1; 1]%float [1; 2; 3]%float 1
              = Some ([[3; 3]; [3; 3]]%float, [6; 6]%float)).
  { vm_compute. reflexivity. }
  split; [exact E|]. split.
  - exists 1%nat, (mk_lu [[3; 3]; [1; 0]]%float [0; 1; 2] []).
    split; [|split; [lia | vm_compute; reflexivity]].
    apply (reaches_next 2 tol _ 0 (mk_lu [[3; 3]; [3; 3]]%float (iota 3) [])).
    + constructor.
    + lia.
    + vm_compute. reflexivity.
  - unfold polyFit. rewrite E. cbn [bind].
    change (wrap (1 + 1)) with 2.
    rewrite (LUPSolve_degenerate _ _ _ 2 [[3; 3]; [1; 0]]%float [0; 1; 2]).
    + reflexivity.
    + vm_compute. reflexivity.
Qed.

(** C9.  Whenever the decomposition inside LUPSolve fails, LUPSolve returns 1
    and [x] holds what it held at entry; the matrix is the partly eliminated
    one the decomposition left. *)
Theorem C9_failure_leaves_x_untouched
        (x : list float) (A : list (list float)) (b : list float) (N : Z)
        (A' : list (list float)) (P' : list Z) :
  LUPDecompose A N tol (repeat 0 (Z.to_nat (wrap (N + 1)))) = Some (0, A', P') ->
  LUPSolve x A b N = Some (1, x, A').
Proof.
  apply LUPSolve_degenerate.
Qed.

Lemma C9_witness :
  LUPSolve [7; 8]%float [[3; 3]; [3; 3]]%float [6; 6]%float 2
  = Some (1, [7; 8]%float, [[3; 3]; [1; 0]]%float).
Proof.
  apply (C9_failure_leaves_x_untouched
           [7; 8]%float [[3; 3]; [3; 3]]%float [6; 6]%float 2
           [[3; 3]; [1; 0]]%float [0; 1; 2]).
  vm_compute. reflexivity.
Defined.

(** ** Rows through one turn of the main loop *)

Lemma nth_eliminate_pure (n i r : nat) (A : list (list float)) :
  square n A -> (r < n)%nat ->
  nth r (eliminate_pure i A) []
  = if (r <=? i)%nat then nth r A [] else elim_row_pure i (nth i A []) (nth r A []).
Proof.
  intros [HL _] Hr. unfold eliminate_pure.
  rewrite (nth_imap _ _ _ []) by lia. reflexivity.
Qed.

Lemma nth_elim_row_pure (i c : nat) (p row : list float) :
  (c < length row)%nat ->
  nth c (elim_row_pure i p row) 0%float
  = if (c <? i)%nat then nth c row 0%float
    else if (c =? i)%nat then (nth i row 0 / nth i p 0)%float
         else (nth c row 0 - (nth i row 0 / nth i p 0) * nth c p 0)%float.
Proof.
  intros Hc. unfold elim_row_pure.
  rewrite (nth_imap _ _ _ 0%float) by assumption. reflexivity.
Qed.

Lemma swap_rows_same {T : Type} (d : T) (i : nat) (l : list T) :
  swap_rows d i i l = l.
Proof.
  unfold swap_rows. rewrite upd_upd. apply upd_nth_same.
Qed.

Lemma nth_moved {T : Type} (d : T) (i m r : nat) (l : list T) :
  (i < length l)%nat -> (m < length l)%nat ->
  nth (moved i m r) (swap_rows d i m l) d = nth r l d.
Proof.
  intros Hi Hm. rewrite nth_swap_rows by assumption. unfold moved.
  destruct (Nat.eqb_spec r i) as [->|Hri].
  - now rewrite Nat.eqb_refl.
  - destruct (Nat.eqb_spec r m) as [->|Hrm].
    + destruct (Nat.eqb_spec i m); [congruence|].
      now rewrite Nat.eqb_refl.
    + destruct (Nat.eqb_spec r m); [contradiction|].
      destruct (Nat.eqb_spec r i); [contradiction|]. reflexivity.
Qed.

Lemma nth_swap_rows_pivot {T : Type} (d : T) (i m : nat) (l : list T) :
  (i < length l)%nat -> (m < length l)%nat ->
  nth i (swap_rows d i m l) d = nth m l d.
Proof.
  intros Hi Hm. rewrite nth_swap_rows by assumption.
  destruct (Nat.eqb_spec i m) as [->|Hne]; [reflexivity|].
  now rewrite Nat.eqb_refl.
Qed.

(** The matrix on which the elimination of column [i] runs. *)
Lemma lu_A_before_elimination (n i imax : nat) (s : lu_state) :
  lu_A (if (imax =? i)%nat then s else exchange_pure n i imax s)
  = swap_rows [] i imax (lu_A s).
Proof.
  destruct (Nat.eqb_spec imax i) as [->|Hne]; [|reflexivity].
  now rewrite swap_rows_same.
Qed.

Lemma lu_A_after_pivot (n i imax : nat) (s : lu_state) :
  lu_A (after_pivot n i imax s) = eliminate_pure i (swap_rows [] i imax (lu_A s)).
Proof.
  unfold after_pivot. cbn [lu_A]. now rewrite lu_A_before_elimination.
Qed.

(** The pivot row is the row the scan chose. *)
Lemma after_pivot_pivot_row (n i imax : nat) (s : lu_state) :
  lu_ok n s -> (i <= imax < n)%nat ->
  nth i (lu_A (after_pivot n i imax s)) [] = nth imax (lu_A s) [].
Proof.
  intros Hok Hm. pose proof (ok_square _ _ Hok) as HA. pose proof HA as [HL _].
  rewrite lu_A_after_pivot.
  rewrite (nth_eliminate_pure n)
    by (try apply square_swap_rows; auto; lia).
  rewrite Nat.leb_refl. apply nth_swap_rows_pivot; lia.
Qed.

(** Every other row from [i] on lands below the pivot row and is eliminated
    by it. *)
Lemma after_pivot_row (n i imax r : nat) (s : lu_state) :
  lu_ok n s -> (i <= imax < n)%nat -> (i <= r < n)%nat -> r <> imax ->
  (i < moved i imax r < n)%nat /\
  nth (moved i imax r) (lu_A (after_pivot n i imax s)) []
  = elim_row_pure i (nth imax (lu_A s) []) (nth r (lu_A s) []).
Proof.
  intros Hok Hm Hr Hne. pose proof (ok_square _ _ Hok) as HA. pose proof HA as [HL _].
  assert (Hpos : (i < moved i imax r < n)%nat).
  { unfold moved. destruct (Nat.eqb_spec r i); [lia|].
    destruct (Nat.eqb_spec r imax); [contradiction | lia]. }
  split; [assumption|].
  rewrite lu_A_after_pivot.
  assert (HS : square n (swap_rows [] i imax (lu_A s)))
    by (apply square_swap_rows; auto; lia).
  rewrite (nth_eliminate_pure n) by (auto; lia).
  destruct (Nat.leb_spec (moved i imax r) i); [lia|].
  rewrite nth_moved by lia. f_equal.
  apply nth_swap_rows_pivot; lia.
Qed.

(** ** The exchanges of a run (lines 34-42) *)

(** A turn that goes on has applied [after_pivot] to the row the scan
    chose. *)
Lemma pivot_step_chosen (n : nat) (Tol : float) (i : nat) (s s' : lu_state)
      (maxA : float) (imax : Z) :
  lu_ok n s -> (i < n)%nat ->
  find_pivot (lu_A s) (Z.of_nat n) (Z.of_nat i) = Some (maxA, imax) ->
  pivot_step (Z.of_nat n) Tol (Z.of_nat i) s = Some (Continue s') ->
  exists m, imax = Z.of_nat m /\ (i <= m < n)%nat /\
            scan_ok (lu_A s) i n maxA m /\ s' = after_pivot n i m s.
Proof.
  intros Hok Hi Ef Hstep.
  destruct (pivot_step_spec n Tol i s Hok Hi) as [maxA' [m [E [Hscan [Hm Ep]]]]].
  rewrite E in Ef.
  assert (E1 : imax = Z.of_nat m) by congruence.
  assert (E2 : maxA = maxA') by congruence. subst maxA'.
  rewrite Ep in Hstep. destruct (maxA <? Tol)%float; [discriminate|].
  exists m. pose proof (scan_lo _ _ _ _ _ Hscan).
  split; [assumption|]. split; [lia|]. split; [assumption | congruence].
Qed.

(** What lines 34-42 do to [P] and to the rows, by the test of line 34. *)
Lemma pivot_step_exchange (n : nat) (Tol : float) (i : nat) (s s' : lu_state)
      (maxA : float) (imax : Z) :
  lu_ok n s -> (i < n)%nat ->
  find_pivot (lu_A s) (Z.of_nat n) (Z.of_nat i) = Some (maxA, imax) ->
  pivot_step (Z.of_nat n) Tol (Z.of_nat i) s = Some (Continue s') ->
  exists m c,
    imax = Z.of_nat m /\ (i <= m < n)%nat /\
    nth_error (lu_P s) n = Some c /\
    (m = i -> lu_P s' = lu_P s /\ lu_A s' = eliminate_pure i (lu_A s)) /\
    (m <> i ->
     nth_error (lu_P s') n = Some (wrap (c + 1)) /\
     lu_P s' = upd (swap_rows 0 i m (lu_P s)) n (wrap (c + 1)) /\
     lu_A s' = eliminate_pure i (swap_rows [] i m (lu_A s))).
Proof.
  intros Hok Hi Ef Hstep.
  destruct (pivot_step_chosen n Tol i s s' maxA imax Hok Hi Ef Hstep)
    as [m [Em [Hm [_ ->]]]].
  pose proof (ok_count _ _ Hok) as HC. pose proof (ok_lenP _ _ Hok) as HP.
  eexists m, _. split; [assumption|]. split; [assumption|].
  split; [exact HC|]. unfold after_pivot. split.
  - intros ->. rewrite Nat.eqb_refl. cbn [lu_A lu_P]. auto.
  - intros Hne. destruct (Nat.eqb_spec m i) as [->|_]; [contradiction|].
    cbn [lu_A lu_P exchange_pure].
    rewrite (nth_error_nth _ _ 0 HC).
    split; [|split; reflexivity].
    apply nth_error_upd_same. rewrite length_swap_rows. lia.
Qed.

Lemma row_exchanges_reaches (n : nat) (Tol : float) (A : list (list float))
      (i : nat) (s : lu_state) (k : nat) :
  row_exchanges n Tol A i s k -> reaches n Tol A i s.
Proof.
  intros H. induction H as [|i s s' k maxA imax _ IH Hi _ Hstep]; [constructor|].
  now apply (reaches_next n Tol A i s).
Qed.

(** The exchanges counted from the scans are those the state has logged. *)
Lemma row_exchanges_log (n : nat) (Tol : float) (A : list (list float))
      (i : nat) (s : lu_state) (k : nat) :
  Z.of_nat n < uint_max -> square n A ->
  row_exchanges n Tol A i s k -> length (lu_swaps s) = k /\ (k <= i)%nat.
Proof.
  intros Hn HA H.
  induction H as [|i s s' k maxA imax Hr [IH Hle] Hi Ef Hstep]; [split; reflexivity|].
  destruct (reaches_ok n Tol A i s Hn HA (row_exchanges_reaches _ _ _ _ _ _ Hr))
    as [Hok _].
  destruct (pivot_step_chosen n Tol i s s' maxA imax Hok Hi Ef Hstep)
    as [m [-> [Hm [_ ->]]]].
  unfold after_pivot.
  destruct (Nat.eqb_spec m i) as [->|Hne].
  - rewrite Z.eqb_refl. cbn [lu_swaps]. split; [assumption | lia].
  - destruct (Z.eqb_spec (Z.of_nat m) (Z.of_nat i)); [lia|].
    cbn [lu_swaps exchange_pure length]. split; lia.
Qed.

Lemma reaches_row_exchanges (n : nat) (Tol : float) (A : list (list float))
      (i : nat) (s : lu_state) :
  Z.of_nat n < uint_max -> square n A ->
  reaches n Tol A i s -> exists k, row_exchanges n Tol A i s k.
Proof.
  intros Hn HA H.
  induction H as [|i s s' Hr [k IH] Hi Hstep]; [exists 0%nat; constructor|].
  destruct (reaches_ok n Tol A i s Hn HA Hr) as [Hok _].
  destruct (pivot_step_spec n Tol i s Hok Hi) as [maxA [m [E _]]].
  eexists. apply (exchanges_next n Tol A i s s' k maxA (Z.of_nat m)); eassumption.
Qed.

(** C4.  For [N >= 1], LUPDecompose first sets the permutation vector to
    [0, 1, ..., N] (so [P[N] = N]).  In every turn of the main loop that
    goes on, the scan chooses a row [m]: when [m] is the row [i] of the
    turn, [P] is left as it is and no row moves; otherwise the rows [i] and
    [m] of the matrix and the entries [i] and [m] of [P] are exchanged and
    [P[N]] grows by one.  When the function returns, [P[N]] is [N] plus the
    number [k] of turns in which the scan chose another row, so [P[N] - N]
    is the number of row exchanges performed (in [unsigned int] arithmetic,
    and in plain integers as long as [2 * N] fits an [unsigned int]). *)
Theorem C4_swap_counter
        (n : nat) (Tol : float) (A : list (list float)) (P : list Z) :
  (1 <= n)%nat -> Z.of_nat n < uint_max -> square n A -> length P = S n ->
  init_P (Z.of_nat n) P = Some (iota (S n)) /\
  (forall i, (i <= n)%nat -> nth_error (iota (S n)) i = Some (Z.of_nat i)) /\
  (forall i s s' maxA imax,
      reaches n Tol A i s -> (i < n)%nat ->
      find_pivot (lu_A s) (Z.of_nat n) (Z.of_nat i) = Some (maxA, imax) ->
      pivot_step (Z.of_nat n) Tol (Z.of_nat i) s = Some (Continue s') ->
      exists m c,
        imax = Z.of_nat m /\ (i <= m < n)%nat /\
        nth_error (lu_P s) n = Some c /\
        (m = i -> lu_P s' = lu_P s /\ lu_A s' = eliminate_pure i (lu_A s)) /\
        (m <> i ->
         nth_error (lu_P s') n = Some (wrap (c + 1)) /\
         lu_P s' = upd (swap_rows 0 i m (lu_P s)) n (wrap (c + 1)) /\
         lu_A s' = eliminate_pure i (swap_rows [] i m (lu_A s)))) /\
  exists r s j k,
    LUPDecompose_run A (Z.of_nat n) Tol P = Some (r, s) /\
    LUPDecompose A (Z.of_nat n) Tol P = Some (r, lu_A s, lu_P s) /\
    (r = 0 \/ r = 1) /\ (r = 1 -> j = n) /\
    row_exchanges n Tol A j s k /\ (k <= j <= n)%nat /\
    nth_error (lu_P s) n = Some (wrap (Z.of_nat n + Z.of_nat k)) /\
    wrap (wrap (Z.of_nat n + Z.of_nat k) - Z.of_nat n) = Z.of_nat k /\
    (2 * Z.of_nat n <= uint_max ->
     nth_error (lu_P s) n = Some (Z.of_nat n + Z.of_nat k)).
Proof.
  intros Hn1 Hn HA HP.
  split; [now apply init_P_spec|].
  split; [intros i Hi; apply nth_error_iota; lia|].
  split.
  - intros i s s' maxA imax Hr Hi Ef Hstep.
    destruct (reaches_ok n Tol A i s Hn HA Hr) as [Hok _].
    now apply (pivot_step_exchange n Tol i s s' maxA imax).
  - destruct (LUPDecompose_run_spec n Tol A P Hn HA HP) as [r [s [E H]]].
    assert (Hr : exists j, (j <= n)%nat /\ (r = 1 -> j = n) /\ reaches n Tol A j s).
    { destruct H as [[-> [Hr _]] | [-> [_ [j [Hj Hr]]]]].
      - exists n. auto.
      - exists j. split; [lia|]. split; [discriminate | assumption]. }
    destruct Hr as [j [Hj [Hj1 Hr]]].
    destruct (reaches_ok n Tol A j s Hn HA Hr) as [Hok _].
    destruct (reaches_row_exchanges n Tol A j s Hn HA Hr) as [k Hk].
    destruct (row_exchanges_log n Tol A j s k Hn HA Hk) as [EL Hle].
    exists r, s, j, k.
    split; [assumption|]. split; [unfold LUPDecompose; now rewrite E|].
    split; [destruct H as [[-> _] | [-> _]]; auto|].
    split; [assumption|]. split; [assumption|]. split; [lia|].
    split; [rewrite <- EL; apply (ok_count _ _ Hok)|].
    split; [apply wrap_counter; [assumption | lia]|].
    intros H2n. rewrite <- (wrap_small (Z.of_nat n + Z.of_nat k)) by lia.
    rewrite <- EL. apply (ok_count _ _ Hok).
Qed.

(** On [[1, 2], [2, 8]] the scan of column 0 chooses row 1: one exchange,
    and [P] is left as [1, 0, 3]. *)
Lemma C4_witness :
  exists s,
    LUPDecompose_run [[1; 2]; [2; 8]]%float 2 tol [0; 0; 0] = Some (1, s) /\
    lu_A s = [[2; 8]; [0.5; -2]]%float /\
    lu_P s = [1; 0; 3] /\
    row_exchanges 2 tol [[1; 2]; [2; 8]]%float 2 s 1.
Proof.
  destruct (C4_swap_counter 2 tol [[1; 2]; [2; 8]]%float [0; 0; 0])
    as (_ & _ & _ & r & s & j & k & E & _ & _ & Hj & Hk & Hle & HP & _).
  - lia.
  - reflexivity.
  - split; [reflexivity | repeat constructor].
  - reflexivity.
  - vm_compute in E.
    assert (Er : r = 1) by congruence.
    assert (Es : s = mk_lu [[2; 8]; [0.5; -2]]%float [1; 0; 3] [(0, 1)]) by congruence.
    subst r s. specialize (Hj eq_refl). subst j.
    exists (mk_lu [[2; 8]; [0.5; -2]]%float [1; 0; 3] [(0, 1)]).
    split; [vm_compute; reflexivity|]. split; [reflexivity|]. split; [reflexivity|].
    assert (Ek : k = 1%nat).
    { destruct k as [|[|[|k]]]; [vm_compute in HP; discriminate | reflexivity
                                 | vm_compute in HP; discriminate | lia]. }
    now subst k.
Defined.

(** ** Singular shapes: a dead row, two equal rows *)

Lemma usable_pivot (A : list (list float)) (i n : nat) (maxA Tol : float) (imax : nat) :
  scan_ok A i n maxA imax ->
  (0 <? Tol)%float = true -> (maxA <? Tol)%float = false ->
  maxA = abs (entry A imax i) /\ (0 <? abs (entry A imax i))%float = true.
Proof.
  intros Hscan HT Ht.
  destruct (scan_which _ _ _ _ _ Hscan) as [[-> _] | [E [Hpos _]]].
  - congruence.
  - split; [assumption | now rewrite <- E].
Qed.

Lemma entry_elim_row (i c : nat) (p q : list float) :
  (i < c < length q)%nat ->
  nth c (elim_row_pure i p q) 0%float
  = (nth c q 0 - (nth i q 0 / nth i p 0) * nth c p 0)%float.
Proof.
  intros Hc. rewrite nth_elim_row_pure by lia.
  destruct (Nat.ltb_spec c i); [lia|].
  destruct (Nat.eqb_spec c i); [lia|]. reflexivity.
Qed.

Lemma step_dead (n : nat) (Tol : float) (i q : nat) (s : lu_state) :
  lu_ok n s -> (i <= q < n)%nat -> dead_row n (lu_A s) i q ->
  (0 <? Tol)%float = true ->
  pivot_step (Z.of_nat n) Tol (Z.of_nat i) s = Some Degenerate \/
  exists s' q',
    pivot_step (Z.of_nat n) Tol (Z.of_nat i) s = Some (Continue s') /\
    lu_ok n s' /\ (S i <= q' < n)%nat /\ dead_row n (lu_A s') (S i) q'.
Proof.
  intros Hok Hq Hdead HT.
  destruct (pivot_step_spec n Tol i s Hok ltac:(lia))
    as [maxA [imax [_ [Hscan [Hm E]]]]].
  rewrite E. destruct (maxA <? Tol)%float eqn:Ht; [now left|]. right.
  destruct (usable_pivot _ _ _ _ _ _ Hscan HT Ht) as [_ Hpos].
  pose proof (scan_lo _ _ _ _ _ Hscan) as Hlo.
  assert (Hne : q <> imax).
  { intros ->. rewrite (zero_or_nan_abs _ (Hdead i ltac:(lia))) in Hpos. discriminate. }
  destruct (after_pivot_row n i imax q s Hok ltac:(lia) Hq Hne) as [Hq' Erow].
  exists (after_pivot n i imax s), (moved i imax q).
  split; [reflexivity|]. split; [apply lu_ok_after_pivot; auto; lia|]. split; [lia|].
  intros c Hc. unfold entry. rewrite Erow.
  pose proof (square_row n _ q (ok_square _ _ Hok) ltac:(lia)) as Lq.
  rewrite entry_elim_row by lia.
  apply zero_or_nan_sub; [apply (Hdead c); lia|].
  apply zero_or_nan_mul. apply zero_or_nan_div; [apply (Hdead i); lia | exact Hpos].
Qed.

Lemma loop_dead (n : nat) (Tol : float) :
  (0 <? Tol)%float = true ->
  forall (m i q : nat) (s : lu_state),
    (i + m = n)%nat -> lu_ok n s -> (i <= q < n)%nat -> dead_row n (lu_A s) i q ->
    exists s', pivot_loop m (Z.of_nat n) Tol (Z.of_nat i) s = Some (0, s').
Proof.
  intros HT. induction m as [|m IH]; intros i q s Him Hok Hq Hdead; [lia|].
  cbn [pivot_loop].
  destruct (step_dead n Tol i q s Hok Hq Hdead HT)
    as [E | [s' [q' [E [Hok' [Hq' Hdead']]]]]]; rewrite E; cbn [bind].
  - eauto.
  - replace (Z.of_nat i + 1) with (Z.of_nat (S i)) by lia.
    apply (IH (S i) q' s'); auto; lia.
Qed.

Lemma step_twin (n : nat) (Tol : float) (i q1 q2 : nat) (s : lu_state) :
  lu_ok n s -> (i <= q1)%nat -> (i <= q2)%nat -> equal_rows n (lu_A s) q1 q2 ->
  (0 <? Tol)%float = true ->
  pivot_step (Z.of_nat n) Tol (Z.of_nat i) s = Some Degenerate \/
  exists s',
    pivot_step (Z.of_nat n) Tol (Z.of_nat i) s = Some (Continue s') /\
    lu_ok n s' /\
    ((exists q, (S i <= q < n)%nat /\ dead_row n (lu_A s') (S i) q) \/
     (exists q1' q2', (S i <= q1')%nat /\ (S i <= q2')%nat /\
                      equal_rows n (lu_A s') q1' q2')).
Proof.
  intros Hok H1 H2 [Hne [L1 [L2 Erows]]] HT.
  destruct (pivot_step_spec n Tol i s Hok ltac:(lia))
    as [maxA [imax [_ [Hscan [Hm E]]]]].
  rewrite E. destruct (maxA <? Tol)%float eqn:Ht; [now left|]. right.
  destruct (usable_pivot _ _ _ _ _ _ Hscan HT Ht) as [_ Hpos].
  pose proof (scan_lo _ _ _ _ _ Hscan) as Hlo.
  exists (after_pivot n i imax s).
  split; [reflexivity|]. split; [apply lu_ok_after_pivot; auto; lia|].
  assert (Hcancel : forall q, (i <= q < n)%nat -> q <> imax ->
                              nth q (lu_A s) [] = nth imax (lu_A s) [] ->
                              exists q', (S i <= q' < n)%nat /\
                                         dead_row n (lu_A (after_pivot n i imax s)) (S i) q').
  { intros q Hq Hqm Eq.
    destruct (after_pivot_row n i imax q s Hok ltac:(lia) Hq Hqm) as [Hq' Erow].
    exists (moved i imax q). split; [lia|].
    intros c Hc. unfold entry. rewrite Erow, Eq.
    pose proof (square_row n _ imax (ok_square _ _ Hok) Hm) as Lm.
    rewrite entry_elim_row by lia.
    apply zero_or_nan_cancel. exact Hpos. }
  destruct (Nat.eq_dec q1 imax) as [E1|N1]; [|destruct (Nat.eq_dec q2 imax) as [E2|N2]].
  - left. apply (Hcancel q2); [lia | congruence | congruence].
  - left. apply (Hcancel q1); [lia | congruence | congruence].
  - right.
    destruct (after_pivot_row n i imax q1 s Hok ltac:(lia) ltac:(lia) N1) as [P1 R1].
    destruct (after_pivot_row n i imax q2 s Hok ltac:(lia) ltac:(lia) N2) as [P2 R2].
    exists (moved i imax q1), (moved i imax q2).
    split; [lia|]. split; [lia|]. split; [|split; [lia|split; [lia|]]].
    + unfold moved.
      destruct (Nat.eqb_spec q1 i), (Nat.eqb_spec q2 i),
               (Nat.eqb_spec q1 imax), (Nat.eqb_spec q2 imax); lia.
    + now rewrite R1, R2, Erows.
Qed.

Lemma loop_twin (n : nat) (Tol : float) :
  (0 <? Tol)%float = true ->
  forall (m i q1 q2 : nat) (s : lu_state),
    (i + m = n)%nat -> lu_ok n s -> (i <= q1)%nat -> (i <= q2)%nat ->
    equal_rows n (lu_A s) q1 q2 ->
    exists s', pivot_loop m (Z.of_nat n) Tol (Z.of_nat i) s = Some (0, s').
Proof.
  intros HT. induction m as [|m IH]; intros i q1 q2 s Him Hok H1 H2 Heq.
  - destruct Heq as [_ [L1 _]]. lia.
  - cbn [pivot_loop].
    destruct (step_twin n Tol i q1 q2 s Hok H1 H2 Heq HT)
      as [E | [s' [E [Hok' H]]]]; rewrite E; cbn [bind].
    + eauto.
    + replace (Z.of_nat i + 1) with (Z.of_nat (S i)) by lia.
      destruct H as [[q [Hq Hdead]] | [q1' [q2' [H1' [H2' Heq']]]]].
      * apply (loop_dead n Tol HT m (S i) q s'); auto; lia.
      * apply (IH (S i) q1' q2' s'); auto; lia.
Qed.

Lemma zero_row_dead (n : nat) (A : list (list float)) (q : nat) :
  square n A -> (q < n)%nat -> zero_row A q -> dead_row n A 0 q.
Proof.
  intros HA Hq Hz c Hc. apply is_zero_zero_or_nan.
  unfold zero_row in Hz. rewrite Forall_forall in Hz. apply Hz.
  unfold entry. apply nth_In. rewrite (square_row n A q HA Hq). lia.
Qed.

(** A matrix with a zero row or with two equal rows fails the decomposition
    for every positive tolerance. *)
Lemma singular_shape_fails (n : nat) (Tol : float) (A : list (list float)) (P : list Z) :
  Z.of_nat n < uint_max -> square n A -> length P = S n ->
  (0 <? Tol)%float = true ->
  (exists q, (q < n)%nat /\ zero_row A q) \/ (exists q1 q2, equal_rows n A q1 q2) ->
  exists s, LUPDecompose_run A (Z.of_nat n) Tol P = Some (0, s).
Proof.
  intros Hn HA HP HT Hshape. unfold LUPDecompose_run.
  rewrite init_P_spec by assumption. cbn [bind]. rewrite Nat2Z.id.
  change 0 with (Z.of_nat 0).
  pose proof (lu_ok_start n A Hn HA) as Hok.
  destruct Hshape as [[q [Hq Hz]] | [q1 [q2 Heq]]].
  - apply (loop_dead n Tol HT n 0 q); auto; [lia|].
    now apply zero_row_dead.
  - apply (loop_twin n Tol HT n 0 q1 q2); auto; lia.
Qed.

(** C5.  A square matrix ([N >= 1]) with a zero row, or with two identical
    rows, makes LUPDecompose return 0, for every positive tolerance, and
    LUPSolve return 1 with the output vector untouched. *)
Theorem C5_singular_shapes_fail
        (n : nat) (Tol : float) (A : list (list float)) (P : list Z)
        (x b : list float) :
  (1 <= n)%nat -> Z.of_nat n < uint_max -> square n A -> length P = S n ->
  (0 <? Tol)%float = true ->
  (exists q, (q < n)%nat /\ zero_row A q) \/ (exists q1 q2, equal_rows n A q1 q2) ->
  (exists A' P', LUPDecompose A (Z.of_nat n) Tol P = Some (0, A', P')) /\
  (exists A', LUPSolve x A b (Z.of_nat n) = Some (1, x, A')).
Proof.
  intros Hn1 Hn HA HP HT Hshape. split.
  - destruct (singular_shape_fails n Tol A P Hn HA HP HT Hshape) as [s E].
    exists (lu_A s), (lu_P s). unfold LUPDecompose. now rewrite E.
  - destruct (singular_shape_fails n tol A (repeat 0 (S n)) Hn HA
                                   (repeat_length _ _) tol_pos Hshape) as [s E].
    exists (lu_A s). rewrite (LUPSolve_unfold x A b n 0 s Hn E). reflexivity.
Qed.

Lemma C5_witness :
  exists A', LUPSolve [7; 8]%float [[1; 2]; [1; 2]]%float [3; 4]%float 2
             = Some (1, [7; 8]%float, A').
Proof.
  apply (C5_singular_shapes_fail 2 tol [[1; 2]; [1; 2]]%float [0; 0; 0]
                                 [7; 8]%float [3; 4]%float).
  - lia.
  - reflexivity.
  - split; [reflexivity | repeat constructor].
  - reflexivity.
  - reflexivity.
  - right. exists 0%nat, 1%nat. repeat split; simpl; lia.
Defined.

(** ** Comparisons between numbers that are not NaN *)









(** ** Two calls with different output vectors *)

Lemma orel_bind {S T : Type} (R : S -> S -> Prop) (Q : T -> T -> Prop)
      (o1 o2 : option S) (f1 f2 : S -> option T) :
  orel R o1 o2 ->
  (forall a b, R a b -> orel Q (f1 a) (f2 b)) ->
  orel Q (bind o1 f1) (bind o2 f2).
Proof.
  destruct o1, o2; simpl; intros H Hf; auto; contradiction.
Qed.

Lemma for_up_rel {S : Type} (R : nat -> S -> S -> Prop) (body : Z -> S -> option S) :
  forall (n lo : nat) (s1 s2 : S),
    R lo s1 s2 ->
    (forall k a b, (lo <= k < lo + n)%nat -> R k a b ->
                   orel (R (Datatypes.S k)) (body (Z.of_nat k) a) (body (Z.of_nat k) b)) ->
    orel (R (lo + n)%nat) (for_up n (Z.of_nat lo) body s1) (for_up n (Z.of_nat lo) body s2).
Proof.
  induction n as [|n IH]; intros lo s1 s2 H0 Hstep.
  - simpl. now rewrite Nat.add_0_r.
  - cbn [for_up].
    apply (orel_bind (R (Datatypes.S lo))).
    + apply Hstep; [lia | assumption].
    + intros a b Hab.
      replace (Z.of_nat lo + 1) with (Z.of_nat (Datatypes.S lo)) by lia.
      replace (lo + Datatypes.S n)%nat with (Datatypes.S lo + n)%nat by lia.
      apply IH; [assumption|]. intros k a' b' Hk. apply Hstep. lia.
Qed.

Lemma for_down_rel {S : Type} (R : S -> S -> Prop) (body : Z -> S -> option S) :
  forall (n : nat) (hi : Z) (s1 s2 : S),
    R s1 s2 ->
    (forall k a b, hi - Z.of_nat n < k <= hi -> R a b ->
                   orel R (body k a) (body k b)) ->
    orel R (for_down n hi body s1) (for_down n hi body s2).
Proof.
  induction n as [|n IH]; intros hi s1 s2 H0 Hstep.
  - exact H0.
  - cbn [for_down].
    apply (orel_bind R).
    + apply Hstep; [lia | assumption].
    + intros a b Hab. apply IH; [assumption|].
      intros k a' b' Hk. apply Hstep. lia.
Qed.

Lemma get_nonneg {T : Type} (v : list T) (i : Z) :
  0 <= i -> get v i = nth_error v (Z.to_nat i).
Proof.
  intros H. unfold get. destruct (Z.ltb_spec i 0); [lia | reflexivity].
Qed.

Lemma get_neg {T : Type} (v : list T) (i : Z) : i < 0 -> get v i = None.
Proof.
  intros H. unfold get. destruct (Z.ltb_spec i 0); [reflexivity | lia].
Qed.

Lemma agree_set (k : nat) (x1 x2 : list float) (i : Z) (a : float) :
  agree k x1 x2 ->
  orel (fun y1 y2 => agree k y1 y2 /\
                     (0 <= i -> agree (S (Z.to_nat i)) y1 y2 \/ (Z.to_nat i > k)%nat))
       (set x1 i a) (set x2 i a).
Proof.
  intros [HL H]. unfold set. rewrite HL.
  destruct ((0 <=? i) && (i <? Z.of_nat (length x2))) eqn:E; [|exact I].
  apply andb_prop in E. destruct E as [E1 E2].
  apply Z.leb_le in E1. apply Z.ltb_lt in E2.
  simpl. split.
  - split; [now rewrite !length_upd|]. intros c Hc.
    rewrite !nth_error_upd, HL. now rewrite H.
  - intros _. destruct (Nat.le_gt_cases (Z.to_nat i) k) as [Hle|Hgt]; [left|right; lia].
    split; [now rewrite !length_upd|]. intros c Hc.
    rewrite !nth_error_upd, HL.
    destruct (Nat.ltb_spec (Z.to_nat i) (length x2)); [|lia].
    destruct (Nat.eqb_spec c (Z.to_nat i)); [reflexivity|]. simpl.
    apply H. lia.
Qed.

Lemma agree_get (k : nat) (x1 x2 : list float) (i : Z) :
  agree k x1 x2 -> (Z.to_nat i < k)%nat -> get x1 i = get x2 i.
Proof.
  intros [HL H] Hi. destruct (Z.lt_ge_cases i 0) as [Hn|Hn].
  - now rewrite !get_neg.
  - rewrite !get_nonneg by assumption. now apply H.
Qed.

Lemma subst_entry_rel (A : list (list float)) (k : nat) (i j : Z) (x1 x2 : list float) :
  agree k x1 x2 -> (Z.to_nat i < k)%nat -> (Z.to_nat j < k)%nat ->
  orel (agree k) (subst_entry A i j x1) (subst_entry A i j x2).
Proof.
  intros Hag Hi Hj. unfold subst_entry.
  rewrite (agree_get k x1 x2 i Hag Hi).
  destruct (get x2 i) as [xi|]; [cbn [bind] | exact I].
  destruct (get A i) as [ri|]; [cbn [bind] | exact I].
  destruct (get ri j) as [aij|]; [cbn [bind] | exact I].
  rewrite (agree_get k x1 x2 j Hag Hj).
  destruct (get x2 j) as [xj|]; [cbn [bind] | exact I].
  pose proof (agree_set k x1 x2 i (xi - aij * xj)%float Hag) as H.
  destruct (set x1 i _), (set x2 i _); simpl in *; tauto.
Qed.

Lemma forward_row_rel (A : list (list float)) (b : list float) (P : list Z)
      (k : nat) (x1 x2 : list float) :
  agree k x1 x2 ->
  orel (agree (S k)) (forward_row A b P (Z.of_nat k) x1)
                     (forward_row A b P (Z.of_nat k) x2).
Proof.
  intros Hag. unfold forward_row.
  destruct (get P (Z.of_nat k)) as [pk|]; [cbn [bind] | exact I].
  destruct (get b pk) as [bk|]; [cbn [bind] | exact I].
  apply (orel_bind (agree (S k))).
  - pose proof (agree_set k x1 x2 (Z.of_nat k) bk Hag) as H.
    destruct (set x1 (Z.of_nat k) bk), (set x2 (Z.of_nat k) bk); simpl in *;
      try tauto.
    destruct H as [_ H]. rewrite Nat2Z.id in H.
    destruct (H ltac:(lia)) as [H'|H']; [assumption | lia].
  - intros y1 y2 Hy. rewrite Nat2Z.id. change 0 with (Z.of_nat 0).
    pose proof (for_up_rel (fun _ => agree (S k)) (subst_entry A (Z.of_nat k))
                           k 0 y1 y2 Hy) as H.
    apply H. intros j a c Hj Hac.
    apply subst_entry_rel; [assumption | lia | lia].
Qed.

Lemma backward_row_rel (A : list (list float)) (N : Z) (i : Z) (x1 x2 : list float) :
  agree (Z.to_nat N) x1 x2 -> 0 <= i < N ->
  orel (agree (Z.to_nat N)) (backward_row A N i x1) (backward_row A N i x2).
Proof.
  intros Hag Hi. unfold backward_row.
  apply (orel_bind (agree (Z.to_nat N))).
  - replace (i + 1) with (Z.of_nat (Z.to_nat (i + 1))) at 2 4 by lia.
    pose proof (for_up_rel (fun _ => agree (Z.to_nat N)) (subst_entry A i)
                           (Z.to_nat (N - (i + 1)))
                           (Z.to_nat (i + 1)) x1 x2 Hag) as H.
    apply H. intros j a c Hj Hac.
    apply subst_entry_rel; [assumption | lia | lia].
  - intros y1 y2 Hy.
    rewrite (agree_get (Z.to_nat N) y1 y2 i Hy) by lia.
    destruct (get y2 i) as [xi|]; [cbn [bind] | exact I].
    destruct (get A i) as [ri|]; [cbn [bind] | exact I].
    destruct (get ri i) as [aii|]; [cbn [bind] | exact I].
    pose proof (agree_set (Z.to_nat N) y1 y2 i (xi / aii)%float Hy) as H.
    destruct (set y1 i _), (set y2 i _); simpl in *; tauto.
Qed.

Lemma for_up_preserve {S : Type} (Q : S -> Prop) (body : Z -> S -> option S) :
  (forall k s s', Q s -> body k s = Some s' -> Q s') ->
  forall (n : nat) (i : Z) (s s' : S), Q s -> for_up n i body s = Some s' -> Q s'.
Proof.
  intros Hb. induction n as [|n IH]; intros i s s' Hs E.
  - injection E as <-. assumption.
  - cbn [for_up] in E. destruct (body i s) as [s1|] eqn:E1; [|discriminate].
    cbn [bind] in E. apply (IH (i + 1) s1 s'); [|assumption].
    now apply (Hb i s s1).
Qed.

Lemma for_down_preserve {S : Type} (Q : S -> Prop) (body : Z -> S -> option S) :
  (forall k s s', Q s -> body k s = Some s' -> Q s') ->
  forall (n : nat) (i : Z) (s s' : S), Q s -> for_down n i body s = Some s' -> Q s'.
Proof.
  intros Hb. induction n as [|n IH]; intros i s s' Hs E.
  - injection E as <-. assumption.
  - cbn [for_down] in E. destruct (body i s) as [s1|] eqn:E1; [|discriminate].
    cbn [bind] in E. apply (IH (i - 1) s1 s'); [|assumption].
    now apply (Hb i s s1).
Qed.

Lemma set_length {T : Type} (v v' : list T) (i : Z) (a : T) :
  set v i a = Some v' -> length v' = length v.
Proof.
  intros E. apply set_Some_inv in E. destruct E as [_ ->]. apply length_upd.
Qed.

Lemma subst_entry_length (A : list (list float)) (i k : Z) (x x' : list float) :
  subst_entry A i k x = Some x' -> length x' = length x.
Proof.
  unfold subst_entry. intros E.
  destruct (get x i); [cbn [bind] in E | discriminate].
  destruct (get A i) as [ri|]; [cbn [bind] in E | discriminate].
  destruct (get ri k); [cbn [bind] in E | discriminate].
  destruct (get x k); [cbn [bind] in E | discriminate].
  now apply set_length in E.
Qed.

Lemma forward_row_length (A : list (list float)) (b : list float) (P : list Z)
      (L : nat) (i : Z) (x x' : list float) :
  length x = L -> forward_row A b P i x = Some x' -> length x' = L.
Proof.
  unfold forward_row. intros HL E.
  destruct (get P i) as [pk|]; [cbn [bind] in E | discriminate].
  destruct (get b pk) as [bk|]; [cbn [bind] in E | discriminate].
  destruct (set x i bk) as [x1|] eqn:E1; [cbn [bind] in E | discriminate].
  apply set_length in E1.
  apply (for_up_preserve (fun y => length y = L) (subst_entry A i)) in E;
    [assumption | | congruence].
  intros k s s' Hs Es. apply subst_entry_length in Es. congruence.
Qed.

Lemma backward_row_length (A : list (list float)) (N : Z)
      (L : nat) (i : Z) (x x' : list float) :
  length x = L -> backward_row A N i x = Some x' -> length x' = L.
Proof.
  unfold backward_row. intros HL E.
  destruct (for_up _ _ _ x) as [x1|] eqn:E1; [cbn [bind] in E | discriminate].
  apply (for_up_preserve (fun y => length y = L) (subst_entry A i)) in E1;
    [ | | assumption].
  - destruct (get x1 i); [cbn [bind] in E | discriminate].
    destruct (get A i) as [ri|]; [cbn [bind] in E | discriminate].
    destruct (get ri i); [cbn [bind] in E | discriminate].
    apply set_length in E. congruence.
  - intros k s s' Hs Es. apply subst_entry_length in Es. congruence.
Qed.

(** LUPSolve never changes the length of the output vector. *)
Lemma LUPSolve_length (x : list float) (A : list (list float)) (b : list float) (N : Z)
      (r : Z) (x' : list float) (A' : list (list float)) :
  LUPSolve x A b N = Some (r, x', A') -> length x' = length x.
Proof.
  unfold LUPSolve. intros E.
  destruct (LUPDecompose A N tol _) as [[[ok A1] P1]|]; [cbn [bind] in E | discriminate].
  destruct (ok =? 0); [now injection E as _ <- _|].
  destruct (for_up _ _ _ x) as [x1|] eqn:E1; [cbn [bind] in E | discriminate].
  destruct (for_down _ _ _ x1) as [x2|] eqn:E2; [cbn [bind] in E | discriminate].
  injection E as _ <- _.
  apply (for_up_preserve (fun y => length y = length x)) in E1; [ | | reflexivity].
  - apply (for_down_preserve (fun y => length y = length x)) in E2; [assumption | | assumption].
    intros k s s' Hs Es. now apply (backward_row_length A1 N _ k s s').
  - intros k s s' Hs Es. now apply (forward_row_length A1 b P1 _ k s s').
Qed.

Lemma to_int_lt (N : Z) :
  0 <= N <= uint_max -> to_int (wrap (N - 1)) < N.
Proof.
  intros HN. unfold to_int, wrap, uint_max in *.
  destruct (Z.eq_dec N 0) as [->|Hne].
  - simpl. lia.
  - rewrite Z.mod_small by lia.
    destruct (Z.ltb_spec (N - 1) 2147483648); lia.
Qed.

(** Two calls of LUPSolve that differ in the output vector only. *)
Lemma LUPSolve_rel (x1 x2 : list float) (A : list (list float)) (b : list float) (N : Z) :
  0 <= N <= uint_max -> length x1 = length x2 ->
  orel (fun r1 r2 =>
          fst (fst r1) = fst (fst r2) /\ snd r1 = snd r2 /\
          ((fst (fst r1) = 1 /\ snd (fst r1) = x1 /\ snd (fst r2) = x2) \/
           (fst (fst r1) = 0 /\ agree (Z.to_nat N) (snd (fst r1)) (snd (fst r2)))))
       (LUPSolve x1 A b N) (LUPSolve x2 A b N).
Proof.
  intros HN HL. unfold LUPSolve.
  destruct (LUPDecompose A N tol _) as [[[ok A1] P1]|]; [cbn [bind] | exact I].
  destruct (ok =? 0).
  - simpl. auto 10.
  - apply (orel_bind (agree (Z.to_nat N))).
    + change 0 with (Z.of_nat 0).
      apply (for_up_rel agree (forward_row A1 b P1) (Z.to_nat N) 0 x1 x2).
      * split; [assumption|]. intros c Hc. lia.
      * intros k a c Hk Hac. now apply forward_row_rel.
    + intros y1 y2 Hy.
      apply (orel_bind (agree (Z.to_nat N))).
      * pose proof (to_int_lt N HN) as Hlt.
        apply for_down_rel; [assumption|].
        intros k a c Hk Hac.
        apply backward_row_rel; [assumption | lia].
      * intros z1 z2 Hz. simpl. auto 10.
Qed.







(** ** Empty samples *)

Lemma col_abs_max_none (A : list (list float)) (n i : nat) :
  (forall r, (i <= r < n)%nat -> (0 <? abs (entry A r i))%float = false) ->
  col_abs_max A n i = 0%float.
Proof.
  intros H. unfold col_abs_max, column_below.
  assert (G : forall l, (forall r, In r l -> (0 <? abs (entry A r i))%float = false) ->
                        fold_left fmax (map abs (map (fun r => entry A r i) l)) 0%float
                        = 0%float).
  { induction l as [|r l IH]; intros Hl; [reflexivity|].
    cbn [map fold_left]. unfold fmax at 2.
    rewrite (Hl r (or_introl eq_refl)). apply IH.
    intros r' Hr'. apply Hl. now right. }
  apply G. intros r Hr. apply in_seq in Hr. apply H. lia.
Qed.

Lemma entry_repeat (n r c : nat) :
  (r < n)%nat -> (c < n)%nat -> entry (repeat (repeat 0%float n) n) r c = 0%float.
Proof.
  intros Hr Hc. unfold entry.
  rewrite (nth_error_nth _ _ [] (nth_error_repeat_lt _ n r Hr)).
  now rewrite (nth_error_nth _ _ 0%float (nth_error_repeat_lt _ n c Hc)).
Qed.

Lemma XX_spec_nil (d : nat) : XX_spec [] d = repeat (repeat 0%float (S d)) (S d).
Proof.
  apply (matrix_ext (S d)); [apply square_XX_spec | apply square_repeat |].
  intros r c Hr Hc. unfold XX_spec.
  rewrite entry_tabulate, entry_repeat by assumption. reflexivity.
Qed.

Lemma XY_spec_nil (d : nat) : XY_spec [] [] d = repeat 0%float (S d).
Proof.
  symmetry. apply tabulate_ext; [apply repeat_length|].
  intros c Hc. now apply nth_error_repeat_lt.
Qed.

Lemma xxSum_spec_nil (d : nat) : xxSum_spec [] d = repeat 0%float (2 * d + 1).
Proof.
  symmetry. apply tabulate_ext; [apply repeat_length|].
  intros c Hc. now apply nth_error_repeat_lt.
Qed.

Lemma zero_matrix_degenerate (n : nat) :
  (1 <= n)%nat -> degenerate_pivot n tol (repeat (repeat 0%float n) n).
Proof.
  intros Hn. exists 0%nat, (mk_lu (repeat (repeat 0%float n) n) (iota (S n)) []).
  split; [constructor|]. split; [lia|]. cbn [lu_A].
  rewrite col_abs_max_none; [reflexivity|].
  intros r Hr. rewrite entry_repeat by lia. reflexivity.
Qed.

(** C10 (as amended).  With no samples and a degree [d] whose counters fit
    an [unsigned int] ([2*d+1 <= 4294967295]), a call whose vectors the free
    store serves adds nothing to the sums, builds the all-zero
    [(d+1) x (d+1)] matrix, fails on its first pivot column and returns 1,
    the coefficient vector being the caller's, resized to [d+1].  For every
    free store the call does that or throws because a request is refused,
    and it throws whenever the free store cannot give the [8 * (d+1)^2]
    bytes of the rows of the matrix. *)
Theorem C10_no_samples_is_degenerate
        (serve : nat -> Z -> Z -> bool) (out : list float) (d : nat) :
  Z.of_nat (2 * d + 1) <= uint_max ->
  accumulate [] [] (Z.of_nat d + 1) (Z.of_nat d + 1 + Z.of_nat d)
  = Some (repeat 0%float (S d), repeat 0%float (2 * d + 1)) /\
  normal_equations [] [] (Z.of_nat d)
  = Some (repeat (repeat 0%float (S d)) (S d), repeat 0%float (S d)) /\
  degenerate_pivot (S d) tol (repeat (repeat 0%float (S d)) (S d)) /\
  polyFit out [] [] (Z.of_nat d) = Some (1, resize out (Z.of_nat d + 1) 0%float) /\
  length (resize out (Z.of_nat d + 1) 0%float) = S d /\
  (run (polyFit_heap serve out [] [] (Z.of_nat d)) = Throws \/
   run (polyFit_heap serve out [] [] (Z.of_nat d))
   = Returns (1, resize out (Z.of_nat d + 1) 0%float)) /\
  ((forall k held bytes, serve k held bytes = true) ->
   run (polyFit_heap serve out [] [] (Z.of_nat d))
   = Returns (1, resize out (Z.of_nat d + 1) 0%float)) /\
  (forall limit,
      store_limit serve limit ->
      limit < 8 * (Z.of_nat d + 1) * (Z.of_nat d + 1) ->
      run (polyFit_heap serve out [] [] (Z.of_nat d)) = Throws).
Proof.
  intros Hd.
  assert (H0 : Z.of_nat (@length float []) <= uint_max) by (unfold uint_max; simpl; lia).
  assert (EP : polyFit out [] [] (Z.of_nat d)
               = Some (1, resize out (Z.of_nat d + 1) 0%float)).
  { rewrite (polyFit_unfold out [] [] d eq_refl H0 Hd).
    replace (Z.of_nat d + 1) with (Z.of_nat (S d)) by lia.
    rewrite XX_spec_nil, XY_spec_nil.
    destruct (LUPSolve_spec (S d) (resize out (Z.of_nat (S d)) 0%float)
                            (repeat 0%float (S d)) (repeat (repeat 0%float (S d)) (S d)))
      as [r [s [_ [_ H]]]].
    - unfold uint_max in *. lia.
    - apply square_repeat.
    - rewrite repeat_length. lia.
    - rewrite length_resize. lia.
    - destruct H as [[_ [_ [Hnd _]]] | [_ [_ [_ E]]]].
      + exfalso. apply Hnd. apply zero_matrix_degenerate. lia.
      + rewrite E. reflexivity. }
  replace (Z.of_nat d + 1 + Z.of_nat d) with (Z.of_nat (2 * d + 1)) by lia.
  split; [|split; [|split; [|split; [|split; [|split; [|split]]]]]].
  - replace (Z.of_nat d + 1) with (Z.of_nat (S d)) by lia.
    rewrite (accumulate_sums [] [] d eq_refl H0).
    now rewrite XY_spec_nil, xxSum_spec_nil.
  - rewrite (normal_equations_spec [] [] d eq_refl H0 Hd).
    now rewrite XX_spec_nil, XY_spec_nil.
  - apply zero_matrix_degenerate. lia.
  - exact EP.
  - rewrite length_resize. lia.
  - apply (polyFit_heap_result serve _ _ _ _ _ EP).
  - apply (polyFit_heap_result serve _ _ _ _ _ EP).
  - intros limit Hlim Hbig.
    apply (polyFit_heap_throws serve limit); try assumption;
      unfold uint_max in *; lia.
Qed.

Lemma C10_witness :
  run (polyFit_heap (machine 1024) [] [] [] 2) = Returns (1, [0; 0; 0]%float).
Proof.
  destruct (C10_no_samples_is_degenerate (machine 1024) [] 2)
    as (_ & _ & _ & _ & _ & [HT | HR] & _).
  - unfold uint_max; simpl; lia.
  - vm_compute in HT. discriminate.
  - exact HR.
Defined.

(** The claim as it stands fails at the largest degree: [inPolOrder + 1]
    wraps to 0 and the system is empty.  The only vector is [xxSum], of
    4294967295 entries: with 64 GiB to give, the free store serves it,
    LUPSolve has nothing to decompose and polyFit returns 0 with an empty
    coefficient vector; with 16 GiB the request is refused and polyFit
    throws.  In neither case does it return 1. *)
Lemma C10_counterexample :
  run (polyFit_heap (machine 68719476736) [] [] [] 4294967295) = Returns (0, []) /\
  run (polyFit_heap (machine 17179869184) [] [] [] 4294967295) = Throws.
Proof.
  split; lazy; reflexivity.
Qed.

(** * Further properties of the code *)

(** ** More on loops *)

Lemma for_up_app {S : Type} (body : Z -> S -> option S) (a b : nat) (i : Z) (s : S) :
  for_up (a + b) i body s
  = s' <- for_up a i body s ;; for_up b (i + Z.of_nat a) body s'.
Proof.
  revert i s. induction a as [|a IH]; intros i s.
  - cbn [Nat.add for_up bind]. now rewrite Z.add_0_r.
  - cbn [Nat.add for_up]. destruct (body i s) as [s1|]; [cbn [bind] | reflexivity].
    rewrite IH. now replace (i + 1 + Z.of_nat a) with (i + Z.of_nat (Datatypes.S a)) by lia.
Qed.

Lemma for_up_ext {S : Type} (body1 body2 : Z -> S -> option S) :
  forall (n lo : nat) (s : S),
    (forall k s0, (lo <= k < lo + n)%nat ->
                  body1 (Z.of_nat k) s0 = body2 (Z.of_nat k) s0) ->
    for_up n (Z.of_nat lo) body1 s = for_up n (Z.of_nat lo) body2 s.
Proof.
  induction n as [|n IH]; intros lo s H; [reflexivity|].
  cbn [for_up]. rewrite (H lo s) by lia.
  destruct (body2 (Z.of_nat lo) s) as [s1|]; [cbn [bind] | reflexivity].
  replace (Z.of_nat lo + 1) with (Z.of_nat (Datatypes.S lo)) by lia.
  apply IH. intros k s0 Hk. apply H. lia.
Qed.

Lemma for_up_keeps {S : Type} (Q : S -> Prop) (body : Z -> S -> option S) :
  forall (n lo : nat) (s s' : S),
    (forall k a b, (lo <= k < lo + n)%nat -> Q a ->
                   body (Z.of_nat k) a = Some b -> Q b) ->
    Q s -> for_up n (Z.of_nat lo) body s = Some s' -> Q s'.
Proof.
  induction n as [|n IH]; intros lo s s' H Hs E.
  - injection E as <-. assumption.
  - cbn [for_up] in E.
    destruct (body (Z.of_nat lo) s) as [s1|] eqn:E1; [cbn [bind] in E | discriminate].
    replace (Z.of_nat lo + 1) with (Z.of_nat (Datatypes.S lo)) in E by lia.
    apply (IH (Datatypes.S lo) s1 s'); [|apply (H lo s s1); auto; lia | assumption].
    intros k a b Hk. apply H. lia.
Qed.

Lemma for_down_keeps {S : Type} (Q : S -> Prop) (body : Z -> S -> option S) :
  forall (n : nat) (hi : Z) (s s' : S),
    (forall k a b, hi - Z.of_nat n < k <= hi -> Q a -> body k a = Some b -> Q b) ->
    Q s -> for_down n hi body s = Some s' -> Q s'.
Proof.
  induction n as [|n IH]; intros hi s s' H Hs E.
  - injection E as <-. assumption.
  - cbn [for_down] in E.
    destruct (body hi s) as [s1|] eqn:E1; [cbn [bind] in E | discriminate].
    apply (IH (hi - 1) s1 s'); [|apply (H hi s s1); auto; lia | assumption].
    intros k a b Hk. apply H. lia.
Qed.

(** ** The permutation vector is a permutation *)

Lemma moved_lt (n i m c : nat) :
  (i < n)%nat -> (m < n)%nat -> (c < n)%nat -> (moved m i c < n)%nat.
Proof.
  intros Hi Hm Hc. unfold moved.
  destruct (c =? m)%nat; [assumption|]. now destruct (c =? i)%nat.
Qed.

Lemma moved_inj (i m c1 c2 : nat) : moved m i c1 = moved m i c2 -> c1 = c2.
Proof.
  unfold moved.
  destruct (Nat.eqb_spec c1 m), (Nat.eqb_spec c1 i),
           (Nat.eqb_spec c2 m), (Nat.eqb_spec c2 i); lia.
Qed.

Lemma nth_exchanged_P (n i imax c : nat) (s : lu_state) :
  lu_ok n s -> (i < n)%nat -> (imax < n)%nat -> (c < n)%nat ->
  nth c (lu_P (exchange_pure n i imax s)) 0 = nth (moved imax i c) (lu_P s) 0.
Proof.
  intros Hok Hi Hm Hc. pose proof (ok_lenP _ _ Hok) as HP.
  unfold exchange_pure. cbn [lu_P].
  rewrite nth_upd. destruct (Nat.eqb_spec c n); [lia|]. cbn [andb].
  rewrite nth_swap_rows by lia. unfold moved.
  destruct (c =? imax)%nat; [reflexivity|]. now destruct (c =? i)%nat.
Qed.

Lemma nth_iota (n c : nat) : (c < n)%nat -> nth c (iota n) 0 = Z.of_nat c.
Proof.
  intros H. apply nth_error_nth. now apply nth_error_iota.
Qed.

Lemma perm_ok_start (n : nat) : perm_ok n (iota (S n)).
Proof.
  split.
  - intros c Hc. exists c. split; [apply nth_iota; lia | assumption].
  - intros c1 c2 H1 H2. rewrite !nth_iota by lia. lia.
Qed.

Lemma perm_ok_after_pivot (n i imax : nat) (s : lu_state) :
  lu_ok n s -> (i < n)%nat -> (imax < n)%nat ->
  perm_ok n (lu_P s) -> perm_ok n (lu_P (after_pivot n i imax s)).
Proof.
  intros Hok Hi Hm [Hr Hinj]. unfold after_pivot. cbn [lu_P].
  destruct (imax =? i)%nat; [split; assumption|].
  split.
  - intros c Hc. rewrite nth_exchanged_P by assumption.
    apply Hr. now apply moved_lt.
  - intros c1 c2 H1 H2. rewrite !nth_exchanged_P by assumption.
    intros E. apply Hinj in E; try (now apply moved_lt).
    now apply moved_inj in E.
Qed.

Lemma reaches_perm_ok (n : nat) (Tol : float) (A : list (list float)) (i : nat) (s : lu_state) :
  Z.of_nat n < uint_max -> square n A ->
  reaches n Tol A i s -> perm_ok n (lu_P s).
Proof.
  intros Hn HA H.
  induction H as [|i s s' Hr IH Hi Hstep]; [apply perm_ok_start|].
  destruct (reaches_ok n Tol A i s Hn HA Hr) as [Hok _].
  destruct (pivot_step_spec n Tol i s Hok Hi) as [maxA [imax [_ [_ [Hm E]]]]].
  rewrite E in Hstep. destruct (maxA <? Tol)%float; [discriminate|].
  injection Hstep as <-. now apply perm_ok_after_pivot.
Qed.

Lemma reaches_result_ok (n : nat) (Tol : float) (A : list (list float)) (P : list Z) :
  Z.of_nat n < uint_max -> square n A -> length P = S n ->
  exists r s j,
    LUPDecompose_run A (Z.of_nat n) Tol P = Some (r, s) /\
    LUPDecompose A (Z.of_nat n) Tol P = Some (r, lu_A s, lu_P s) /\
    reaches n Tol A j s /\ (j <= n)%nat /\ (r = 1 -> j = n) /\ (r = 0 \/ r = 1).
Proof.
  intros Hn HA HP.
  destruct (LUPDecompose_run_spec n Tol A P Hn HA HP) as [r [s [E H]]].
  assert (EL : LUPDecompose A (Z.of_nat n) Tol P = Some (r, lu_A s, lu_P s))
    by (unfold LUPDecompose; now rewrite E).
  destruct H as [[-> [Hr _]] | [-> [_ [j [Hj Hr]]]]].
  - exists 1, s, n. repeat split; auto.
  - exists 0, s, j. repeat split; auto; [lia | discriminate].
Qed.

(** X1.  Whatever LUPDecompose returns, it leaves an [N x N] matrix and a
    vector [P] of [N+1] entries whose first [N] entries are a permutation of
    [0, ..., N-1]. *)
Theorem X1_P_is_a_permutation
        (n : nat) (Tol : float) (A : list (list float)) (P : list Z) :
  Z.of_nat n < uint_max -> square n A -> length P = S n ->
  exists r A' P',
    LUPDecompose A (Z.of_nat n) Tol P = Some (r, A', P') /\
    square n A' /\ length P' = S n /\
    Permutation (firstn n P') (iota n).
Proof.
  intros Hn HA HP.
  destruct (reaches_result_ok n Tol A P Hn HA HP) as [r [s [j [_ [E [Hr _]]]]]].
  destruct (reaches_ok n Tol A j s Hn HA Hr) as [Hok _].
  destruct (reaches_perm_ok n Tol A j s Hn HA Hr) as [Hrange Hinj].
  pose proof (ok_lenP _ _ Hok) as HL.
  exists r, (lu_A s), (lu_P s).
  split; [assumption|]. split; [apply (ok_square _ _ Hok)|]. split; [assumption|].
  assert (HF : length (firstn n (lu_P s)) = n) by (rewrite length_firstn; lia).
  assert (Hnth : forall c, (c < n)%nat -> nth c (firstn n (lu_P s)) 0 = nth c (lu_P s) 0).
  { intros c Hc. rewrite nth_firstn.
    destruct (Nat.ltb_spec c n); [reflexivity | lia]. }
  apply NoDup_Permutation_bis.
  - apply (NoDup_nth _ 0). rewrite HF. intros c1 c2 H1 H2.
    rewrite !Hnth by assumption. now apply Hinj.
  - rewrite length_iota, HF. lia.
  - intros v Hv. destruct (In_nth _ _ 0 Hv) as [c [Hc <-]].
    rewrite HF in Hc. rewrite Hnth by assumption.
    destruct (Hrange c Hc) as [w [-> Hw]].
    unfold iota. apply in_map. apply in_seq. lia.
Qed.

Lemma X1_witness :
  exists r A' P',
    LUPDecompose [[1; 2]; [3; 4]]%float 2 tol [0; 0; 0] = Some (r, A', P') /\
    square 2 A' /\ length P' = 3%nat /\
    Permutation (firstn 2 P') (iota 2).
Proof.
  apply (X1_P_is_a_permutation 2 tol [[1; 2]; [3; 4]]%float [0; 0; 0]).
  - reflexivity.
  - split; [reflexivity | repeat constructor].
  - reflexivity.
Defined.

(** ** Finished rows and usable pivots *)

Lemma after_pivot_rows_above (n i imax k : nat) (s : lu_state) :
  lu_ok n s -> (i <= imax < n)%nat -> (k < i)%nat ->
  nth k (lu_A (after_pivot n i imax s)) [] = nth k (lu_A s) [].
Proof.
  intros Hok Hm Hk. pose proof (ok_square _ _ Hok) as HA. pose proof HA as [HL _].
  rewrite lu_A_after_pivot.
  rewrite (nth_eliminate_pure n) by (try apply square_swap_rows; auto; lia).
  destruct (Nat.leb_spec k i); [|lia].
  rewrite nth_swap_rows by lia.
  destruct (Nat.eqb_spec k imax); [lia|].
  destruct (Nat.eqb_spec k i); [lia|]. reflexivity.
Qed.

Lemma pivot_step_Continue (n : nat) (Tol : float) (i : nat) (s s' : lu_state) :
  lu_ok n s -> (i < n)%nat ->
  pivot_step (Z.of_nat n) Tol (Z.of_nat i) s = Some (Continue s') ->
  exists maxA imax,
    scan_ok (lu_A s) i n maxA imax /\ (i <= imax < n)%nat /\
    (maxA <? Tol)%float = false /\ s' = after_pivot n i imax s.
Proof.
  intros Hok Hi Hstep.
  destruct (pivot_step_spec n Tol i s Hok Hi) as [maxA [imax [_ [Hscan [Hm E]]]]].
  rewrite E in Hstep. destruct (maxA <? Tol)%float eqn:Ht; [discriminate|].
  injection Hstep as <-. exists maxA, imax.
  pose proof (scan_lo _ _ _ _ _ Hscan).
  split; [assumption|]. split; [lia|]. split; [assumption | reflexivity].
Qed.

(** X2.  A turn of the main loop at column [i] leaves the rows above [i]
    as they are, puts the row [imax] that the scan of lines 22-30 returns,
    unchanged, at row [i], and in every other row keeps the entries of the
    columns before [i] (the multipliers already stored), which move with
    their row. *)
Theorem X2_finished_part_is_kept
        (n : nat) (Tol : float) (i : nat) (s s' : lu_state) :
  lu_ok n s -> (i < n)%nat ->
  pivot_step (Z.of_nat n) Tol (Z.of_nat i) s = Some (Continue s') ->
  (forall k, (k < i)%nat -> nth k (lu_A s') [] = nth k (lu_A s) []) /\
  exists maxA imax,
    find_pivot (lu_A s) (Z.of_nat n) (Z.of_nat i) = Some (maxA, Z.of_nat imax) /\
    (i <= imax < n)%nat /\
    nth i (lu_A s') [] = nth imax (lu_A s) [] /\
    forall r c, (i <= r < n)%nat -> r <> imax -> (c < i)%nat ->
                (i < moved i imax r < n)%nat /\
                entry (lu_A s') (moved i imax r) c = entry (lu_A s) r c.
Proof.
  intros Hok Hi Hstep.
  destruct (pivot_step_spec n Tol i s Hok Hi) as [maxA [imax [Ef _]]].
  destruct (pivot_step_chosen n Tol i s s' maxA (Z.of_nat imax) Hok Hi Ef Hstep)
    as [m [Em [Hm [_ ->]]]].
  apply Nat2Z.inj in Em. subst m.
  split.
  - intros k Hk. now apply after_pivot_rows_above.
  - exists maxA, imax. split; [assumption|]. split; [assumption|].
    split; [now apply after_pivot_pivot_row|].
    intros r c Hr Hne Hc.
    destruct (after_pivot_row n i imax r s Hok Hm Hr Hne) as [Hpos Erow].
    split; [assumption|]. unfold entry. rewrite Erow.
    rewrite nth_elim_row_pure
      by (rewrite (square_row n _ r (ok_square _ _ Hok)); lia).
    destruct (Nat.ltb_spec c i); [reflexivity | lia].
Qed.

(** On [[1, 2], [2, 8]] the scan of column 0 returns row 1, and the turn
    leaves that row, [2, 8], at row 0. *)
Lemma X2_witness :
  find_pivot [[1; 2]; [2; 8]]%float 2 0 = Some (2%float, 1) /\
  nth 0 (lu_A (after_pivot 2 0 1 (mk_lu [[1; 2]; [2; 8]]%float [0; 1; 2] []))) []
  = [2; 8]%float.
Proof.
  destruct (X2_finished_part_is_kept
              2 tol 0 (mk_lu [[1; 2]; [2; 8]]%float [0; 1; 2] [])
              (after_pivot 2 0 1 (mk_lu [[1; 2]; [2; 8]]%float [0; 1; 2] [])))
    as [_ [maxA [imax [Ef [_ [Erow _]]]]]].
  - constructor; cbn [lu_A lu_P lu_swaps].
    + split; [reflexivity | repeat constructor].
    + reflexivity.
    + intros c Hc. destruct c as [|[|c]]; [exists 0%nat | exists 1%nat | lia];
        split; (reflexivity || lia).
    + reflexivity.
  - lia.
  - vm_compute. reflexivity.
  - cbn [lu_A] in Ef. change (Z.of_nat 2) with 2 in Ef. change (Z.of_nat 0) with 0 in Ef.
    split; [vm_compute; reflexivity|].
    assert (G : find_pivot [[1; 2]; [2; 8]]%float 2 0 = Some (2%float, 1))
      by (vm_compute; reflexivity).
    rewrite G in Ef.
    assert (Em : Z.of_nat imax = 1) by congruence.
    assert (imax = 1%nat) by lia. subst imax.
    rewrite Erow. reflexivity.
Defined.

(** The diagonal entries of the finished rows passed the tolerance test. *)
Lemma reaches_diagonal (n : nat) (Tol : float) (A : list (list float)) (i : nat) (s : lu_state) :
  Z.of_nat n < uint_max -> square n A -> (0 <? Tol)%float = true ->
  reaches n Tol A i s ->
  forall k, (k < i)%nat ->
            (0 <? abs (entry (lu_A s) k k))%float = true /\
            (abs (entry (lu_A s) k k) <? Tol)%float = false.
Proof.
  intros Hn HA HT H.
  induction H as [|i s s' Hr IH Hi Hstep]; intros k Hk; [lia|].
  destruct (reaches_ok n Tol A i s Hn HA Hr) as [Hok _].
  destruct (pivot_step_Continue n Tol i s s' Hok Hi Hstep)
    as [maxA [imax [Hscan [Hm [Ht ->]]]]].
  destruct (Nat.eq_dec k i) as [->|Hne].
  - unfold entry. rewrite after_pivot_pivot_row by assumption.
    fold (entry (lu_A s) imax i).
    destruct (usable_pivot _ _ _ _ _ _ Hscan HT Ht) as [E Hpos].
    split; [assumption | now rewrite <- E].
  - unfold entry. rewrite after_pivot_rows_above by (auto; lia).
    apply IH. lia.
Qed.

Lemma pos_not_NaN (p : float) : (0 <? abs p)%float = true -> is_NaN p = false.
Proof.
  intros H. unfold is_NaN.
  destruct (pos_abs_cases p H) as [[s ->] | [s [m [e ->]]]]; reflexivity.
Qed.

Lemma pos_not_zero (p : float) : (0 <? abs p)%float = true -> is_zero p = false.
Proof.
  intros H. unfold is_zero.
  destruct (pos_abs_cases p H) as [[s ->] | [s [m [e ->]]]]; reflexivity.
Qed.

(** X3.  When LUPDecompose succeeds with a positive tolerance, every
    diagonal entry of the factored matrix is neither zero nor NaN and is not
    below the tolerance in absolute value: the divisions by [A[i][i]] of
    lines 46 and 80 never divide by zero. *)
Theorem X3_successful_pivots_are_usable
        (n : nat) (Tol : float) (A : list (list float)) (P : list Z)
        (A' : list (list float)) (P' : list Z) :
  Z.of_nat n < uint_max -> square n A -> length P = S n ->
  (0 <? Tol)%float = true ->
  LUPDecompose A (Z.of_nat n) Tol P = Some (1, A', P') ->
  forall k, (k < n)%nat ->
            is_zero (entry A' k k) = false /\
            is_NaN (entry A' k k) = false /\
            (abs (entry A' k k) <? Tol)%float = false.
Proof.
  intros Hn HA HP HT E k Hk.
  destruct (reaches_result_ok n Tol A P Hn HA HP) as [r [s [j [_ [E' [Hr [_ [Hj _]]]]]]]].
  rewrite E in E'. injection E' as <- -> ->.
  rewrite (Hj eq_refl) in Hr.
  destruct (reaches_diagonal n Tol A n s Hn HA HT Hr k Hk) as [Hpos Hge].
  split; [now apply pos_not_zero|]. split; [now apply pos_not_NaN | assumption].
Qed.

Lemma X3_witness :
  is_zero (entry [[2; 1]; [0.5; 2.5]]%float 1 1) = false /\
  is_NaN (entry [[2; 1]; [0.5; 2.5]]%float 1 1) = false /\
  (abs (entry [[2; 1]; [0.5; 2.5]]%float 1 1) <? tol)%float = false.
Proof.
  apply (X3_successful_pivots_are_usable
           2 tol [[2; 1]; [1; 3]]%float [0; 0; 0]
           [[2; 1]; [0.5; 2.5]]%float [0; 1; 2]).
  - reflexivity.
  - split; [reflexivity | repeat constructor].
  - reflexivity.
  - reflexivity.
  - vm_compute. reflexivity.
  - lia.
Defined.

(** ** What LUPSolve writes *)

Lemma set_same_from (k : nat) (x y y' : list float) (i : Z) (a : float) :
  same_from k x y -> (Z.to_nat i < k)%nat -> set y i a = Some y' -> same_from k x y'.
Proof.
  intros [HL H] Hi E. apply set_Some_inv in E. destruct E as [_ ->]. split.
  - now rewrite length_upd.
  - intros c Hc. rewrite nth_error_upd_other by lia. now apply H.
Qed.

Lemma subst_entry_same_from (A : list (list float)) (k : nat) (x y y' : list float) (i j : Z) :
  same_from k x y -> (Z.to_nat i < k)%nat ->
  subst_entry A i j y = Some y' -> same_from k x y'.
Proof.
  intros HQ Hi E. unfold subst_entry in E.
  destruct (get y i); [cbn [bind] in E | discriminate].
  destruct (get A i) as [ri|]; [cbn [bind] in E | discriminate].
  destruct (get ri j); [cbn [bind] in E | discriminate].
  destruct (get y j); [cbn [bind] in E | discriminate].
  exact (set_same_from k x y y' i _ HQ Hi E).
Qed.

Lemma forward_row_same_from (A : list (list float)) (b : list float) (P : list Z)
      (k : nat) (x y y' : list float) (i : nat) :
  same_from k x y -> (i < k)%nat ->
  forward_row A b P (Z.of_nat i) y = Some y' -> same_from k x y'.
Proof.
  intros HQ Hi E. unfold forward_row in E.
  destruct (get P (Z.of_nat i)) as [pi|]; [cbn [bind] in E | discriminate].
  destruct (get b pi) as [bi|]; [cbn [bind] in E | discriminate].
  destruct (set y (Z.of_nat i) bi) as [y1|] eqn:E1; [cbn [bind] in E | discriminate].
  apply (set_same_from k x y y1) in E1; [|assumption|lia].
  change 0 with (Z.of_nat 0) in E.
  apply (for_up_keeps (same_from k x) _ _ _ _ _ (fun j a c _ Ha Ec =>
           subst_entry_same_from A k x a c (Z.of_nat i) (Z.of_nat j) Ha
                                 ltac:(lia) Ec) E1 E).
Qed.

Lemma backward_row_same_from (A : list (list float)) (N : Z)
      (k : nat) (x y y' : list float) (i : Z) :
  same_from k x y -> 0 <= i -> (Z.to_nat i < k)%nat ->
  backward_row A N i y = Some y' -> same_from k x y'.
Proof.
  intros HQ Hi0 Hi E. unfold backward_row in E.
  destruct (for_up _ _ _ y) as [y1|] eqn:E1; [cbn [bind] in E | discriminate].
  replace (i + 1) with (Z.of_nat (Z.to_nat (i + 1))) in E1 at 2 by lia.
  apply (for_up_keeps (same_from k x) _ _ _ _ _ (fun j a c _ Ha Ec =>
           subst_entry_same_from A k x a c i (Z.of_nat j) Ha Hi Ec) HQ) in E1.
  destruct (get y1 i); [cbn [bind] in E | discriminate].
  destruct (get A i) as [ri|]; [cbn [bind] in E | discriminate].
  destruct (get ri i); [cbn [bind] in E | discriminate].
  exact (set_same_from k x y1 y' i _ E1 Hi E).
Qed.

(** X4.  LUPSolve writes only [x[0..N-1]]: whatever it returns, the output
    vector keeps its length and its entries from position [N] on. *)
Theorem X4_solve_writes_only_first_N
        (x : list float) (A : list (list float)) (b : list float) (N : Z)
        (r : Z) (x' : list float) (A' : list (list float)) :
  0 <= N <= uint_max ->
  LUPSolve x A b N = Some (r, x', A') ->
  length x' = length x /\
  forall c, (Z.to_nat N <= c)%nat -> nth_error x' c = nth_error x c.
Proof.
  intros HN E. change (same_from (Z.to_nat N) x x').
  assert (H0 : same_from (Z.to_nat N) x x) by (split; auto).
  unfold LUPSolve in E.
  destruct (LUPDecompose A N tol _) as [[[ok A1] P1]|]; [cbn [bind] in E | discriminate].
  destruct (ok =? 0); [now injection E as _ <- _|].
  destruct (for_up _ _ _ x) as [x1|] eqn:E1; [cbn [bind] in E | discriminate].
  destruct (for_down _ _ _ x1) as [x2|] eqn:E2; [cbn [bind] in E | discriminate].
  injection E as _ <- _.
  change 0 with (Z.of_nat 0) in E1.
  assert (F : forall i a c, (0 <= i < 0 + Z.to_nat N)%nat ->
                            same_from (Z.to_nat N) x a ->
                            forward_row A1 b P1 (Z.of_nat i) a = Some c ->
                            same_from (Z.to_nat N) x c).
  { intros i a c Hi Ha Ec.
    apply (forward_row_same_from A1 b P1 (Z.to_nat N) x a c i Ha); [lia | exact Ec]. }
  apply (for_up_keeps _ _ (Z.to_nat N) 0 x x1 F H0) in E1.
  pose proof (to_int_lt N HN) as Hlt.
  set (i0 := to_int (wrap (N - 1))) in *.
  assert (B : forall i a c, i0 - Z.of_nat (Z.to_nat (i0 + 1)) < i <= i0 ->
                            same_from (Z.to_nat N) x a ->
                            backward_row A1 N i a = Some c ->
                            same_from (Z.to_nat N) x c).
  { intros i a c Hi Ha Ec.
    apply (backward_row_same_from A1 N (Z.to_nat N) x a c i Ha); [lia | lia | exact Ec]. }
  exact (for_down_keeps _ _ (Z.to_nat (i0 + 1)) i0 x1 x2 B E1 E2).
Qed.

Lemma X4_witness :
  length [1; 3; 9]%float = length [7; 8; 9]%float /\
  forall c, (Z.to_nat 2 <= c)%nat ->
            nth_error [1; 3; 9]%float c = nth_error [7; 8; 9]%float c.
Proof.
  apply (X4_solve_writes_only_first_N
           [7; 8; 9]%float [[2; 1]; [1; 3]]%float [5; 10]%float 2
           0 [1; 3; 9]%float [[2; 1]; [0.5; 2.5]]%float).
  - unfold uint_max. lia.
  - vm_compute. reflexivity.
Defined.

Lemma LUPSolve_empty (x : list float) (A : list (list float)) (b : list float) :
  LUPSolve x A b 0 = Some (0, x, A).
Proof.
  reflexivity.
Qed.

(** X5.  An empty system ([N = 0]) is solved without looking at the
    arguments: LUPSolve returns 0 and leaves [x] and [A] as they are (the
    start [N - 1] of the loop of line 75 is the [int] -1). *)
Theorem X5_empty_system_succeeds
        (x : list float) (A : list (list float)) (b : list float) :
  LUPSolve x A b 0 = Some (0, x, A).
Proof.
  apply LUPSolve_empty.
Qed.

(** X6.  LUPDecompose needs [N+1] entries in [P]: with fewer, the loop of
    lines 17-18 writes out of range. *)
Theorem X6_short_permutation_vector
        (n : nat) (Tol : float) (A : list (list float)) (P : list Z) :
  Z.of_nat n <= uint_max -> (length P <= n)%nat ->
  LUPDecompose A (Z.of_nat n) Tol P = None.
Proof.
  intros Hn HP. unfold LUPDecompose, LUPDecompose_run.
  assert (E : init_P (Z.of_nat n) P = None).
  { unfold init_P. destruct (Z.of_nat n =? uint_max); [reflexivity|].
    replace (Z.to_nat (Z.of_nat n + 1)) with (length P + S (n - length P))%nat by lia.
    rewrite for_up_app. change 0 with (Z.of_nat 0).
    destruct (for_up_inv (fun _ P' => length P' = length P)
                         (fun i P' => set P' i i) (length P) 0 P eq_refl)
      as [P1 [E1 HL]].
    - intros k P0 Hk HL0. exists (upd P0 k (Z.of_nat k)).
      split; [apply set_nat; lia | now rewrite length_upd].
    - rewrite E1. cbn [bind].
      replace (Z.of_nat 0 + Z.of_nat (length P)) with (Z.of_nat (length P)) by lia.
      cbn [for_up]. rewrite set_nat_None by lia. reflexivity. }
  rewrite E. reflexivity.
Qed.

Lemma X6_witness :
  LUPDecompose [[1; 2]; [3; 4]]%float 2 tol [0; 0] = None.
Proof.
  apply (X6_short_permutation_vector 2 tol [[1; 2]; [3; 4]]%float [0; 0]).
  - unfold uint_max. lia.
  - simpl. lia.
Defined.

(** ** Samples of different lengths *)

Lemma get_firstn {T : Type} (l : list T) (n i : nat) :
  (i < n)%nat -> get (firstn n l) (Z.of_nat i) = get l (Z.of_nat i).
Proof.
  intros H. rewrite !get_nat, nth_error_firstn.
  destruct (Nat.ltb_spec i n); [reflexivity | lia].
Qed.

Lemma power_body_firstn (inX inY : list float) (nCoef : Z) (i : nat) (j : Z)
      (st : list float * list float * float) :
  (i < length inX)%nat ->
  power_body inX (firstn (length inX) inY) nCoef (Z.of_nat i) j st
  = power_body inX inY nCoef (Z.of_nat i) j st.
Proof.
  intros Hi. unfold power_body. destruct st as [[XY xxSum] acc].
  now rewrite get_firstn.
Qed.

Lemma wrap_le (z : Z) : 0 <= z -> wrap z <= z.
Proof.
  intros H. unfold wrap. apply Z.mod_le; lia.
Qed.

(** X7.  polyFit reads [inY] only at the positions of [inX]: samples of
    [inY] beyond the length of [inX] are ignored. *)
Theorem X7_extra_y_samples_are_ignored
        (out inX inY : list float) (d : Z) :
  polyFit out inX inY d = polyFit out inX (firstn (length inX) inY) d.
Proof.
  unfold polyFit, normal_equations.
  assert (E : forall nc np,
             accumulate inX (firstn (length inX) inY) nc np = accumulate inX inY nc np).
  { intros nc np. unfold accumulate.
    pose proof (wrap_le (Z.of_nat (length inX)) ltac:(lia)) as Hw.
    pose proof (wrap_range (Z.of_nat (length inX))) as Hr.
    change 0 with (Z.of_nat 0).
    apply for_up_ext. intros i st Hi.
    unfold sample_body. destruct st as [XY xxSum].
    change 0 with (Z.of_nat 0).
    rewrite (for_up_ext (power_body inX (firstn (length inX) inY) nc (Z.of_nat i))
                        (power_body inX inY nc (Z.of_nat i))); [reflexivity|].
    intros j st Hj. apply power_body_firstn. lia. }
  now rewrite E.
Qed.

(** X8.  With fewer [y] than [x] samples polyFit reads [inY] out of range
    (undefined behaviour; the lengths are not checked). *)
Theorem X8_missing_y_samples_are_read_out_of_range
        (out inX inY : list float) (d : nat) :
  (length inY < length inX)%nat -> Z.of_nat (length inX) <= uint_max ->
  Z.of_nat (2 * d + 1) <= uint_max ->
  polyFit out inX inY (Z.of_nat d) = None.
Proof.
  intros HL Hfit Hd. unfold polyFit, normal_equations.
  rewrite (wrap_small (Z.of_nat d + 1)) by (unfold uint_max in *; lia).
  rewrite wrap_small by lia.
  replace (Z.of_nat d + 1) with (Z.of_nat (S d)) by lia.
  replace (Z.of_nat (S d) + Z.of_nat d) with (Z.of_nat (2 * d + 1)) by lia.
  assert (E : accumulate inX inY (Z.of_nat (S d)) (Z.of_nat (2 * d + 1)) = None).
  { unfold accumulate. rewrite wrap_small by lia. rewrite !Nat2Z.id.
    replace (length inX) with (length inY + S (length inX - S (length inY)))%nat at 1
      by lia.
    rewrite for_up_app. change 0 with (Z.of_nat 0).
    destruct (for_up_inv
                (fun _ st => length (fst st) = S d /\ length (snd st) = (2 * d + 1)%nat)
                (sample_body inX inY (Z.of_nat (S d)) (Z.of_nat (2 * d + 1)))
                (length inY) 0
                (repeat 0%float (S d), repeat 0%float (2 * d + 1)))
      as [[XY xxSum] [E1 [L1 L2]]].
    - cbn [fst snd]. now rewrite !repeat_length.
    - intros i [XY xxSum] Hi [L1 L2]. cbn [fst snd] in L1, L2.
      rewrite (sample_body_spec inX inY (S d) (2 * d + 1) i XY xxSum) by lia.
      eexists. split; [reflexivity|].
      destruct (length_add_sample (XY, xxSum) (nth i inX 0%float, nth i inY 0%float))
        as [-> ->].
      auto.
    - cbn [fst snd] in L1, L2. rewrite E1. cbn [bind].
      replace (Z.of_nat 0 + Z.of_nat (length inY)) with (Z.of_nat (length inY)) by lia.
      cbn [for_up]. unfold sample_body at 1. rewrite Nat2Z.id.
      replace (2 * d + 1)%nat with (S (2 * d)) by lia.
      cbn [for_up]. unfold power_body at 1.
      change (0 <? Z.of_nat (S d)) with true. cbv iota.
      rewrite get_None by lia. reflexivity. }
  rewrite E. reflexivity.
Qed.

Lemma X8_witness :
  polyFit [] [1; 2; 3]%float [1; 2]%float 1 = None.
Proof.
  apply (X8_missing_y_samples_are_read_out_of_range [] [1; 2; 3]%float [1; 2]%float 1).
  - simpl. lia.
  - unfold uint_max. simpl. lia.
  - unfold uint_max. simpl. lia.
Defined.

(** ** The largest degree *)



(** ** Systems of one equation *)

Lemma find_pivot_1x1 (a : float) :
  find_pivot [[a]] 1 0 = Some (fmax 0 (abs a), 0).
Proof.
  unfold find_pivot, fmax. change (Z.to_nat (1 - 0)) with 1%nat.
  cbn [for_up]. unfold scan_body.
  change (get [[a]] 0) with (Some [a]). cbn [bind].
  change (get [a] 0) with (Some a). cbn [bind].
  destruct (0 <? abs a)%float; reflexivity.
Qed.

Lemma LUPDecompose_1x1 (a : float) :
  LUPDecompose [[a]] 1 tol [0; 0]
  = if (fmax 0 (abs a) <? tol)%float then Some (0, [[a]], [0; 1])
    else Some (1, [[a]], [0; 1]).
Proof.
  unfold LUPDecompose, LUPDecompose_run.
  change (init_P 1 [0; 0]) with (Some [0; 1]). cbn [bind].
  change (Z.to_nat 1) with 1%nat. cbn [pivot_loop].
  unfold pivot_step. cbn [lu_A]. rewrite find_pivot_1x1. cbn [bind].
  destruct (fmax 0 (abs a) <? tol)%float; reflexivity.
Qed.

Lemma LUPSolve_1x1 (x0 b0 a : float) (xs bs : list float) :
  LUPSolve (x0 :: xs) [[a]] (b0 :: bs) 1
  = if (fmax 0 (abs a) <? tol)%float then Some (1, x0 :: xs, [[a]])
    else Some (0, (b0 / a)%float :: xs, [[a]]).
Proof.
  unfold LUPSolve.
  change (repeat 0 (Z.to_nat (wrap (1 + 1)))) with [0; 0].
  rewrite LUPDecompose_1x1.
  destruct (fmax 0 (abs a) <? tol)%float; reflexivity.
Qed.

(** X10.  A system of one equation [a * x = b]: LUPSolve returns 1 and
    leaves [x] when [|a|] is below the tolerance (or [a] is a NaN), and
    otherwise returns 0 with [x[0] = b / a], the matrix unchanged. *)
Theorem X10_one_equation
        (x0 b0 a : float) (xs bs : list float) :
  LUPSolve (x0 :: xs) [[a]] (b0 :: bs) 1
  = if (fmax 0 (abs a) <? tol)%float then Some (1, x0 :: xs, [[a]])
    else Some (0, (b0 / a)%float :: xs, [[a]]).
Proof.
  apply LUPSolve_1x1.
Qed.

(** X11.  A fit of degree 0 returns one coefficient, the sum of the [y]
    (each multiplied by the power [1]) divided by the count of the samples
    (the sum of the powers [1]), both accumulated in [double]; it fails when
    that count is below the tolerance, as with no sample. *)
Theorem X11_constant_fit
        (out inX inY : list float) :
  length inX = length inY -> Z.of_nat (length inX) <= uint_max ->
  polyFit out inX inY 0
  = if (fmax 0 (abs (power_sum inX 0)) <? tol)%float
    then Some (1, resize out 1 0%float)
    else Some (0, [(moment inX inY 0 / power_sum inX 0)%float]).
Proof.
  intros HL Hfit. change 0 with (Z.of_nat 0) at 1.
  rewrite (polyFit_unfold out inX inY 0 HL Hfit)
    by (unfold uint_max; simpl; lia).
  change (XX_spec inX 0) with [[power_sum inX 0]].
  change (XY_spec inX inY 0) with [moment inX inY 0].
  change (Z.of_nat 1) with 1.
  destruct out as [|o t].
  - change (resize [] 1 0%float) with [0%float].
    rewrite LUPSolve_1x1.
    destruct (fmax 0 (abs (power_sum inX 0)) <? tol)%float; reflexivity.
  - assert (E : resize (o :: t) 1 0%float = [o]).
    { unfold resize. change (Z.to_nat 1) with 1%nat. reflexivity. }
    rewrite E, LUPSolve_1x1.
    destruct (fmax 0 (abs (power_sum inX 0)) <? tol)%float; reflexivity.
Qed.

Lemma X11_witness :
  polyFit [] [1; 2; 3; 4]%float [2; 4; 6; 8]%float 0
  = if (fmax 0 (abs (power_sum [1; 2; 3; 4]%float 0)) <? tol)%float
    then Some (1, resize [] 1 0%float)
    else Some (0, [(moment [1; 2; 3; 4]%float [2; 4; 6; 8]%float 0
                    / power_sum [1; 2; 3; 4]%float 0)%float]).
Proof.
  apply (X11_constant_fit [] [1; 2; 3; 4]%float [2; 4; 6; 8]%float).
  - reflexivity.
  - unfold uint_max. simpl. lia.
Defined.

(** ** A zero column *)

Lemma zero_or_nan_mul_r (m a : float) :
  zero_or_nan a = true -> zero_or_nan (m * a) = true.
Proof.
  unfold zero_or_nan. rewrite mul_spec.
  destruct (Prim2SF a) as [[|]|[|]| |[|] am ae]; try discriminate;
    destruct (Prim2SF m) as [[|]|[|]| |[|] mm me]; reflexivity.
Qed.

Lemma dead_col_swap (n i m c : nat) (A : list (list float)) :
  square n A -> (i < n)%nat -> (m < n)%nat ->
  dead_col n A c -> dead_col n (swap_rows [] i m A) c.
Proof.
  intros [HL _] Hi Hm H r Hr. unfold entry.
  rewrite nth_swap_rows by lia.
  destruct (r =? m)%nat; [apply (H i Hi)|].
  destruct (r =? i)%nat; [apply (H m Hm) | apply (H r Hr)].
Qed.

Lemma dead_col_eliminate (n i c : nat) (A : list (list float)) :
  square n A -> (i < c < n)%nat ->
  dead_col n A c -> dead_col n (eliminate_pure i A) c.
Proof.
  intros HA Hc H r Hr. unfold entry.
  rewrite (nth_eliminate_pure n) by assumption.
  destruct (r <=? i)%nat; [apply (H r Hr)|].
  rewrite entry_elim_row by (rewrite (square_row n A r HA Hr); lia).
  apply zero_or_nan_sub; [apply (H r Hr)|].
  apply zero_or_nan_mul_r. apply (H i). lia.
Qed.

Lemma loop_dead_col (n : nat) (Tol : float) (c : nat) :
  (0 <? Tol)%float = true -> (c < n)%nat ->
  forall (m i : nat) (s : lu_state),
    (i + m = n)%nat -> (i <= c)%nat -> lu_ok n s -> dead_col n (lu_A s) c ->
    exists s', pivot_loop m (Z.of_nat n) Tol (Z.of_nat i) s = Some (0, s').
Proof.
  intros HT Hc. induction m as [|m IH]; intros i s Him Hic Hok Hdead; [lia|].
  cbn [pivot_loop].
  destruct (pivot_step_spec n Tol i s Hok ltac:(lia))
    as [maxA [imax [_ [Hscan [Hm E]]]]].
  rewrite E. destruct (maxA <? Tol)%float eqn:Ht; cbn [bind]; [eauto|].
  destruct (usable_pivot _ _ _ _ _ _ Hscan HT Ht) as [_ Hpos].
  pose proof (scan_lo _ _ _ _ _ Hscan) as Hlo.
  destruct (Nat.eq_dec i c) as [->|Hne].
  - rewrite (zero_or_nan_abs _ (Hdead imax Hm)) in Hpos. discriminate.
  - replace (Z.of_nat i + 1) with (Z.of_nat (S i)) by lia.
    apply IH; [lia | lia | apply lu_ok_after_pivot; auto; lia |].
    rewrite lu_A_after_pivot.
    apply dead_col_eliminate; [|lia|].
    + apply square_swap_rows; [apply (ok_square _ _ Hok) | lia | lia].
    + apply dead_col_swap; [apply (ok_square _ _ Hok) | lia | lia | assumption].
Qed.

(** X12.  A square matrix with a zero column makes LUPDecompose return 0,
    for every positive tolerance, and LUPSolve return 1 with the output
    vector untouched. *)
Theorem X12_zero_column_fails
        (n : nat) (Tol : float) (A : list (list float)) (P : list Z)
        (x b : list float) (c : nat) :
  Z.of_nat n < uint_max -> square n A -> length P = S n ->
  (0 <? Tol)%float = true -> (c < n)%nat -> zero_col n A c ->
  (exists A' P', LUPDecompose A (Z.of_nat n) Tol P = Some (0, A', P')) /\
  (exists A', LUPSolve x A b (Z.of_nat n) = Some (1, x, A')).
Proof.
  intros Hn HA HP HT Hc Hz.
  assert (Hdead : dead_col n A c).
  { intros r Hr. apply is_zero_zero_or_nan. now apply Hz. }
  assert (F : forall T P0, (0 <? T)%float = true -> length P0 = S n ->
                           exists s, LUPDecompose_run A (Z.of_nat n) T P0 = Some (0, s)).
  { intros T P0 HT0 HP0. unfold LUPDecompose_run.
    rewrite init_P_spec by assumption. cbn [bind]. rewrite Nat2Z.id.
    change 0 with (Z.of_nat 0).
    apply (loop_dead_col n T c HT0 Hc n 0); auto; try lia.
    now apply lu_ok_start. }
  split.
  - destruct (F Tol P HT HP) as [s E].
    exists (lu_A s), (lu_P s). unfold LUPDecompose. now rewrite E.
  - destruct (F tol (repeat 0 (S n)) tol_pos (repeat_length _ _)) as [s E].
    exists (lu_A s). rewrite (LUPSolve_unfold x A b n 0 s Hn E). reflexivity.
Qed.

Lemma X12_witness :
  exists A', LUPSolve [7; 8]%float [[1; 0]; [2; 0]]%float [3; 4]%float 2
             = Some (1, [7; 8]%float, A').
Proof.
  apply (X12_zero_column_fails 2 tol [[1; 0]; [2; 0]]%float [0; 0; 0]
                               [7; 8]%float [3; 4]%float 1).
  - reflexivity.
  - split; [reflexivity | repeat constructor].
  - reflexivity.
  - reflexivity.
  - lia.
  - intros r Hr. destruct r as [|[|r]]; [reflexivity | reflexivity | lia].
Defined.

(** ** What polyFit hands back *)

Lemma LUPSolve_code (x : list float) (A : list (list float)) (b : list float) (N : Z)
      (r : Z) (x' : list float) (A' : list (list float)) :
  LUPSolve x A b N = Some (r, x', A') -> r = 0 \/ r = 1.
Proof.
  unfold LUPSolve. intros E.
  destruct (LUPDecompose A N tol _) as [[[ok A1] P1]|]; [cbn [bind] in E | discriminate].
  destruct (ok =? 0); [injection E as <- _ _; now right|].
  destruct (for_up _ _ _ x) as [x1|]; [cbn [bind] in E | discriminate].
  destruct (for_down _ _ _ x1) as [x2|]; [cbn [bind] in E | discriminate].
  injection E as <- _ _. now left.
Qed.

(** X13.  Whenever polyFit returns, the error code is 0 or 1 and the
    coefficient vector has exactly [inPolOrder + 1] entries (computed in
    [unsigned int]), whatever its length was at entry. *)
Theorem X13_coefficient_vector_length
        (out inX inY : list float) (d : Z) (e : Z) (c : list float) :
  polyFit out inX inY d = Some (e, c) ->
  (e = 0 \/ e = 1) /\ length c = Z.to_nat (wrap (d + 1)).
Proof.
  unfold polyFit. intros E.
  destruct (normal_equations inX inY d) as [[XX XY]|]; [cbn [bind] in E | discriminate].
  destruct (LUPSolve _ XX XY _) as [[[e1 c1] A1]|] eqn:ES; [cbn [bind] in E | discriminate].
  injection E as <- <-. split.
  - now apply LUPSolve_code in ES.
  - apply LUPSolve_length in ES. now rewrite ES, length_resize.
Qed.

Lemma X13_witness :
  (1 = 0 \/ 1 = 1) /\ length [0; 0]%float = Z.to_nat (wrap (1 + 1)).
Proof.
  apply (X13_coefficient_vector_length [] [1; 1; 1]%float [1; 2; 3]%float 1
                                       1 [0; 0]%float).
  vm_compute. reflexivity.
Defined.

(** X14.  The solution does not depend on what the output vector held:
    two calls of LUPSolve on the same system, with output vectors of one
    length, return the same code and the same matrix, and on success the
    same [x[0..N-1]]. *)
Theorem X14_solution_ignores_initial_x
        (x1 x2 : list float) (A : list (list float)) (b : list float) (N : Z)
        (r : Z) (y1 : list float) (A1 : list (list float)) :
  0 <= N <= uint_max -> length x1 = length x2 ->
  LUPSolve x1 A b N = Some (r, y1, A1) ->
  exists y2,
    LUPSolve x2 A b N = Some (r, y2, A1) /\
    ((r = 1 /\ y1 = x1 /\ y2 = x2) \/
     (r = 0 /\ forall c, (c < Z.to_nat N)%nat -> nth_error y1 c = nth_error y2 c)).
Proof.
  intros HN HL E.
  pose proof (LUPSolve_rel x1 x2 A b N HN HL) as H. rewrite E in H.
  destruct (LUPSolve x2 A b N) as [[[r2 y2] A2]|]; simpl in H; [|contradiction].
  destruct H as [<- [<- H]]. exists y2. split; [reflexivity|].
  destruct H as [H | [H0 [_ Hag]]]; auto.
Qed.

Lemma X14_witness :
  exists y2,
    LUPSolve [7; 8]%float [[2; 1]; [1; 3]]%float [5; 10]%float 2
    = Some (0, y2, [[2; 1]; [0.5; 2.5]]%float) /\
    ((0 = 1 /\ [1; 3]%float = [0; 0]%float /\ y2 = [7; 8]%float) \/
     (0 = 0 /\ forall c, (c < Z.to_nat 2)%nat ->
                         nth_error [1; 3]%float c = nth_error y2 c)).
Proof.
  apply (X14_solution_ignores_initial_x
           [0; 0]%float [7; 8]%float [[2; 1]; [1; 3]]%float [5; 10]%float 2
           0 [1; 3]%float [[2; 1]; [0.5; 2.5]]%float).
  - unfold uint_max. lia.
  - reflexivity.
  - vm_compute. reflexivity.
Defined.
